(** * Infrastructure contract analysis: ingestion pipeline

    A shallow embedding of the document ingestion pipeline
    ([src/ingestion.py]), of the two parsers' structural segmentation and
    clause classification ([src/parsers/pdf_parser.py],
    [src/parsers/xml_parser.py]) and of the terminology tables
    ([src/schema.py]), with the properties the specification states about
    them.

    Text.  A Python [str] is modelled as a list of characters whose code
    points are below 256 ([list ascii]); the character classes used by the
    code ([str.strip], [str.lower], [\d], [\s], [\w], [str.splitlines]) are
    those of Python 3 restricted to that range.

    Objects.  Pydantic models are records.  Where the code mutates objects
    in place ([_normalize_document]) the sections live in a store indexed by
    references, and the functions pass the store explicitly. *)

From Stdlib Require Import List Ascii String Arith Bool Lia DecimalString DecimalNat.
From stdpp Require Import base option list gmap strings.
Import ListNotations.

Local Open Scope nat_scope.
Local Open Scope list_scope.

(** ** Python strings *)

Module Py.

Abbreviation str := (list ascii).

Definition lit (s : string) : str := list_ascii_of_string s.

Definition code (c : ascii) : nat := nat_of_ascii c.

Definition in_range (lo hi : nat) (c : ascii) : bool :=
  (lo <=? code c) && (code c <=? hi).

(** [str.isspace] on one character, also the class [\s] of [re]. *)
Definition isspace (c : ascii) : bool :=
  in_range 9 13 c || in_range 28 32 c || (code c =? 133) || (code c =? 160).

(** The class [\d] of [re]. *)
Definition isdigit (c : ascii) : bool := in_range 48 57 c.

(** The class [[A-Z]]. *)
Definition isupper (c : ascii) : bool := in_range 65 90 c.

(** The class [\w] of [re]: alphanumeric characters and the underscore. *)
Definition isword (c : ascii) : bool :=
  isdigit c || isupper c || in_range 97 122 c || (code c =? 95)
  || (code c =? 170) || (code c =? 178) || (code c =? 179) || (code c =? 181)
  || (code c =? 185) || (code c =? 186) || in_range 188 190 c
  || in_range 192 214 c || in_range 216 246 c || in_range 248 255 c.

Definition lower_char (c : ascii) : ascii :=
  if in_range 65 90 c || in_range 192 214 c || in_range 216 222 c
  then ascii_of_nat (code c + 32) else c.

(** [s.lower()] *)
Definition lower (s : str) : str := map lower_char s.

(** [len(s)] is [length s]. *)

(** [s.lstrip()], [s.rstrip()], [s.strip()] *)
Fixpoint lstrip (s : str) : str :=
  match s with
  | [] => []
  | c :: r => if isspace c then lstrip r else s
  end.

Definition rstrip (s : str) : str := rev (lstrip (rev s)).

Definition strip (s : str) : str := rstrip (lstrip s).

(** Truth value of a string: [if s:] *)
Definition truthy (s : str) : bool :=
  match s with [] => false | _ :: _ => true end.

(** [s[a:b]] for non-negative [a] and [b] *)
Definition slice (s : str) (a b : nat) : str := firstn (b - a) (skipn a s).

Fixpoint startswith (s p : str) : bool :=
  match p, s with
  | [], _ => true
  | _ :: _, [] => false
  | x :: p', y :: s' => Ascii.eqb x y && startswith s' p'
  end.

(** [sub in s] *)
Fixpoint contains (s sub : str) : bool :=
  startswith s sub ||
  match s with
  | [] => false
  | _ :: r => contains r sub
  end.

(** [s.rfind(c, lo, hi)] for a one-character [c]: the highest index [i] with
    [lo <= i < hi], [i < len(s)] and [s[i] = c]; [None] stands for -1.
    [i] is the index of the head of [s] in the whole string. *)
Fixpoint rfind_from (c : ascii) (s : str) (i lo hi : nat) (last : option nat)
  : option nat :=
  match s with
  | [] => last
  | x :: r =>
      rfind_from c r (S i) lo hi
        (if (lo <=? i) && (i <? hi) && Ascii.eqb x c then Some i else last)
  end.

Definition rfind (s : str) (c : ascii) (lo hi : nat) : option nat :=
  rfind_from c s 0 lo hi None.

(** [s.split(sep)] for a one-character separator *)
Fixpoint split (sep : ascii) (s : str) : list str :=
  match s with
  | [] => [[]]
  | c :: r =>
      if Ascii.eqb c sep then [] :: split sep r
      else match split sep r with
           | [] => [[c]]
           | h :: t => (c :: h) :: t
           end
  end.

(** [sep.join(parts)] *)
Fixpoint join (sep : str) (parts : list str) : str :=
  match parts with
  | [] => []
  | [p] => p
  | p :: rest => p ++ sep ++ join sep rest
  end.

(** [s.replace(a, b)] for one-character [a] and [b] *)
Definition replace_char (a b : ascii) (s : str) : str :=
  map (fun c => if Ascii.eqb c a then b else c) s.

(** [str(n)] for a non-negative integer *)
Definition str_of_nat (n : nat) : str :=
  list_ascii_of_string (NilEmpty.string_of_uint (Nat.to_uint n)).

(** Line boundaries of [str.splitlines]. *)
Definition islinebreak (c : ascii) : bool :=
  in_range 10 13 c || in_range 28 30 c || (code c =? 133).

(** [s.splitlines()]; [cur] is the current line, reversed. *)
Fixpoint splitlines_from (s : str) (cur : str) : list str :=
  match s with
  | [] => match cur with [] => [] | _ => [rev cur] end
  | c :: r =>
      if islinebreak c then
        rev cur ::
          match r with
          | c2 :: r2 =>
              if (code c =? 13) && (code c2 =? 10)
              then splitlines_from r2 []
              else splitlines_from r []
          | [] => []
          end
      else splitlines_from r (c :: cur)
  end.

Definition splitlines (s : str) : list str := splitlines_from s [].

(** The longest prefix of [s] whose characters satisfy [p], and the rest:
    a greedy [p*]. *)
Fixpoint span (p : ascii -> bool) (s : str) : str * str :=
  match s with
  | [] => ([], [])
  | c :: r =>
      if p c then let (a, b) := span p r in (c :: a, b) else ([], s)
  end.

End Py.

Import Py.

(** ** Data model ([src/schema.py]) *)

Inductive PartyRole :=
  | SELLER | BUYER | PURCHASER | VENDOR | CONTRACTOR | LENDER | GUARANTOR
  | TRUSTEE | AGENT | ROLE_OTHER.

Inductive ClauseType :=
  | PARTIES | DEFINITIONS | PURCHASE_AND_SALE | PRICE | ADJUSTMENTS | CLOSING
  | CONDITIONS_PRECEDENT | REPRESENTATIONS_WARRANTIES | COVENANTS
  | INDEMNITIES | LIMITATIONS | GOVERNING_LAW | DISPUTE_RESOLUTION | NOTICES
  | TERMINATION | FORCE_MAJEURE | MISCELLANEOUS | OTHER.

Record datetime := { year : nat; month : nat; day : nat }.

Record Party := {
  party_name : str;
  party_role : PartyRole;
  party_jurisdiction : option str;
  party_address : option str;
  party_entity_type : option str
}.

(** [class Definition] *)
Record DefinitionT := {
  term : str;
  definition : str;
  def_section_id : option str
}.

(** [class Section] *)
Record SectionT := {
  id : str;
  title : str;
  text : str;
  clause_type : ClauseType;
  tags : list str;
  definitions : list str;
  parent_section : option str;
  page_number : option nat
}.

Record DocumentMetadata := {
  document_id : str;
  doc_title : str;
  document_type : str;
  jurisdiction : str;
  governing_law : option str;
  industry : str;
  effective_date : option datetime;
  execution_date : option datetime;
  termination_date : option datetime;
  parties : list Party;
  source_file : str;
  source_format : str;
  processing_date : datetime
}.

Record LegalDocument := {
  metadata : DocumentMetadata;
  sections : list SectionT;
  doc_definitions : list DefinitionT
}.

Record ChunkMetadata := {
  chunk_id : str;
  cm_document_id : str;
  section_id : str;
  chunk_index : nat;
  chunk_type : str;
  cm_tags : list str;
  source_citation : str;
  heading_number : option str;
  heading_level : option nat;
  parent_heading_number : option str
}.

(** The embedding is filled in by the indexing stage only; its entries are
    floating point numbers, kept abstract here. *)
Record ProcessedChunk := {
  chunk_metadata : ChunkMetadata;
  content : str;
  embedding : option (list unit)
}.

(** [LEGAL_TERM_SYNONYMS], in insertion order. *)
Definition LEGAL_TERM_SYNONYMS : list (str * list str) :=
  [ (lit "purchase_price_adjustment",
       [lit "true-up"; lit "price adjustment"; lit "purchase price true-up"]);
    (lit "material_adverse_effect",
       [lit "material adverse change"; lit "MAC"; lit "MAE"]);
    (lit "conditions_precedent",
       [lit "closing conditions"; lit "conditions to closing"]);
    (lit "representations_warranties",
       [lit "reps and warranties"; lit "representations"; lit "warranties"]);
    (lit "indemnification",
       [lit "indemnity"; lit "indemnities"; lit "hold harmless"]);
    (lit "force_majeure", [lit "act of god"; lit "unforeseeable circumstances"]);
    (lit "governing_law", [lit "applicable law"; lit "choice of law"]);
    (lit "dispute_resolution",
       [lit "arbitration"; lit "litigation"; lit "mediation"]);
    (lit "termination", [lit "expiry"; lit "expiration"; lit "end"]);
    (lit "assignment", [lit "transfer"; lit "novation"]) ].

(** [INFRA_FINANCE_TERMS], in insertion order. *)
Definition INFRA_FINANCE_TERMS : list (str * str) :=
  [ (lit "CROD", lit "Contract Rate of Delivery");
    (lit "transmission_service", lit "electrical transmission services");
    (lit "point_of_delivery", lit "delivery point");
    (lit "billing_demand", lit "maximum demand charge");
    (lit "energy_charge", lit "electricity usage charge");
    (lit "curtailment", lit "reduction in delivery");
    (lit "liquidated_damages", lit "predetermined damages");
    (lit "patronage", lit "cooperative member benefits");
    (lit "operating_procedures", lit "operational guidelines") ].

(** ** Regular expressions of the chunker ([src/ingestion.py]) *)

Definition dot : ascii := "."%char.
Definition quote : ascii := ascii_of_nat 34.
Definition space : ascii := " "%char.
Definition underscore : ascii := "_"%char.

(** Greedy [\d*(?:\.\d+)*] at the head of [s]: the matched text and the rest.
    A dot is taken only when a digit follows it. *)
Fixpoint re_number_tail (s : str) : str * str :=
  match s with
  | [] => ([], [])
  | c :: r =>
      if isdigit c then
        let (m, rest) := re_number_tail r in (c :: m, rest)
      else if Ascii.eqb c dot then
        match r with
        | d :: _ =>
            if isdigit d then
              let (m, rest) := re_number_tail r in (c :: m, rest)
            else ([], s)
        | [] => ([], s)
        end
      else ([], s)
  end.

Definition starts_with_digit (s : str) : bool :=
  match s with c :: _ => isdigit c | [] => false end.

Definition has_dot (s : str) : bool := existsb (Ascii.eqb dot) s.

(** [$]: at the end of the string, or just before a newline that ends it. *)
Definition at_dollar (rest : str) : bool :=
  match rest with
  | [] => true
  | [c] => code c =? 10
  | _ => false
  end.

(** [re.match(r"^\d+(?:\.\d+)+$", s)] as a truth value. *)
Definition re_dotted_id (s : str) : bool :=
  starts_with_digit s &&
  let (m, rest) := re_number_tail s in has_dot m && at_dollar rest.

(** [\b] after a digit: the next character, if any, is not a word character. *)
Definition at_boundary (rest : str) : bool :=
  match rest with
  | [] => true
  | c :: _ => negb (isword c)
  end.

(** ['.'.join(num.split('.')[:-1])] *)
Definition drop_last_component (num : str) : str :=
  join [dot] (removelast (split dot num)).

(** [re.match(r"^(\d+(?:\.\d+)+)\b", s)]: group 1 of the match, if any.  The
    greedy match is tried first; when no word boundary follows it, the
    engine gives up the last [\.\d+] group, after which a dot follows and
    the boundary holds. *)
Definition re_heading_number (s : str) : option str :=
  if starts_with_digit s then
    let (m, rest) := re_number_tail s in
    if has_dot m then
      if at_boundary rest then Some m
      else
        let m' := drop_last_component m in
        if has_dot m' then Some m' else None
    else None
  else None.

(** ** The chunker ([DocumentIngestionPipeline]) *)

(** [self.max_chunk_size] and [self.chunk_overlap], set by [__init__]. *)
Definition max_chunk_size : nat := 1000.
Definition chunk_overlap : nat := 100.

(** [_extract_heading_meta] *)
Definition _extract_heading_meta (section_text : str)
  : option (str * nat * option str) :=
  let lines :=
    map strip (List.filter (fun l => truthy (strip l)) (splitlines section_text)) in
  match lines with
  | [] => None
  | l0 :: more =>
      let m :=
        match re_heading_number l0 with
        | Some g => Some g
        | None =>
            match more with
            | l1 :: _ => re_heading_number l1
            | [] => None
            end
        end in
      match m with
      | None => None
      | Some num =>
          let parts := split dot num in
          let level := length parts in
          let parent :=
            if 1 <? level then Some (join [dot] (removelast parts)) else None in
          Some (num, level, parent)
      end
  end.

(** The end of the window that starts at [start]: the body of the loop of
    [_split_text_with_overlap] up to the slice. *)
Definition window_end (text : str) (start : nat) : nat :=
  let end_ := start + max_chunk_size in
  if end_ <? length text then
    match rfind text dot (start + max_chunk_size - 100) end_ with
    | Some sentence_end =>
        if start <? sentence_end then sentence_end + 1 else end_
    | None => end_
    end
  else end_.

(** The [while] loop of [_split_text_with_overlap]; [None] when the fuel is
    used up before the loop ends. *)
Fixpoint split_loop (fuel : nat) (text : str) (start : nat) (chunks : list str)
  : option (list str) :=
  match fuel with
  | 0 => None
  | S fuel' =>
      if start <? length text then
        let end_ := window_end text start in
        let chunk_text := strip (slice text start end_) in
        let chunks' :=
          if truthy chunk_text then chunks ++ [chunk_text] else chunks in
        let start' := end_ - chunk_overlap in
        if length text <=? start' then Some chunks'
        else split_loop fuel' text start' chunks'
      else Some chunks
  end.

(** [_split_text_with_overlap] *)
Definition _split_text_with_overlap (text : str) : option (list str) :=
  split_loop (S (length text)) text 0 [].

(** The windows [(start, end)] the loop goes through, in order: the trace
    of [split_loop]. *)
Fixpoint windows_loop (fuel : nat) (text : str) (start : nat)
  : option (list (nat * nat)) :=
  match fuel with
  | 0 => None
  | S fuel' =>
      if start <? length text then
        let end_ := window_end text start in
        let start' := end_ - chunk_overlap in
        if length text <=? start' then Some [(start, end_)]
        else
          match windows_loop fuel' text start' with
          | Some ws => Some ((start, end_) :: ws)
          | None => None
          end
      else Some []
  end.

Definition split_windows (text : str) : option (list (nat * nat)) :=
  windows_loop (S (length text)) text 0.

(** The chunk texts a list of windows gives: each window's slice, stripped,
    kept when it is not empty. *)
Definition window_chunks (text : str) (ws : list (nat * nat)) : list str :=
  List.filter (fun c => truthy c) (map (fun w => strip (slice text (fst w) (snd w))) ws).

(** The heading anchor of a section, the first part of [_chunk_section]. *)
Definition heading_anchor (section : SectionT)
  : option str * option nat * option str :=
  if re_dotted_id (strip (id section)) then
    let heading_number := strip (id section) in
    let parts := split dot heading_number in
    let heading_level := length parts in
    let parent_heading :=
      if 1 <? heading_level then Some (join [dot] (removelast parts))
      else None in
    (Some heading_number, Some heading_level, parent_heading)
  else
    match _extract_heading_meta (text section) with
    | Some (num, level, parent) => (Some num, Some level, parent)
    | None => (None, None, None)
    end.

(** The [ProcessedChunk] built in both branches of [_chunk_section]. *)
Definition clause_chunk (document : LegalDocument) (section : SectionT)
    (anchor : option str * option nat * option str) (i : nat) (chunk_text : str)
  : ProcessedChunk :=
  let doc_id := document_id (metadata document) in
  {| chunk_metadata :=
       {| chunk_id := doc_id ++ lit "_" ++ id section ++ lit "_" ++ str_of_nat i;
          cm_document_id := doc_id;
          section_id := id section;
          chunk_index := i;
          chunk_type := lit "clause";
          cm_tags := tags section;
          source_citation :=
            doc_title (metadata document) ++ lit ", Section " ++ id section;
          heading_number := fst (fst anchor);
          heading_level := snd (fst anchor);
          parent_heading_number := snd anchor |};
     content := chunk_text;
     embedding := None |}.

(** [enumerate(chunk_texts)] *)
Definition enumerate {A} (l : list A) : list (nat * A) :=
  combine (seq 0 (length l)) l.

(** [_chunk_section]; [None] only when the loop of the split runs out of
    fuel. *)
Definition _chunk_section (document : LegalDocument) (section : SectionT)
  : option (list ProcessedChunk) :=
  let text := text section in
  let anchor := heading_anchor section in
  if length text <=? max_chunk_size then
    Some [clause_chunk document section anchor 0 text]
  else
    match _split_text_with_overlap text with
    | Some chunk_texts =>
        Some (map (fun ic => clause_chunk document section anchor (fst ic) (snd ic))
                  (enumerate chunk_texts))
    | None => None
    end.

(** [_hash_string] and what depends on it.  [hashlib.md5(...).hexdigest()]
    is a library function of the text; the code keeps its first eight
    characters. *)
Section Hashing.

Variable md5_hexdigest : str -> str.

Definition _hash_string (text : str) : str := firstn 8 (md5_hexdigest text).

(** [definition.section_id or "definitions"]: [None] and the empty string
    are both false. *)
Definition section_id_or (sid : option str) (default : str) : str :=
  match sid with
  | Some s => if truthy s then s else default
  | None => default
  end.

(** [_chunk_definition] *)
Definition _chunk_definition (document : LegalDocument) (d : DefinitionT)
  : ProcessedChunk :=
  let doc_id := document_id (metadata document) in
  {| chunk_metadata :=
       {| chunk_id := doc_id ++ lit "_def_" ++ _hash_string (term d);
          cm_document_id := doc_id;
          section_id := section_id_or (def_section_id d) (lit "definitions");
          chunk_index := 0;
          chunk_type := lit "definition";
          cm_tags :=
            [lit "definition"; replace_char space underscore (lower (term d))];
          source_citation :=
            doc_title (metadata document) ++ lit ", Definition: " ++ term d;
          heading_number := None;
          heading_level := None;
          parent_heading_number := None |};
     content := [quote] ++ term d ++ [quote] ++ lit " means " ++ definition d;
     embedding := None |}.

(** The first loop of [chunk_document]: [chunks.extend] per section. *)
Fixpoint chunk_sections (document : LegalDocument) (ss : list SectionT)
    (chunks : list ProcessedChunk) : option (list ProcessedChunk) :=
  match ss with
  | [] => Some chunks
  | section :: rest =>
      match _chunk_section document section with
      | Some section_chunks =>
          chunk_sections document rest (chunks ++ section_chunks)
      | None => None
      end
  end.

(** [chunk_document] *)
Definition chunk_document (document : LegalDocument)
  : option (list ProcessedChunk) :=
  match chunk_sections document (sections document) [] with
  | Some chunks =>
      Some (fold_left (fun acc d => acc ++ [_chunk_definition document d])
              (doc_definitions document) chunks)
  | None => None
  end.

End Hashing.

(** ** The terminology normalizer ([DocumentIngestionPipeline]) *)

(** The inner loop of [_normalize_tags]: leaves at the first synonym found
    in the content. *)
Fixpoint any_synonym (content_lower : str) (synonyms : list str) : bool :=
  match synonyms with
  | [] => false
  | synonym :: rest =>
      if contains content_lower (lower synonym) then true
      else any_synonym content_lower rest
  end.

(** [_normalize_tags].  The tags are a Python [set]; [list(tags)] lists its
    elements in an order the language leaves open, as [elements] does. *)
Definition _normalize_tags (existing_tags : list str) (content : str)
  : list str :=
  let tags0 : gset str := list_to_set existing_tags in
  let content_lower := lower content in
  let tags1 :=
    fold_left
      (fun (tags : gset str) entry =>
         if any_synonym content_lower (snd entry)
         then {[ fst entry ]} ∪ tags else tags)
      LEGAL_TERM_SYNONYMS tags0 in
  let tags2 :=
    fold_left
      (fun (tags : gset str) entry =>
         if contains content_lower (lower (fst entry))
            || contains content_lower (lower (snd entry))
         then {[ replace_char space underscore (lower (fst entry)) ]} ∪ tags
         else tags)
      INFRA_FINANCE_TERMS tags1 in
  elements tags2.

(** [re.compile(re.escape(pat), re.IGNORECASE).sub(repl, s)] for a
    non-empty [pat] and a [repl] without backslashes: the matches are found
    from left to right and do not overlap.  [skip] counts the characters of
    a match still to be dropped.  Among the characters below U+0100 a
    character of the text matches a letter of the pattern exactly when
    their lower-case forms are equal.  (Above that range the engine also
    lets U+017F match s, U+0130 and U+0131 match i and U+212A match k; text
    with such characters is not a [str] of this development.) *)
Fixpoint sub_ignorecase (pat repl : str) (s : str) (skip : nat) : str :=
  match s with
  | [] => []
  | c :: r =>
      match skip with
      | S k => sub_ignorecase pat repl r k
      | 0 =>
          if startswith (lower s) (lower pat)
          then repl ++ sub_ignorecase pat repl r (length pat - 1)
          else c :: sub_ignorecase pat repl r 0
      end
  end.

Definition upper_char (c : ascii) : ascii :=
  if in_range 97 122 c then ascii_of_nat (code c - 32) else c.

(** [s.title()] for text whose letters are ASCII, as the keys of the
    terminology table are: only the letters A-Z and a-z are taken as cased.
    Python also changes the case of the other letters below U+0100, so this
    is [s.title()] only where [s] has none of them. *)
Fixpoint title_from (prev_cased : bool) (s : str) : str :=
  match s with
  | [] => []
  | c :: r =>
      if in_range 65 90 c || in_range 97 122 c then
        (if prev_cased then lower_char c else upper_char c) :: title_from true r
      else c :: title_from false r
  end.

Definition str_title (s : str) : str := title_from false s.

(** [_normalize_terminology]: term by term and synonym by synonym, each
    substitution working on the result of the one before. *)
Definition _normalize_terminology (text : str) : str :=
  fold_left
    (fun normalized_text entry =>
       fold_left
         (fun normalized_text synonym =>
            sub_ignorecase synonym
              (str_title (replace_char underscore space (fst entry)))
              normalized_text 0)
         (snd entry) normalized_text)
    LEGAL_TERM_SYNONYMS text.

(** *** Documents as objects

    A [LegalDocument] object holds references to its [Section] objects; the
    sections themselves live in the store.  Two entries of [obj_sections]
    may be the same reference. *)

Abbreviation ref := nat.

Record LegalDocumentObj := {
  obj_metadata : DocumentMetadata;
  obj_sections : list ref;
  obj_definitions : list DefinitionT
}.

Abbreviation store := (gmap ref SectionT).

(** The document an object stands for in a store. *)
Definition snapshot (h : store) (document : LegalDocumentObj) : LegalDocument :=
  {| metadata := obj_metadata document;
     sections := omap (fun r => h !! r) (obj_sections document);
     doc_definitions := obj_definitions document |}.

(** [section.tags = value] and [section.text = value] *)
Definition set_tags (value : list str) (s : SectionT) : SectionT :=
  {| id := id s; title := title s; text := text s;
     clause_type := clause_type s; tags := value;
     definitions := definitions s; parent_section := parent_section s;
     page_number := page_number s |}.

Definition set_text (value : str) (s : SectionT) : SectionT :=
  {| id := id s; title := title s; text := value;
     clause_type := clause_type s; tags := tags s;
     definitions := definitions s; parent_section := parent_section s;
     page_number := page_number s |}.

(** [_normalize_document]: two passes over [document.sections], each
    assigning one attribute of the section object; the result is the store
    after the passes and the reference the function returns.  A reference
    of a document always designates an object; on a store without it
    [alter] changes nothing. *)
Definition _normalize_document (h : store) (document : LegalDocumentObj)
  : store * LegalDocumentObj :=
  let h1 :=
    fold_left
      (fun (h : store) (r : ref) =>
         alter (fun section =>
                  set_tags (_normalize_tags (tags section) (text section)) section)
               r h)
      (obj_sections document) h in
  let h2 :=
    fold_left
      (fun (h : store) (r : ref) =>
         alter (fun section =>
                  set_text (_normalize_terminology (text section)) section)
               r h)
      (obj_sections document) h1 in
  (h2, document).

(** ** Pieces of regular expressions

    Each piece consumes a prefix of the input and returns what it matched
    with the rest.  The patterns below chain pieces whose character classes
    exclude the character that must follow them, so the greedy match is the
    only candidate and no backtracking is lost. *)

(** [p+], greedy *)
Definition many1 (p : ascii -> bool) (s : str) : option (str * str) :=
  let (m, rest) := span p s in
  if truthy m then Some (m, rest) else None.

(** one character of the class [p] *)
Definition one (p : ascii -> bool) (s : str) : option (ascii * str) :=
  match s with
  | c :: rest => if p c then Some (c, rest) else None
  | [] => None
  end.

Definition is_dot (c : ascii) : bool := Ascii.eqb c dot.
Definition not_dot (c : ascii) : bool := negb (Ascii.eqb c dot).

(** [s.replace(old, new)] for a non-empty [old]; [skip] as in
    [sub_ignorecase]. *)
Fixpoint replace_from (old new : str) (s : str) (skip : nat) : str :=
  match s with
  | [] => []
  | c :: r =>
      match skip with
      | S k => replace_from old new r k
      | 0 =>
          if startswith s old
          then new ++ replace_from old new r (length old - 1)
          else c :: replace_from old new r 0
      end
  end.

Definition str_replace (old new s : str) : str := replace_from old new s 0.

Definition islower (c : ascii) : bool := in_range 97 122 c.
Definition not_quote (c : ascii) : bool := negb (Ascii.eqb c quote).

(** [\b] before a word character: the character before it, if any, is not
    a word character. *)
Definition at_word_start (prev : option ascii) : bool :=
  match prev with
  | None => true
  | Some p => negb (isword p)
  end.

(** The pattern for quoted terms at the head of [s]: a double quote, then
    the group [[A-Z][^Q]*] where [Q] is the double quote, then a double
    quote. *)
Definition match_quoted (s : str) : option str :=
  '(_, r) ← one (Ascii.eqb quote) s;
  '(u, r) ← one isupper r;
  let (body, r) := span not_quote r in
  '(_, _) ← one (Ascii.eqb quote) r;
  Some (u :: body).

(** [r'\b([A-Z]{2,})\b'] at the head of [s], [prev] being the character
    before it; a shorter run of capitals is followed by a capital, where no
    word boundary is. *)
Definition match_caps (prev : option ascii) (s : str) : option str :=
  if at_word_start prev then
    let (run, rest) := span isupper s in
    if (2 <=? length run) && at_boundary rest then Some run else None
  else None.

(** [r'\b([A-Z][a-z]+ [A-Z][a-z]+)\b'] at the head of [s] *)
Definition match_two_words (prev : option ascii) (s : str) : option str :=
  if at_word_start prev then
    '(u1, r) ← one isupper s;
    '(l1, r) ← many1 islower r;
    '(_, r) ← one (Ascii.eqb space) r;
    '(u2, r) ← one isupper r;
    '(l2, r) ← many1 islower r;
    if at_boundary r then Some (u1 :: l1 ++ [space] ++ u2 :: l2) else None
  else None.

(** [re.findall] for a pattern with one group that matches no empty text:
    the matches from left to right, without overlap.  [pattern] tries the
    pattern at the head of the text it is given, knowing the character
    before; [skip] counts the characters of the last match still to be
    passed. *)
Fixpoint findall_from (pattern : option ascii -> str -> option str)
    (width : str -> nat) (prev : option ascii) (s : str) (skip : nat)
  : list str :=
  match s with
  | [] => []
  | c :: r =>
      match skip with
      | S k => findall_from pattern width (Some c) r k
      | 0 =>
          match pattern prev s with
          | Some g => g :: findall_from pattern width (Some c) r (width g - 1)
          | None => findall_from pattern width (Some c) r 0
          end
      end
  end.

(** [width g] is the length of the whole match whose group is [g]: the
    quotes around a quoted term count. *)
Definition findall_quoted (s : str) : list str :=
  findall_from (fun _ => match_quoted) (fun g => length g + 2) None s 0.

Definition findall_caps (s : str) : list str :=
  findall_from match_caps (@length ascii) None s 0.

Definition findall_two_words (s : str) : list str :=
  findall_from match_two_words (@length ascii) None s 0.

(** [list(set(items))]: the distinct items, in an order the language leaves
    open. *)
Definition list_of_set (items : list str) : list str :=
  elements (list_to_set items : gset str).

(** ** The PDF parser ([src/parsers/pdf_parser.py]) *)

Module PDFLegalParser.

(** [r'^(\d+)\.\s+([A-Z][^.]+)\.'], groups 1 and 2 *)
Definition pattern_numbered (line : str) : option (str * str) :=
  '(num, r) ← many1 isdigit line;
  '(_, r) ← one is_dot r;
  '(_, r) ← many1 isspace r;
  '(u, r) ← one isupper r;
  '(body, r) ← many1 not_dot r;
  '(_, _) ← one is_dot r;
  Some (num, u :: body).

(** [r'^(\d+\.\d+)\s+([A-Z][^.]+)'] *)
Definition pattern_dotted (line : str) : option (str * str) :=
  '(n1, r) ← many1 isdigit line;
  '(_, r) ← one is_dot r;
  '(n2, r) ← many1 isdigit r;
  '(_, r) ← many1 isspace r;
  '(u, r) ← one isupper r;
  '(body, _) ← many1 not_dot r;
  Some (n1 ++ [dot] ++ n2, u :: body).

(** [r'^([A-Z]+)\.\s+([A-Z][^.]+)'] *)
Definition pattern_lettered (line : str) : option (str * str) :=
  '(letters, r) ← many1 isupper line;
  '(_, r) ← one is_dot r;
  '(_, r) ← many1 isspace r;
  '(u, r) ← one isupper r;
  '(body, _) ← many1 not_dot r;
  Some (letters, u :: body).

(** [self.section_patterns], in order *)
Definition section_patterns : list (str -> option (str * str)) :=
  [pattern_numbered; pattern_dotted; pattern_lettered].

(** The inner loop over the patterns: the first that matches. *)
Fixpoint first_match (patterns : list (str -> option (str * str))) (line : str)
  : option (str * str) :=
  match patterns with
  | [] => None
  | pattern :: rest =>
      match pattern line with
      | Some m => Some m
      | None => first_match rest line
      end
  end.

(** [_classify_clause_type] *)
Definition _classify_clause_type (title : str) : ClauseType :=
  let title_lower := lower title in
  if contains title_lower (lit "purchase") || contains title_lower (lit "sale")
  then PURCHASE_AND_SALE
  else if contains title_lower (lit "price") || contains title_lower (lit "payment")
  then PRICE
  else if contains title_lower (lit "closing") then CLOSING
  else if contains title_lower (lit "condition") then CONDITIONS_PRECEDENT
  else if contains title_lower (lit "representation")
          || contains title_lower (lit "warrant")
  then REPRESENTATIONS_WARRANTIES
  else if contains title_lower (lit "covenant") then COVENANTS
  else if contains title_lower (lit "indemnif") then INDEMNITIES
  else if contains title_lower (lit "governing law") then GOVERNING_LAW
  else if contains title_lower (lit "dispute")
          || contains title_lower (lit "arbitration")
  then DISPUTE_RESOLUTION
  else if contains title_lower (lit "notice") then NOTICES
  else if contains title_lower (lit "termination") then TERMINATION
  else OTHER.

(** [_extract_tags_from_title] *)
Definition _extract_tags_from_title (title : str) : list str :=
  let title_lower := lower title in
  (if contains title_lower (lit "price") then [lit "pricing"] else [])
  ++ (if contains title_lower (lit "closing") then [lit "closing"] else [])
  ++ (if contains title_lower (lit "condition") then [lit "conditions"] else [])
  ++ (if contains title_lower (lit "indemnif") then [lit "indemnification"] else [])
  ++ (if contains title_lower (lit "termination") then [lit "termination"] else []).

(** [_find_page_number]; [page_num] is the index of the head of
    [page_texts]. *)
Fixpoint find_page_from (line : str) (page_texts : list str) (page_num : nat)
  : option nat :=
  match page_texts with
  | [] => None
  | page_text :: rest =>
      if contains page_text line then Some (page_num + 1)
      else find_page_from line rest (S page_num)
  end.

Definition _find_page_number (line : str) (page_texts : list str) : option nat :=
  find_page_from line page_texts 0.

(** [_extract_referenced_definitions] *)
Definition _extract_referenced_definitions (full_text : str) : list str :=
  let quoted_terms := findall_quoted full_text in
  let caps_terms := findall_caps full_text in
  list_of_set (quoted_terms ++ caps_terms).

(** The variables of the loop of [_extract_sections]. *)
Record loop_state := {
  st_sections : list SectionT;
  current_section : option SectionT;
  current_content : list str;
  section_counter : nat
}.

Definition newline : ascii := ascii_of_nat 10.

(** One turn of the loop over the lines. *)
Definition loop_body (page_texts : list str) (st : loop_state) (raw_line : str)
  : loop_state :=
  let line := strip raw_line in
  if negb (truthy line) then st
  else
    match first_match section_patterns line with
    | Some (section_id, g2) =>
        let title := strip g2 in
        {| st_sections :=
             match current_section st with
             | Some cur => st_sections st ++ [cur]
             | None => st_sections st
             end;
           current_section :=
             Some {| id := section_id;
                     title := title;
                     text := [];
                     clause_type := _classify_clause_type title;
                     tags := _extract_tags_from_title title;
                     definitions := [];
                     parent_section := None;
                     page_number := _find_page_number line page_texts |};
           current_content := [line];
           section_counter := section_counter st + 1 |}
    | None =>
        match current_section st with
        | Some _ =>
            {| st_sections := st_sections st;
               current_section := current_section st;
               current_content := current_content st ++ [line];
               section_counter := section_counter st |}
        | None => st
        end
    end.

Definition set_definitions (value : list str) (s : SectionT) : SectionT :=
  {| id := id s; title := title s; text := text s;
     clause_type := clause_type s; tags := tags s;
     definitions := value; parent_section := parent_section s;
     page_number := page_number s |}.

(** [_extract_sections] *)
Definition _extract_sections (full_text : str) (page_texts : list str)
  : list SectionT :=
  let lines := split newline full_text in
  let st :=
    fold_left (loop_body page_texts) lines
      {| st_sections := []; current_section := None;
         current_content := []; section_counter := 0 |} in
  match current_section st with
  | Some cur =>
      let cur := set_text (join [newline] (current_content st)) cur in
      let cur :=
        set_definitions (_extract_referenced_definitions (text cur)) cur in
      st_sections st ++ [cur]
  | None => st_sections st
  end.

End PDFLegalParser.

(** ** The XML parser ([src/parsers/xml_parser.py]) *)

Module XMLLegalParser.

(** A TEI paragraph element, as far as the parser looks at it: three
    attributes, absent or present, and the text that
    [ET.tostring(elem, encoding='unicode', method='text')] gives. *)
Record Element := {
  xml_id : option str;
  base : option str;
  toc_number : option str;
  text_content : str
}.

(** [elem.get(name, '')] *)
Definition get_or_empty (attribute : option str) : str :=
  match attribute with Some v => v | None => [] end.

(** [_classify_clause_type]; the content is lower-cased and not looked at
    again. *)
Definition _classify_clause_type (title content : str) : ClauseType :=
  let title_lower := lower title in
  let content_lower := lower content in
  if contains title_lower (lit "rate") || contains title_lower (lit "price")
  then PRICE
  else if contains title_lower (lit "delivery") || contains title_lower (lit "sale")
  then PURCHASE_AND_SALE
  else if contains title_lower (lit "governing law") then GOVERNING_LAW
  else if contains title_lower (lit "notice") then NOTICES
  else if contains title_lower (lit "term")
          || contains title_lower (lit "termination")
  then TERMINATION
  else if contains title_lower (lit "assignment") then MISCELLANEOUS
  else if contains title_lower (lit "audit") then COVENANTS
  else if contains title_lower (lit "continuity")
          || contains title_lower (lit "service")
  then COVENANTS
  else OTHER.

(** [_extract_tags] *)
Definition _extract_tags (content title : str) : list str :=
  let content_lower := lower content in
  let title_lower := lower title in
  (if contains title_lower (lit "rate") then [lit "pricing"] else [])
  ++ (if contains title_lower (lit "delivery") then [lit "delivery"] else [])
  ++ (if contains title_lower (lit "law") then [lit "governing_law"] else [])
  ++ (if contains content_lower (lit "liquidated damages")
      then [lit "liquidated_damages"] else [])
  ++ (if contains content_lower (lit "curtailment") then [lit "curtailment"] else [])
  ++ (if contains content_lower (lit "transmission") then [lit "transmission"] else [])
  ++ (if contains content_lower (lit "arbitration") then [lit "arbitration"] else []).

(** [is_header], the local function of [_get_section_content] *)
Definition is_header (elem : Element) : bool :=
  let has_xml_id := truthy (get_or_empty (xml_id elem)) in
  let has_toc := truthy (get_or_empty (toc_number elem)) in
  let has_base := truthy (get_or_empty (base elem)) in
  has_xml_id && (has_toc || has_base).

(** The loop of [_get_section_content] over the paragraphs after the
    header: the stripped, non-empty texts up to the next header. *)
Fixpoint following_parts (paras : list Element) : list str :=
  match paras with
  | [] => []
  | current :: rest =>
      if is_header current then []
      else
        let para_text := strip (text_content current) in
        if truthy para_text then para_text :: following_parts rest
        else following_parts rest
  end.

(** [_get_section_content].  [all_paras] is [root.findall('.//p')]; the
    header element is identified by its position [header_index] in it,
    which is what the search loop of the function computes. *)
Definition _get_section_content (header_elem : Element) (header_index : nat)
    (all_paras : list Element) : str :=
  let header_text := strip (text_content header_elem) in
  let header_text :=
    match toc_number header_elem with
    | Some toc_no =>
        if truthy toc_no then toc_no ++ [space] ++ header_text else header_text
    | None => header_text
    end in
  join [space] (header_text :: following_parts (skipn (header_index + 1) all_paras)).

(** [_extract_referenced_definitions] *)
Definition _extract_referenced_definitions (content : str) : list str :=
  list_of_set (findall_two_words content ++ findall_caps content).

(** The body of the loop of [_extract_sections] for the paragraph at
    position [i]: the section it appends, if any.  The loop runs over the
    paragraphs that carry an [xml:id] attribute.  The title made of a
    [base] attribute is the one Python makes when the letters of the
    attribute are ASCII (see [title_from]). *)
Definition section_of (all_paras : list Element) (i : nat) (elem : Element)
  : option SectionT :=
  match xml_id elem with
  | None => None
  | Some xid =>
      let section_id := str_replace (lit "H_") [] xid in
      let base_attr := get_or_empty (base elem) in
      let toc := get_or_empty (toc_number elem) in
      if truthy base_attr || truthy toc then
        let title :=
          if truthy base_attr
          then str_title (replace_char underscore space base_attr)
          else lit "Section " ++ toc in
        let content := _get_section_content elem i all_paras in
        Some {| id := if truthy toc then toc else section_id;
                title := title;
                text := content;
                clause_type := _classify_clause_type title content;
                tags := _extract_tags content title;
                definitions := _extract_referenced_definitions content;
                parent_section := None;
                page_number := None |}
      else None
  end.

(** [_extract_sections] over the paragraphs of the document, in document
    order. *)
Definition _extract_sections (all_paras : list Element) : list SectionT :=
  omap (fun ie => section_of all_paras (fst ie) (snd ie)) (enumerate all_paras).

End XMLLegalParser.

(** ** Notions the properties are stated with *)

(** A text is blank when it is empty or all white space. *)
Definition blank (s : str) : bool := forallb isspace s.

(** The windows of a text chained from [start]: each window ends where
    [window_end] says, the next one starts [chunk_overlap] characters
    before that end, and the chain stops with the first window whose
    successor would start at or after the end of the text. *)
Inductive window_chain (text : str) : nat -> list (nat * nat) -> Prop :=
  | chain_last start :
      start < length text ->
      length text <= window_end text start - chunk_overlap ->
      window_chain text start [(start, window_end text start)]
  | chain_next start ws :
      start < length text ->
      window_end text start - chunk_overlap < length text ->
      window_chain text (window_end text start - chunk_overlap) ws ->
      window_chain text start ((start, window_end text start) :: ws).

(** Chunks reassemble a text when, after a prefix (the overlap with the
    chunk before) is removed from each, their concatenation is the text. *)
Definition reassembles (chunks : list str) (text : str) : Prop :=
  exists pieces : list str,
    Forall2 (fun chunk piece => exists overlap, chunk = overlap ++ piece)
            chunks pieces
    /\ concat pieces = text.

(** A numeral [\d+], and an identifier of the shape [\d+(\.\d+)+] together
    with its dot-separated components. *)
Definition numeral (c : str) : Prop :=
  c <> [] /\ Forall (fun ch => isdigit ch = true) c.

Definition dotted_numeric (ident : str) (comps : list str) : Prop :=
  ident = join [dot] comps /\ 2 <= length comps /\ Forall numeral comps.

(** [needle] occurs in [content] when case is ignored: some substring of
    the content has the same lower-case form as the needle. *)
Definition occurs_ignoring_case (needle content : str) : Prop :=
  exists pre mid post : str,
    content = pre ++ mid ++ post /\ lower mid = lower needle.

(** Two states of a section object that differ at most in [tags] and
    [text]. *)
Definition same_frame (s s' : SectionT) : Prop :=
  id s' = id s /\ title s' = title s /\ clause_type s' = clause_type s /\
  definitions s' = definitions s /\ parent_section s' = parent_section s /\
  page_number s' = page_number s.

(** An ordered rule list in the words of the specification: each rule is a
    list of keywords and a clause type; the first rule with a keyword that
    occurs in the lower-cased title wins, and [OTHER] is the answer when
    none does. *)
Definition classify_by_rules (rules : list (list str * ClauseType))
    (title : str) : ClauseType :=
  match find (fun rule => existsb (contains (lower title)) (fst rule)) rules with
  | Some rule => snd rule
  | None => OTHER
  end.

Definition pdf_rules : list (list str * ClauseType) :=
  [ ([lit "purchase"; lit "sale"], PURCHASE_AND_SALE);
    ([lit "price"; lit "payment"], PRICE);
    ([lit "closing"], CLOSING);
    ([lit "condition"], CONDITIONS_PRECEDENT);
    ([lit "representation"; lit "warrant"], REPRESENTATIONS_WARRANTIES);
    ([lit "covenant"], COVENANTS);
    ([lit "indemnif"], INDEMNITIES);
    ([lit "governing law"], GOVERNING_LAW);
    ([lit "dispute"; lit "arbitration"], DISPUTE_RESOLUTION);
    ([lit "notice"], NOTICES);
    ([lit "termination"], TERMINATION) ].

Definition xml_rules : list (list str * ClauseType) :=
  [ ([lit "rate"; lit "price"], PRICE);
    ([lit "delivery"; lit "sale"], PURCHASE_AND_SALE);
    ([lit "governing law"], GOVERNING_LAW);
    ([lit "notice"], NOTICES);
    ([lit "term"; lit "termination"], TERMINATION);
    ([lit "assignment"], MISCELLANEOUS);
    ([lit "audit"], COVENANTS);
    ([lit "continuity"; lit "service"], COVENANTS) ].

(** What the loop of the PDF segmenter keeps true: the sections already
    emitted and the open section all have an empty text. *)
Definition texts_empty (st : PDFLegalParser.loop_state) : Prop :=
  Forall (fun s => text s = []) (PDFLegalParser.st_sections st) /\
  forall cur, PDFLegalParser.current_section st = Some cur -> text cur = [].

(** No keyword of a rule list occurs in a text, case ignored. *)
Definition keyword_free (rules : list (list str * ClauseType)) (content : str)
  : Prop :=
  Forall (fun rule =>
            Forall (fun keyword => ~ occurs_ignoring_case keyword content)
                   (fst rule))
         rules.

(** The tag made of a term: character by character, a space gives an
    underscore and any other character its lower-case form. *)
Definition term_tag (term tag : str) : Prop :=
  Forall2 (fun ch tc =>
             tc = if Ascii.eqb ch space then underscore else lower_char ch)
          term tag.

(** A word boundary after a number: the text ends there, or goes on with a
    character that is not a word character. *)
Definition word_boundary (rest : str) : Prop :=
  match rest with
  | [] => True
  | c :: _ => isword c = false
  end.

(** [num] is a dotted number at the head of [line], with a word boundary
    after it. *)
Definition heading_prefix (line num : str) : Prop :=
  exists comps rest,
    dotted_numeric num comps /\ line = num ++ rest /\ word_boundary rest.

(** The heading number of a line: the longest dotted number at its head
    that a word boundary follows, [None] when there is none. *)
Definition line_heading (line : str) (found : option str) : Prop :=
  match found with
  | Some num =>
      heading_prefix line num /\
      forall num', heading_prefix line num' -> length num' <= length num
  | None => forall num, ~ heading_prefix line num
  end.

(** The lines of a text that are not blank, stripped. *)
Definition stripped_lines (section_text : str) : list str :=
  omap (fun l => if blank l then None else Some (strip l))
       (splitlines section_text).

(** The heading number of a text: that of its first non-blank line, or,
    when that line has none, that of the second. *)
Definition text_heading (section_text : str) (found : option str) : Prop :=
  match stripped_lines section_text with
  | [] => found = None
  | l0 :: more =>
      (exists num, found = Some num /\ line_heading l0 (Some num))
      \/
      (line_heading l0 None /\
       match more with
       | l1 :: _ => line_heading l1 found
       | [] => found = None
       end)
  end.

(** The heading anchor that goes with a heading number, or with none. *)
Definition anchor_of (found : option str) (c : ProcessedChunk) : Prop :=
  match found with
  | Some num =>
      exists comps,
        dotted_numeric num comps /\
        heading_number (chunk_metadata c) = Some num /\
        heading_level (chunk_metadata c) = Some (length comps) /\
        parent_heading_number (chunk_metadata c)
        = Some (join [dot] (removelast comps))
  | None =>
      heading_number (chunk_metadata c) = None /\
      heading_level (chunk_metadata c) = None /\
      parent_heading_number (chunk_metadata c) = None
  end.

(** ** Sample inputs *)

Definition sample_metadata : DocumentMetadata :=
  {| document_id := lit "ppa";
     doc_title := lit "Power Purchase Agreement";
     document_type := lit "Purchase Agreement";
     jurisdiction := lit "US";
     governing_law := None;
     industry := lit "Power";
     effective_date := None;
     execution_date := None;
     termination_date := None;
     parties := [];
     source_file := lit "ppa.pdf";
     source_format := lit "PDF";
     processing_date := {| year := 2024; month := 1; day := 1 |} |}.

Definition sample_document : LegalDocument :=
  {| metadata := sample_metadata; sections := []; doc_definitions := [] |}.

Definition sample_section (ident body : str) : SectionT :=
  {| id := ident;
     title := lit "General";
     text := body;
     clause_type := OTHER;
     tags := [];
     definitions := [];
     parent_section := None;
     page_number := None |}.

Definition letter_a : ascii := "a"%char.

(** 1001 letters, 1001 spaces, and a space followed by 1000 letters. *)
Definition sample_long_text : str := repeat letter_a 1001.
Definition sample_blank_text : str := repeat space 1001.
Definition sample_padded_text : str := space :: repeat letter_a 1000.

Definition sample_definition : DefinitionT :=
  {| term := lit "Material Adverse Effect";
     definition := lit "any event that is materially adverse to the Business.";
     def_section_id := Some (lit "1.1") |}.

(** A digest function to run examples with; the properties below hold for
    any function in its place. *)
Definition sample_digest (text : str) : str :=
  lit "5f4dcc3b5aa765d61d8327deb882cf99".

Definition sample_document_with_definition : LegalDocument :=
  {| metadata := sample_metadata;
     sections := [sample_section (lit "3.1") (lit "The Seller shall sell the Assets.")];
     doc_definitions := [sample_definition] |}.

(** The same document, processed on another day. *)
Definition sample_document_processed_later : LegalDocument :=
  {| metadata :=
       {| document_id := document_id sample_metadata;
          doc_title := doc_title sample_metadata;
          document_type := document_type sample_metadata;
          jurisdiction := jurisdiction sample_metadata;
          governing_law := governing_law sample_metadata;
          industry := industry sample_metadata;
          effective_date := effective_date sample_metadata;
          execution_date := execution_date sample_metadata;
          termination_date := termination_date sample_metadata;
          parties := parties sample_metadata;
          source_file := source_file sample_metadata;
          source_format := source_format sample_metadata;
          processing_date := {| year := 2024; month := 6; day := 30 |} |};
     sections := sections sample_document_with_definition;
     doc_definitions := doc_definitions sample_document_with_definition |}.

(** A store with two section objects, and a document object that refers to
    the first only. *)
Definition sample_store : store :=
  <[ 1 := sample_section (lit "9") (lit "Either party may seek arbitration.") ]>
    (<[ 0 := sample_section (lit "3.1") (lit "The true-up is paid at Closing.") ]> ∅).

Definition sample_document_obj : LegalDocumentObj :=
  {| obj_metadata := sample_metadata; obj_sections := [0]; obj_definitions := [] |}.

(** A text of two headed sections, as lines of a PDF and as TEI
    paragraphs. *)
Definition sample_pdf_text : str :=
  lit "1.1 Purchase Price" ++ [PDFLegalParser.newline]
  ++ lit "The price is fixed" ++ [PDFLegalParser.newline]
  ++ lit "1.2 Closing" ++ [PDFLegalParser.newline]
  ++ lit "Closing occurs in May".

Definition sample_paragraphs : list XMLLegalParser.Element :=
  [ {| XMLLegalParser.xml_id := Some (lit "H_1");
       XMLLegalParser.base := None;
       XMLLegalParser.toc_number := Some (lit "1.1");
       XMLLegalParser.text_content := lit "Purchase Price" |};
    {| XMLLegalParser.xml_id := None;
       XMLLegalParser.base := None;
       XMLLegalParser.toc_number := None;
       XMLLegalParser.text_content := lit "The price is fixed" |};
    {| XMLLegalParser.xml_id := Some (lit "H_2");
       XMLLegalParser.base := None;
       XMLLegalParser.toc_number := Some (lit "1.2");
       XMLLegalParser.text_content := lit "Closing" |};
    {| XMLLegalParser.xml_id := None;
       XMLLegalParser.base := None;
       XMLLegalParser.toc_number := None;
       XMLLegalParser.text_content := lit "Closing occurs in May" |} ].

(** A definition whose section identifier is there and empty. *)
Definition sample_definition_empty_section : DefinitionT :=
  {| term := lit "Closing Date";
     definition := lit "the date of the Closing.";
     def_section_id := Some [] |}.

(** A text whose first line begins with a heading number. *)
Definition sample_headed_text : str :=
  lit "11.4 Payment" ++ [PDFLegalParser.newline]
  ++ lit "The Buyer pays in May.".

(** 900 letters, a space and 400 letters: the second window of the split
    starts on the space. *)
Definition sample_spaced_text : str :=
  repeat letter_a 900 ++ space :: repeat letter_a 400.

(** ** Notions and models of the further properties *)

(** The place of a clause chunk in its document: the identifier of its
    section and its index there. *)
Definition chunk_key (c : ProcessedChunk) : str * nat :=
  (section_id (chunk_metadata c), chunk_index (chunk_metadata c)).

(** The identifier [_chunk_section] writes for the chunk at a place. *)
Definition clause_chunk_id (doc_id : str) (key : str * nat) : str :=
  doc_id ++ lit "_" ++ fst key ++ lit "_" ++ str_of_nat (snd key).

Definition sample_document_two_sections : LegalDocument :=
  {| metadata := sample_metadata;
     sections := [sample_section (lit "3.1") sample_long_text;
                  sample_section (lit "3.2") (lit "The Buyer shall pay the Price.")];
     doc_definitions := [sample_definition] |}.

(** What normalization makes of one section: the tags are normalized with
    the text as it was, then the text is rewritten. *)
Definition normalized_section (s : SectionT) : SectionT :=
  set_text (_normalize_terminology (text s))
    (set_tags (_normalize_tags (tags s) (text s)) s).

(** The heading lines of a PDF text: for every line that is not blank once
    stripped and that one of the section patterns matches, the groups of
    the match. *)
Definition heading_lines (full_text : str) : list (str * str) :=
  omap (fun raw_line =>
          PDFLegalParser.first_match PDFLegalParser.section_patterns
            (strip raw_line))
       (split PDFLegalParser.newline full_text).

(** The text [parse_document] of the PDF parser builds from the pages:
    every page followed by a newline. *)
Definition pdf_full_text (page_texts : list str) : str :=
  fold_left (fun full_text page_text =>
               full_text ++ (page_text ++ [PDFLegalParser.newline]))
            page_texts [].

(** The characters of a section identifier of the PDF parser. *)
Definition is_id_char (c : ascii) : bool :=
  isdigit c || isupper c || Ascii.eqb c dot.

(** A section with a page number between 1 and [pages]. *)
Definition has_page (pages : nat) (s : SectionT) : Prop :=
  exists n, page_number s = Some n /\ 1 <= n <= pages.

(** The text a header paragraph brings to its section: its stripped text,
    after its table-of-contents number when it has one. *)
Definition xml_header_text (elem : XMLLegalParser.Element) : str :=
  let header_text := strip (XMLLegalParser.text_content elem) in
  match XMLLegalParser.toc_number elem with
  | Some toc_no =>
      if truthy toc_no then toc_no ++ [space] ++ header_text else header_text
  | None => header_text
  end.

(** What every paragraph brings, in document order: a header its header
    text, another paragraph its stripped text when that is not empty. *)
Fixpoint xml_parts (paras : list XMLLegalParser.Element) : list str :=
  match paras with
  | [] => []
  | elem :: rest =>
      (if XMLLegalParser.is_header elem then [xml_header_text elem]
       else let para_text := strip (XMLLegalParser.text_content elem) in
            if truthy para_text then [para_text] else [])
      ++ xml_parts rest
  end.

(** The paragraphs from the first header on. *)
Fixpoint from_first_header (paras : list XMLLegalParser.Element)
  : list XMLLegalParser.Element :=
  match paras with
  | [] => []
  | elem :: rest =>
      if XMLLegalParser.is_header elem then paras else from_first_header rest
  end.

(** ** Corpus statistics ([ingestion.py]) *)

(** The [value] of a member of [ClauseType]. *)
Definition ClauseType_value (c : ClauseType) : str :=
  match c with
  | PARTIES => lit "Parties"
  | DEFINITIONS => lit "Definitions"
  | PURCHASE_AND_SALE => lit "Purchase and Sale"
  | PRICE => lit "Price"
  | ADJUSTMENTS => lit "Adjustments"
  | CLOSING => lit "Closing"
  | CONDITIONS_PRECEDENT => lit "Conditions Precedent"
  | REPRESENTATIONS_WARRANTIES => lit "Representations and Warranties"
  | COVENANTS => lit "Covenants"
  | INDEMNITIES => lit "Indemnities"
  | LIMITATIONS => lit "Limitations"
  | GOVERNING_LAW => lit "Governing Law"
  | DISPUTE_RESOLUTION => lit "Dispute Resolution"
  | NOTICES => lit "Notices"
  | TERMINATION => lit "Termination"
  | FORCE_MAJEURE => lit "Force Majeure"
  | MISCELLANEOUS => lit "Miscellaneous"
  | OTHER => lit "Other"
  end.

(** The dictionary returned by [get_corpus_stats]. *)
Record CorpusStats := {
  total_documents : nat;
  total_sections : nat;
  total_definitions : nat;
  industries : gmap str nat;
  jurisdictions : gmap str nat;
  clause_types : gmap str nat;
  document_types : gmap str nat
}.

(** [counts[key] = counts.get(key, 0) + 1] *)
Definition count_one (counts : gmap str nat) (key : str) : gmap str nat :=
  <[ key := default 0 (counts !! key) + 1 ]> counts.

(** The body of the loop of [get_corpus_stats] over the documents. *)
Definition count_document (stats : CorpusStats) (doc : LegalDocument)
  : CorpusStats :=
  {| total_documents := total_documents stats;
     total_sections := total_sections stats;
     total_definitions := total_definitions stats;
     industries := count_one (industries stats) (industry (metadata doc));
     jurisdictions :=
       count_one (jurisdictions stats) (jurisdiction (metadata doc));
     clause_types :=
       fold_left (fun counts section =>
                    count_one counts (ClauseType_value (clause_type section)))
                 (sections doc) (clause_types stats);
     document_types :=
       count_one (document_types stats) (document_type (metadata doc)) |}.

(** [get_corpus_stats] *)
Definition get_corpus_stats (documents : list LegalDocument) : CorpusStats :=
  let stats :=
    {| total_documents := length documents;
       total_sections :=
         list_sum (map (fun doc => length (sections doc)) documents);
       total_definitions :=
         list_sum (map (fun doc => length (doc_definitions doc)) documents);
       industries := ∅;
       jurisdictions := ∅;
       clause_types := ∅;
       document_types := ∅ |} in
  fold_left count_document documents stats.

(** The sum of the counts of a histogram, and the number of times a key
    occurs in a list of keys. *)
Definition total_count (counts : gmap str nat) : nat :=
  map_fold (fun _ n total => n + total) 0 counts.

Definition occurrences (key : str) (keys : list str) : nat :=
  length (List.filter (fun k => bool_decide (k = key)) keys).

(** The clause types of all sections of the documents, in order. *)
Definition corpus_clause_types (documents : list LegalDocument) : list str :=
  concat (map (fun doc =>
                 map (fun section => ClauseType_value (clause_type section))
                     (sections doc))
              documents).

(** A histogram built by [count_one] from the empty one holds, for each
    key, how often it was counted, and no entry when that is zero. *)
Definition counts_of (keys : list str) (counts : gmap str nat) : Prop :=
  forall key,
    counts !! key
    = if occurrences key keys is 0 then None else Some (occurrences key keys).

(** What the loop of [get_corpus_stats] has counted after the documents
    [done]. *)
Definition counted (done : list LegalDocument) (stats : CorpusStats) : Prop :=
  counts_of (map (fun doc => industry (metadata doc)) done) (industries stats)
  /\ counts_of (map (fun doc => jurisdiction (metadata doc)) done)
               (jurisdictions stats)
  /\ counts_of (map (fun doc => document_type (metadata doc)) done)
               (document_types stats)
  /\ counts_of (corpus_clause_types done) (clause_types stats)
  /\ total_count (industries stats) = length done
  /\ total_count (jurisdictions stats) = length done
  /\ total_count (document_types stats) = length done
  /\ total_count (clause_types stats)
     = list_sum (map (fun doc => length (sections doc)) done).

(** ** Document identifiers ([_extract_metadata] of both parsers) *)

Definition slash : ascii := "/"%char.

(** [source_file.split('/')[-1].replace(suffix, '')] *)
Definition document_id_of (suffix source_file : str) : str :=
  str_replace suffix [] (List.last (split slash source_file) []).

(** The [document_id] that [PDFLegalParser._extract_metadata] and
    [XMLLegalParser._extract_metadata] give a document. *)
Definition pdf_document_id (source_file : str) : str :=
  document_id_of (lit ".pdf") source_file.

Definition xml_document_id (source_file : str) : str :=
  document_id_of (lit ".xml") source_file.

(** ** Dates ([pdf_parser.py]) *)

(** [datetime.MINYEAR], [datetime.MAXYEAR] *)
Definition MINYEAR : nat := 1.
Definition MAXYEAR : nat := Eval cbv in 9 * 1111.

Definition is_leap (y : nat) : bool :=
  (y mod 4 =? 0) && (negb (y mod 100 =? 0) || (y mod 400 =? 0)).

Definition days_in_month (y m : nat) : nat :=
  match m with
  | 2 => if is_leap y then 29 else 28
  | 4 | 6 | 9 | 11 => 30
  | _ => 31
  end.

(** [datetime(year, month, day)]: the date, or [None] where the
    constructor raises [ValueError]. *)
Definition mk_datetime (y m d : nat) : option datetime :=
  if (MINYEAR <=? y) && (y <=? MAXYEAR) && (1 <=? m) && (m <=? 12)
     && (1 <=? d) && (d <=? days_in_month y m)
  then Some {| year := y; month := m; day := d |}
  else None.

(** [int(s)] for a text of decimal digits *)
Definition int (digits : str) : nat :=
  fold_left (fun n c => 10 * n + (code c - 48)) digits 0.

Definition comma : ascii := ","%char.
Definition is_comma (c : ascii) : bool := Ascii.eqb c comma.

(** The class [[A-Za-z]]. *)
Definition is_letter (c : ascii) : bool := isupper c || islower c.

(** The dictionary [months] of [_parse_date_string]. *)
Definition months : list (str * nat) :=
  [ (lit "january", 1); (lit "february", 2); (lit "march", 3);
    (lit "april", 4); (lit "may", 5); (lit "june", 6); (lit "july", 7);
    (lit "august", 8); (lit "september", 9); (lit "october", 10);
    (lit "november", 11); (lit "december", 12) ].

(** [d.get(key)] for a dictionary given by its items *)
Fixpoint dict_get {V} (d : list (str * V)) (key : str) : option V :=
  match d with
  | [] => None
  | (k, v) :: rest => if bool_decide (k = key) then Some v else dict_get rest key
  end.

Module PDFDates.

(** [re.match(r'([A-Za-z]+)\s+(\d{1,2}),\s+(\d{4})', s)]: the three
    groups.  Each repetition is followed by a character outside its class,
    so the longest run is the only one that can match. *)
Definition match_date (s : str) : option (str * str * str) :=
  '(month_name, rest) ← many1 is_letter s;
  '(_, rest) ← many1 isspace rest;
  '(d1, rest) ← one isdigit rest;
  let '(day_digits, rest) :=
    match one isdigit rest with
    | Some (d2, rest') => ([d1; d2], rest')
    | None => ([d1], rest)
    end in
  '(_, rest) ← one is_comma rest;
  '(_, rest) ← many1 isspace rest;
  '(y1, rest) ← one isdigit rest;
  '(y2, rest) ← one isdigit rest;
  '(y3, rest) ← one isdigit rest;
  '(y4, rest) ← one isdigit rest;
  Some (month_name, day_digits, [y1; y2; y3; y4]).

(** [_parse_date_string] *)
Definition _parse_date_string (date_str : str) : option datetime :=
  match match_date (strip date_str) with
  | Some (month_name, day_digits, year_digits) =>
      match dict_get months (lower month_name) with
      | Some (S _ as month_no) =>
          mk_datetime (int year_digits) month_no (int day_digits)
      | _ => None
      end
  | None => None
  end.

End PDFDates.

(** ** Defined terms of a chunk ([indexing.py]) *)

(** [list(dict.fromkeys(items))]: the items without repetition, each at
    its first place; [seen] holds the keys already in the dictionary. *)
Fixpoint fromkeys_from (seen items : list str) : list str :=
  match items with
  | [] => []
  | item :: rest =>
      if bool_decide (item ∈ seen) then fromkeys_from seen rest
      else item :: fromkeys_from (item :: seen) rest
  end.

Definition fromkeys (items : list str) : list str := fromkeys_from [] items.

Module PgIndexer.

(** The pattern for quoted terms at the head of [s]: a double quote, the
    group [[A-Z][^Q]{1,60}] where [Q] is the double quote, and a double
    quote.  A run of more than 60 characters other than quotes cannot be
    followed by a quote, nor can a part of it. *)
Definition match_quoted_term (s : str) : option str :=
  '(_, r) ← one (Ascii.eqb quote) s;
  '(u, r) ← one isupper r;
  let (body, r) := span not_quote r in
  if (1 <=? length body) && (length body <=? 60) then
    '(_, _) ← one (Ascii.eqb quote) r;
    Some (u :: body)
  else None.

Definition findall_quoted_terms (s : str) : list str :=
  findall_from (fun _ => match_quoted_term) (fun g => length g + 2) None s 0.

(** [_extract_defined_terms] *)
Definition _extract_defined_terms (content : str) : list str :=
  let terms := findall_quoted_terms content ++ findall_caps content in
  firstn 50
    (fromkeys (map strip (List.filter (fun t => truthy (strip t)) terms))).

End PgIndexer.

(** * Properties *)

(** ** Strings *)

Lemma lstrip_blank (s : str) : forallb isspace s = true -> lstrip s = [].
Proof.
  induction s as [|c r IH]; simpl; [reflexivity|].
  intros H. apply andb_prop in H as [Hc Hr]. rewrite Hc. auto.
Qed.

Lemma strip_blank (s : str) : forallb isspace s = true -> strip s = [].
Proof.
  intros H. unfold strip, rstrip. rewrite (lstrip_blank s H). reflexivity.
Qed.

Lemma lstrip_head (s : str) c r : lstrip s = c :: r -> isspace c = false.
Proof.
  induction s as [|x s IH]; simpl; [discriminate|].
  destruct (isspace x) eqn:Hx; [exact IH|].
  intros E. injection E as <- _. exact Hx.
Qed.

Lemma lstrip_keeps (s : str) c : In c s -> isspace c = false -> In c (lstrip s).
Proof.
  induction s as [|x s IH]; simpl; [tauto|].
  intros [->|Hin] Hc.
  - rewrite Hc. left. reflexivity.
  - destruct (isspace x); [auto|]. right. exact Hin.
Qed.

Lemma strip_keeps (s : str) c : In c s -> isspace c = false -> In c (strip s).
Proof.
  intros Hin Hc. unfold strip, rstrip.
  apply in_rev. rewrite rev_involutive.
  apply lstrip_keeps; [|exact Hc].
  apply in_rev. rewrite rev_involutive.
  apply lstrip_keeps; assumption.
Qed.

(** A stripped text that is not empty is not blank. *)
Lemma strip_not_blank (s : str) :
  truthy (strip s) = true -> forallb isspace (strip s) = false.
Proof.
  unfold strip, rstrip.
  destruct (lstrip (rev (lstrip s))) as [|c r] eqn:E; [discriminate|].
  intros _. apply lstrip_head in E.
  simpl. rewrite forallb_app. simpl. rewrite E.
  rewrite andb_false_r. reflexivity.
Qed.


Lemma slice_forallb (p : ascii -> bool) (s : str) a b :
  forallb p s = true -> forallb p (slice s a b) = true.
Proof.
  intros H. rewrite forallb_forall in *. intros x Hx. apply H.
  unfold slice in Hx.
  rewrite <- (firstn_skipn a s). apply in_or_app. right.
  rewrite <- (firstn_skipn (b - a) (skipn a s)). apply in_or_app. left.
  exact Hx.
Qed.

(** ** [rfind] *)

Lemma rfind_from_spec c (s : str) i lo hi last p :
  rfind_from c s i lo hi last = Some p ->
  last = Some p \/ (lo <= p /\ p < hi /\ i <= p).
Proof.
  revert i last. induction s as [|x r IH]; simpl; intros i last H.
  - left. exact H.
  - apply IH in H. destruct H as [H|H]; [|lia].
    destruct (lo <=? i) eqn:E1; destruct (i <? hi) eqn:E2;
      destruct (Ascii.eqb x c); simpl in H; auto.
    injection H as <-.
    apply Nat.leb_le in E1. apply Nat.ltb_lt in E2. right. lia.
Qed.

Lemma rfind_bounds (s : str) c lo hi p :
  rfind s c lo hi = Some p -> lo <= p /\ p < hi.
Proof.
  unfold rfind. intros H. apply rfind_from_spec in H.
  destruct H as [H|H]; [discriminate|lia].
Qed.

(** ** The sliding window *)

Lemma window_end_bounds (text : str) start :
  start + 901 <= window_end text start <= start + max_chunk_size.
Proof.
  unfold window_end, max_chunk_size.
  destruct (start + 1000 <? length text); [|lia].
  destruct (rfind text dot (start + 1000 - 100) (start + 1000)) as [p|] eqn:E;
    [|lia].
  apply rfind_bounds in E.
  destruct (Nat.ltb_spec start p); lia.
Qed.


(** The loop ends within the fuel [_split_text_with_overlap] gives it, and
    its windows form a chain. *)
Lemma windows_loop_chain (text : str) fuel start :
  start < length text -> length text - start <= fuel ->
  exists ws, windows_loop fuel text start = Some ws /\ window_chain text start ws.
Proof.
  revert start. induction fuel as [|fuel IH]; intros start Hlt Hfuel; [lia|].
  simpl. destruct (Nat.ltb_spec start (length text)); [|lia].
  pose proof (window_end_bounds text start) as Hb.
  destruct (Nat.leb_spec (length text) (window_end text start - chunk_overlap)).
  - eexists. split; [reflexivity|]. apply chain_last; assumption.
  - destruct (IH (window_end text start - chunk_overlap)) as (ws & Hws & Hch).
    + assumption.
    + unfold chunk_overlap in *. lia.
    + rewrite Hws. eexists. split; [reflexivity|].
      apply chain_next; assumption.
Qed.

Lemma window_chunks_cons (text : str) w ws :
  window_chunks text (w :: ws) =
  (if truthy (strip (slice text (fst w) (snd w)))
   then [strip (slice text (fst w) (snd w))] else [])
  ++ window_chunks text ws.
Proof.
  unfold window_chunks. simpl.
  destruct (truthy (strip (slice text (fst w) (snd w)))); reflexivity.
Qed.

(** The chunks of the loop are the chunks of its windows. *)
Lemma split_loop_windows (text : str) fuel start chunks :
  split_loop fuel text start chunks =
  match windows_loop fuel text start with
  | Some ws => Some (chunks ++ window_chunks text ws)
  | None => None
  end.
Proof.
  revert start chunks. induction fuel as [|fuel IH]; intros start chunks;
    [reflexivity|].
  simpl. destruct (start <? length text).
  - destruct (length text <=? window_end text start - chunk_overlap).
    + rewrite window_chunks_cons. simpl.
      destruct (truthy (strip (slice text start (window_end text start))));
        simpl; [reflexivity|].
      rewrite !app_nil_r. reflexivity.
    + rewrite IH.
      destruct (windows_loop fuel text (window_end text start - chunk_overlap));
        [|reflexivity].
      rewrite window_chunks_cons. simpl.
      destruct (truthy (strip (slice text start (window_end text start))));
        simpl; [|reflexivity].
      rewrite <- app_assoc. reflexivity.
  - unfold window_chunks. simpl. rewrite app_nil_r. reflexivity.
Qed.

(** [_split_text_with_overlap] always returns, with the chunks of a chain
    of windows that starts at offset 0. *)
Lemma split_text_total (text : str) :
  exists ws,
    split_windows text = Some ws /\
    _split_text_with_overlap text = Some (window_chunks text ws) /\
    (0 < length text -> window_chain text 0 ws) /\
    (length text = 0 -> ws = []).
Proof.
  unfold split_windows, _split_text_with_overlap.
  rewrite split_loop_windows.
  destruct (Nat.eq_dec (length text) 0) as [E|E].
  - exists []. simpl. rewrite E. simpl. repeat split; auto. lia.
  - destruct (windows_loop_chain text (S (length text)) 0) as (ws & Hws & Hch);
      [lia|lia|].
    exists ws. rewrite Hws. repeat split; auto. lia.
Qed.

Lemma window_chain_head (text : str) start ws :
  window_chain text start ws ->
  exists rest, ws = (start, window_end text start) :: rest.
Proof. intros H. destruct H; eexists; reflexivity. Qed.

(** Consecutive windows: the next one starts [chunk_overlap] characters
    before the end of the one before, and after its start. *)
Lemma window_chain_consecutive (text : str) start ws :
  window_chain text start ws ->
  forall i w1 w2, ws !! i = Some w1 -> ws !! S i = Some w2 ->
    fst w1 < fst w2 /\ fst w2 = snd w1 - chunk_overlap /\ fst w2 < snd w1.
Proof.
  induction 1 as [start H1 H2|start ws H1 H2 Hch IH]; intros i w1 w2 E1 E2.
  - destruct i; discriminate.
  - destruct i as [|i].
    + simpl in E1, E2. injection E1 as <-.
      apply window_chain_head in Hch as [rest ->].
      simpl in E2. injection E2 as <-. simpl.
      pose proof (window_end_bounds text start).
      unfold chunk_overlap in *. lia.
    + simpl in E1, E2. eapply IH; eassumption.
Qed.

(** The last window reaches the end of the text. *)
Lemma window_chain_last (text : str) start ws :
  window_chain text start ws ->
  exists w, last ws = Some w /\ length text <= snd w.
Proof.
  induction 1 as [start H1 H2|start ws H1 H2 Hch IH].
  - eexists. split; [reflexivity|]. simpl. lia.
  - destruct IH as (w & Hw & Hlen). exists w. split; [|exact Hlen].
    apply window_chain_head in Hch as Hh. destruct Hh as [rest ->].
    exact Hw.
Qed.

(** Every offset of the text from [start] on lies in a window. *)
Lemma window_chain_covers (text : str) start ws :
  window_chain text start ws ->
  forall p, start <= p -> p < length text ->
    exists w, In w ws /\ fst w <= p /\ p < snd w.
Proof.
  induction 1 as [start H1 H2|start ws H1 H2 Hch IH]; intros p Hp Hlen.
  - eexists. split; [left; reflexivity|]. simpl. lia.
  - destruct (Nat.lt_ge_cases p (window_end text start)) as [Hlt|Hge].
    + eexists. split; [left; reflexivity|]. simpl. lia.
    + destruct (IH p) as (w & Hin & Hw); [unfold chunk_overlap; lia|lia|].
      exists w. split; [right; exact Hin|exact Hw].
Qed.

(** ** Chunking a section *)


Lemma chunk_section_short (document : LegalDocument) (section : SectionT) :
  length (text section) <= max_chunk_size ->
  _chunk_section document section =
  Some [clause_chunk document section (heading_anchor section) 0 (text section)].
Proof.
  intros H. unfold _chunk_section.
  destruct (Nat.leb_spec (length (text section)) max_chunk_size); [reflexivity|lia].
Qed.

Lemma chunk_section_long (document : LegalDocument) (section : SectionT) :
  max_chunk_size < length (text section) ->
  exists ws,
    window_chain (text section) 0 ws /\
    _split_text_with_overlap (text section)
      = Some (window_chunks (text section) ws) /\
    _chunk_section document section =
    Some (map (fun ic => clause_chunk document section (heading_anchor section)
                           (fst ic) (snd ic))
              (enumerate (window_chunks (text section) ws))).
Proof.
  intros H. unfold _chunk_section.
  destruct (Nat.leb_spec (length (text section)) max_chunk_size); [lia|].
  destruct (split_text_total (text section)) as (ws & _ & Hsplit & Hch & _).
  exists ws. rewrite Hsplit. repeat split; auto.
  apply Hch. unfold max_chunk_size in *. lia.
Qed.


Lemma window_chunks_length (text : str) ws :
  length (window_chunks text ws) <= length ws.
Proof.
  unfold window_chunks.
  etransitivity; [apply filter_length_le|]. rewrite length_map. lia.
Qed.


(** The chunks of a split are never blank. *)
Lemma window_chunks_not_blank (text : str) ws :
  Forall (fun c => blank c = false) (window_chunks text ws).
Proof.
  unfold window_chunks. apply List.Forall_forall. intros c Hc.
  apply filter_In in Hc as [Hin Htr].
  apply in_map_iff in Hin as (w & <- & _).
  apply strip_not_blank. exact Htr.
Qed.

(** A blank text gives no chunk in the split. *)
Lemma window_chunks_blank (text : str) ws :
  blank text = true -> window_chunks text ws = [].
Proof.
  intros Hb. unfold window_chunks.
  induction ws as [|w ws IH]; simpl; [reflexivity|].
  rewrite (strip_blank (slice text (fst w) (snd w))); [exact IH|].
  apply slice_forallb. exact Hb.
Qed.




(** C8 (amended).  Chunking a section always returns.  A section whose text
    is empty or all white space gives exactly one chunk, holding that text
    unchanged, when the text has at most 1000 characters, and no chunk when
    it is longer.  The chunks that come out of the sliding window (texts
    longer than 1000 characters) are never blank. *)
Theorem chunk_section_degenerate (document : LegalDocument) (section : SectionT) :
  (exists chunks, _chunk_section document section = Some chunks)
  /\
  (blank (text section) = true ->
   exists chunks,
     _chunk_section document section = Some chunks /\
     length chunks <= 1 /\
     (length (text section) <= 1000 ->
      exists c, chunks = [c] /\ content c = text section) /\
     (1000 < length (text section) -> chunks = []))
  /\
  (1000 < length (text section) ->
   forall chunks, _chunk_section document section = Some chunks ->
     Forall (fun c => blank (content c) = false) chunks).
Proof.
  destruct (Nat.le_gt_cases (length (text section)) 1000) as [Hle|Hgt].
  - pose proof (chunk_section_short document section Hle) as Hs.
    split; [eauto|]. split.
    + intros _. eexists. split; [exact Hs|]. simpl.
      split; [lia|]. split; [eauto|lia].
    + lia.
  - destruct (chunk_section_long document section Hgt) as (ws & _ & _ & Hcs).
    split; [eauto|]. split.
    + intros Hb. eexists. split; [exact Hcs|].
      rewrite (window_chunks_blank _ ws Hb). simpl.
      split; [lia|]. split; [lia|reflexivity].
    + intros _ chunks Hc. rewrite Hcs in Hc. injection Hc as <-.
      apply List.Forall_forall. intros c Hin.
      apply in_map_iff in Hin as ([i t] & <- & Hin). simpl.
      unfold enumerate in Hin. apply in_combine_r in Hin.
      pose proof (window_chunks_not_blank (text section) ws) as Hnb.
      rewrite List.Forall_forall in Hnb. apply Hnb. exact Hin.
Qed.

Lemma chunk_section_degenerate_witness :
  (exists chunks,
     _chunk_section sample_document (sample_section (lit "7") sample_blank_text)
       = Some chunks /\ chunks = [])
  /\
  (forall chunks,
     _chunk_section sample_document (sample_section (lit "7") sample_long_text)
       = Some chunks ->
     Forall (fun c => blank (content c) = false) chunks).
Proof.
  pose proof (chunk_section_degenerate sample_document
                (sample_section (lit "7") sample_blank_text)) as (_ & Hb & _).
  pose proof (chunk_section_degenerate sample_document
                (sample_section (lit "7") sample_long_text)) as (_ & _ & Hl).
  split.
  - destruct Hb as (chunks & Hcs & _ & _ & Hnone); [vm_compute; reflexivity|].
    exists chunks. split; [exact Hcs|]. apply Hnone.
    apply Nat.ltb_lt. vm_compute. reflexivity.
  - apply Hl. apply Nat.ltb_lt. vm_compute. reflexivity.
Defined.

(** A section with an empty text gives one chunk, and its content is
    blank. *)
Lemma chunk_section_empty_counterexample :
  exists c,
    _chunk_section sample_document (sample_section (lit "7") []) = Some [c] /\
    blank (content c) = true.
Proof. eexists. split; vm_compute; reflexivity. Qed.

(** What the pieces of a reassembly are made of comes from the chunks. *)
Lemma reassembles_chars (chunks : list str) (text : str) c :
  reassembles chunks text -> In c text ->
  exists chunk, In chunk chunks /\ In c chunk.
Proof.
  intros (pieces & HF & <-). induction HF as [|chunk piece chunks pieces Hp HF IH].
  - simpl. tauto.
  - simpl. intros Hin. apply in_app_or in Hin as [Hin|Hin].
    + destruct Hp as [overlap ->]. exists (overlap ++ piece).
      split; [left; reflexivity|]. apply in_or_app. right. exact Hin.
    + destruct (IH Hin) as (chunk' & H1 & H2).
      exists chunk'. split; [right; exact H1|exact H2].
Qed.

Lemma slice_split (s : str) a c b :
  a <= c -> c <= b -> slice s a b = slice s a c ++ slice s c b.
Proof.
  intros Hac Hcb. unfold slice.
  replace (skipn c s) with (skipn (c - a) (skipn a s))
    by (rewrite drop_drop; f_equal; lia).
  rewrite take_take_drop. f_equal. lia.
Qed.

Lemma slice_rest (s : str) c e :
  c <= e -> slice s c e ++ skipn e s = skipn c s.
Proof.
  intros Hce. unfold slice.
  replace (skipn e s) with (skipn (e - c) (skipn c s))
    by (rewrite drop_drop; f_equal; lia).
  apply take_drop.
Qed.

(** ** Heading anchors *)

Lemma isdigit_not_space c : isdigit c = true -> isspace c = false.
Proof. destruct c as [[] [] [] [] [] [] [] []]; vm_compute; auto. Qed.

Lemma isdigit_not_dot c : isdigit c = true -> Ascii.eqb c dot = false.
Proof. destruct c as [[] [] [] [] [] [] [] []]; vm_compute; auto. Qed.

Lemma strip_no_space (s : str) :
  Forall (fun c => isspace c = false) s -> strip s = s.
Proof.
  intros H. unfold strip, rstrip.
  assert (Hl : forall t : str, Forall (fun c => isspace c = false) t -> lstrip t = t).
  { intros [|c t] Ht; [reflexivity|]. simpl.
    apply Forall_inv in Ht. rewrite Ht. reflexivity. }
  rewrite (Hl s H), Hl, rev_involutive; [reflexivity|].
  apply Forall_rev. exact H.
Qed.

Lemma split_length_pos sep (s : str) : 1 <= length (split sep s).
Proof.
  induction s as [|c r IH]; simpl; [lia|].
  destruct (Ascii.eqb c sep); simpl; [lia|].
  destruct (split sep r); simpl in *; lia.
Qed.

Lemma has_dot_split (m : str) : has_dot m = true -> 2 <= length (split dot m).
Proof.
  unfold has_dot. induction m as [|c r IH]; [discriminate|].
  pose proof (split_length_pos dot r) as Hpos.
  cbn [existsb split]. rewrite (Ascii.eqb_sym dot c).
  destruct (Ascii.eqb c dot); cbn [orb].
  - intros _. cbn [length]. lia.
  - intros H. specialize (IH H).
    destruct (split dot r); cbn [length] in *; lia.
Qed.

Lemma split_component (c s : str) :
  Forall (fun ch => Ascii.eqb ch dot = false) c ->
  split dot (c ++ dot :: s) = c :: split dot s.
Proof.
  induction 1 as [|x c Hx Hc IH]; cbn [app split].
  - rewrite Ascii.eqb_refl. reflexivity.
  - rewrite Hx, IH. reflexivity.
Qed.

Lemma split_single (c : str) :
  Forall (fun ch => Ascii.eqb ch dot = false) c -> split dot c = [c].
Proof.
  induction 1 as [|x c Hx Hc IH]; cbn [split]; [reflexivity|].
  rewrite Hx, IH. reflexivity.
Qed.

Lemma numeral_no_dot (c : str) :
  numeral c -> Forall (fun ch => Ascii.eqb ch dot = false) c.
Proof.
  intros [_ H]. eapply List.Forall_impl; [|exact H].
  intros ch. apply isdigit_not_dot.
Qed.

(** Splitting a joined list of numerals gives the numerals back. *)
Lemma split_join (comps : list str) :
  comps <> [] -> Forall numeral comps -> split dot (join [dot] comps) = comps.
Proof.
  induction comps as [|c rest IH]; [congruence|]. intros _ H.
  apply Forall_cons_1 in H as [Hc Hrest].
  destruct rest as [|c2 rest].
  - simpl. apply split_single, numeral_no_dot, Hc.
  - change (join [dot] (c :: c2 :: rest)) with (c ++ dot :: join [dot] (c2 :: rest)).
    rewrite split_component by (apply numeral_no_dot, Hc).
    rewrite IH; [reflexivity|discriminate|exact Hrest].
Qed.

Lemma re_number_tail_digits (d s : str) :
  Forall (fun ch => isdigit ch = true) d ->
  re_number_tail (d ++ s) =
  (d ++ fst (re_number_tail s), snd (re_number_tail s)).
Proof.
  induction 1 as [|x d Hx Hd IH]; cbn [app re_number_tail fst snd].
  - destruct (re_number_tail s); reflexivity.
  - rewrite Hx, IH. reflexivity.
Qed.

Lemma join_head (c : str) (rest : list str) :
  exists tail, join [dot] (c :: rest) = c ++ tail.
Proof.
  destruct rest as [|c2 rest].
  - exists []. simpl. rewrite app_nil_r. reflexivity.
  - eexists. reflexivity.
Qed.

(** The greedy match takes the whole of a dotted identifier. *)
Lemma re_number_tail_join (comps : list str) :
  Forall numeral comps ->
  re_number_tail (join [dot] comps) = (join [dot] comps, []).
Proof.
  induction comps as [|c rest IH]; [reflexivity|]. intros H.
  apply Forall_cons_1 in H as [[Hne Hc] Hrest].
  destruct rest as [|c2 rest].
  - simpl. rewrite <- (app_nil_r c) at 1.
    rewrite re_number_tail_digits by exact Hc. simpl.
    rewrite app_nil_r. reflexivity.
  - change (join [dot] (c :: c2 :: rest)) with (c ++ dot :: join [dot] (c2 :: rest)).
    rewrite re_number_tail_digits by exact Hc.
    specialize (IH Hrest).
    apply Forall_cons_1 in Hrest as [[Hne2 Hc2] _].
    destruct (join_head c2 rest) as [tail Htail].
    destruct c2 as [|d c2]; [congruence|].
    apply Forall_inv in Hc2.
    assert (E : re_number_tail (dot :: join [dot] ((d :: c2) :: rest))
                = (dot :: join [dot] ((d :: c2) :: rest), [])).
    { cbn [re_number_tail]. change (isdigit dot) with false. cbv iota.
      revert IH Htail. generalize (join [dot] ((d :: c2) :: rest)).
      intros J IH Htail. rewrite IH, Ascii.eqb_refl.
      destruct J as [|d0 J']; [discriminate Htail|].
      injection Htail as -> _. rewrite Hc2. reflexivity. }
    rewrite E. reflexivity.
Qed.

Lemma join_no_space (comps : list str) :
  Forall numeral comps ->
  Forall (fun ch => isspace ch = false) (join [dot] comps).
Proof.
  induction comps as [|c rest IH]; [constructor|]. intros H.
  apply Forall_cons_1 in H as [[_ Hc] Hrest].
  assert (Hcs : Forall (fun ch => isspace ch = false) c).
  { eapply List.Forall_impl; [|exact Hc]. intros ch. apply isdigit_not_space. }
  destruct rest as [|c2 rest]; [exact Hcs|].
  change (join [dot] (c :: c2 :: rest)) with (c ++ dot :: join [dot] (c2 :: rest)).
  apply Forall_app. split; [exact Hcs|].
  constructor; [reflexivity|]. apply IH. exact Hrest.
Qed.

(** The anchor of a section with a dotted identifier. *)
Lemma heading_anchor_dotted (section : SectionT) (comps : list str) :
  dotted_numeric (id section) comps ->
  heading_anchor section =
  (Some (id section), Some (length comps), Some (join [dot] (removelast comps))).
Proof.
  intros (Hid & Hlen & Hnum). unfold heading_anchor.
  rewrite Hid, (strip_no_space _ (join_no_space comps Hnum)).
  assert (Hmatch : re_dotted_id (join [dot] comps) = true).
  { unfold re_dotted_id. rewrite (re_number_tail_join comps Hnum).
    destruct comps as [|c [|c2 rest]]; simpl in Hlen; try lia.
    apply Forall_cons_1 in Hnum as [[Hne Hc] _].
    destruct c as [|d c]; [congruence|]. apply Forall_inv in Hc.
    change (join [dot] ((d :: c) :: c2 :: rest))
      with (d :: c ++ dot :: join [dot] (c2 :: rest)).
    cbn [starts_with_digit]. rewrite Hc. cbn [andb at_dollar].
    rewrite andb_true_r. unfold has_dot. cbn [existsb].
    rewrite existsb_app. cbn [existsb]. rewrite Ascii.eqb_refl.
    rewrite orb_true_r. cbn [orb]. rewrite !orb_true_r. reflexivity. }
  rewrite Hmatch, split_join; [|destruct comps; [simpl in Hlen; lia|discriminate]|exact Hnum].
  destruct (Nat.ltb_spec 1 (length comps)); [reflexivity|lia].
Qed.

(** Every chunk of a section carries the section's anchor. *)
Lemma chunk_section_anchor (document : LegalDocument) (section : SectionT) chunks :
  _chunk_section document section = Some chunks ->
  Forall (fun c =>
            (heading_number (chunk_metadata c),
             heading_level (chunk_metadata c),
             parent_heading_number (chunk_metadata c))
            = heading_anchor section) chunks.
Proof.
  unfold _chunk_section.
  destruct (length (text section) <=? max_chunk_size).
  - intros H. injection H as <-. constructor; [|constructor].
    simpl. destruct (heading_anchor section) as [[? ?] ?]. reflexivity.
  - destruct (_split_text_with_overlap (text section)); [|discriminate].
    intros H. injection H as <-. apply List.Forall_forall. intros c Hin.
    apply in_map_iff in Hin as (ic & <- & _). simpl.
    destruct (heading_anchor section) as [[? ?] ?]. reflexivity.
Qed.

Lemma re_heading_number_has_dot (s m : str) :
  re_heading_number s = Some m -> has_dot m = true.
Proof.
  unfold re_heading_number.
  destruct (starts_with_digit s); [|discriminate].
  destruct (re_number_tail s) as [g rest].
  destruct (has_dot g) eqn:Hg; [|discriminate].
  destruct (at_boundary rest).
  - intros H. injection H as <-. exact Hg.
  - destruct (has_dot (drop_last_component g)) eqn:Hd; [|discriminate].
    intros H. injection H as <-. exact Hd.
Qed.

(** A heading found in the text has at least two components. *)
Lemma extract_heading_meta_level (t num : str) level parent :
  _extract_heading_meta t = Some (num, level, parent) -> 2 <= level.
Proof.
  unfold _extract_heading_meta.
  destruct (map strip _) as [|l0 more]; [discriminate|].
  set (m := match re_heading_number l0 with
            | Some g => Some g
            | None => match more with
                      | l1 :: _ => re_heading_number l1
                      | [] => None
                      end
            end).
  assert (Hm : forall g, m = Some g -> has_dot g = true).
  { intros g. unfold m.
    destruct (re_heading_number l0) eqn:E0.
    - intros H. injection H as <-. eapply re_heading_number_has_dot, E0.
    - destruct more as [|l1 more']; [discriminate|].
      apply re_heading_number_has_dot. }
  destruct m as [g|]; [|discriminate].
  intros H. injection H as _ <- _.
  apply has_dot_split, Hm. reflexivity.
Qed.

(** ** Chunking a document *)

(** The tag of a definition chunk, character by character. *)
Lemma lower_char_space (ch : ascii) :
  (if Ascii.eqb (lower_char ch) space then underscore else lower_char ch)
  = if Ascii.eqb ch space then underscore else lower_char ch.
Proof. destruct ch as [[] [] [] [] [] [] [] []]; vm_compute; reflexivity. Qed.

Lemma term_tag_replace (term : str) :
  term_tag term (replace_char space underscore (lower term)).
Proof.
  unfold term_tag, replace_char, lower.
  induction term as [|ch term IH]; cbn [map]; constructor; [|exact IH].
  apply lower_char_space.
Qed.

(** The relation [term_tag] leaves one tag for a term. *)
Lemma term_tag_map (term tag : str) :
  term_tag term tag ->
  tag = map (fun ch => if Ascii.eqb ch space then underscore else lower_char ch)
            term.
Proof.
  induction 1 as [|ch tc term tag -> _ IH]; cbn [map]; [reflexivity|].
  rewrite IH. reflexivity.
Qed.

Section ChunkDocument.

Variable md5_hexdigest : str -> str.

Lemma chunk_section_total (document : LegalDocument) (section : SectionT) :
  exists chunks,
    _chunk_section document section = Some chunks /\
    Forall (fun c => chunk_type (chunk_metadata c) = lit "clause") chunks.
Proof.
  destruct (Nat.le_gt_cases (length (text section)) max_chunk_size) as [Hle|Hgt].
  - eexists. split; [apply chunk_section_short; exact Hle|].
    constructor; [reflexivity|constructor].
  - destruct (chunk_section_long document section Hgt) as (ws & _ & _ & Hcs).
    eexists. split; [exact Hcs|].
    apply List.Forall_forall. intros c Hin.
    apply in_map_iff in Hin as (ic & <- & _). reflexivity.
Qed.

Lemma chunk_sections_total (document : LegalDocument) ss chunks :
  exists more,
    chunk_sections document ss chunks = Some (chunks ++ more) /\
    Forall (fun c => chunk_type (chunk_metadata c) = lit "clause") more.
Proof.
  revert chunks. induction ss as [|section rest IH]; intros chunks.
  - exists []. simpl. rewrite app_nil_r. split; [reflexivity|constructor].
  - destruct (chunk_section_total document section) as (sc & Hsc & Hclause).
    destruct (IH (chunks ++ sc)) as (more & Hmore & Hclause').
    exists (sc ++ more). simpl. rewrite Hsc, Hmore, app_assoc.
    split; [reflexivity|]. apply Forall_app. split; assumption.
Qed.

Lemma fold_append_map {A B} (f : A -> B) (l : list A) (acc : list B) :
  fold_left (fun acc d => acc ++ [f d]) l acc = acc ++ map f l.
Proof.
  revert acc. induction l as [|x l IH]; intros acc; simpl.
  - rewrite app_nil_r. reflexivity.
  - rewrite IH, <- app_assoc. reflexivity.
Qed.

(** [chunk_document] always returns: the clause chunks of the sections,
    then one chunk for each definition, in order. *)
Lemma chunk_document_total (document : LegalDocument) :
  exists clause_chunks,
    chunk_document md5_hexdigest document =
    Some (clause_chunks ++
          map (_chunk_definition md5_hexdigest document) (doc_definitions document))
    /\ Forall (fun c => chunk_type (chunk_metadata c) = lit "clause") clause_chunks.
Proof.
  unfold chunk_document.
  destruct (chunk_sections_total document (sections document) [])
    as (more & Hmore & Hclause).
  rewrite Hmore. simpl. rewrite fold_append_map.
  exists more. split; [reflexivity|exact Hclause].
Qed.

(** C5 (amended).  The definition chunks of a document are exactly one per
    [Definition], in order, after the clause chunks.  The chunk of a
    definition has chunk type "definition", the content
    ["Term" means Definition], the two tags "definition" and the term with
    every space replaced by an underscore and every other character
    lower-cased, a chunk identifier made of the document identifier, "_def_"
    and the first eight characters of the MD5 digest of the term, and as
    section identifier the definition's own when it has one that is not
    empty, "definitions" when it has none or an empty one. *)
Theorem chunk_definition_spec (document : LegalDocument) :
  (exists clause_chunks,
     chunk_document md5_hexdigest document =
     Some (clause_chunks ++
           map (_chunk_definition md5_hexdigest document)
               (doc_definitions document))
     /\ Forall (fun c => chunk_type (chunk_metadata c) = lit "clause")
               clause_chunks)
  /\
  (forall d : DefinitionT,
     let c := _chunk_definition md5_hexdigest document d in
     chunk_type (chunk_metadata c) = lit "definition" /\
     content c = [quote] ++ term d ++ [quote] ++ lit " means " ++ definition d /\
     (exists tag,
        term_tag (term d) tag /\
        cm_tags (chunk_metadata c) = [lit "definition"; tag] /\
        (list_to_set (cm_tags (chunk_metadata c)) : gset str)
        = {[ lit "definition"; tag ]}) /\
     chunk_id (chunk_metadata c)
     = document_id (metadata document) ++ lit "_def_"
       ++ firstn 8 (md5_hexdigest (term d)) /\
     (def_section_id d = None ->
      section_id (chunk_metadata c) = lit "definitions") /\
     (forall s, def_section_id d = Some s -> s <> [] ->
      section_id (chunk_metadata c) = s) /\
     (def_section_id d = Some [] ->
      section_id (chunk_metadata c) = lit "definitions")).
Proof.
  split; [apply chunk_document_total|].
  intros d c. subst c. cbn [_chunk_definition chunk_metadata chunk_type content
    cm_tags chunk_id section_id].
  split; [reflexivity|]. split; [reflexivity|].
  split.
  { exists (replace_char space underscore (lower (term d))).
    split; [apply term_tag_replace|]. split; [reflexivity|].
    cbn [list_to_set foldr]. rewrite union_empty_r_L. reflexivity. }
  split; [reflexivity|].
  split; [intros ->; reflexivity|].
  split; [|intros ->; reflexivity].
  intros s -> Hs. destruct s; [congruence|reflexivity].
Qed.

(** The chunks are made from the document's identifier, its title, its
    sections and its definitions, and from nothing else. *)
Lemma chunk_document_reads (d1 d2 : LegalDocument) :
  document_id (metadata d1) = document_id (metadata d2) ->
  doc_title (metadata d1) = doc_title (metadata d2) ->
  sections d1 = sections d2 ->
  doc_definitions d1 = doc_definitions d2 ->
  chunk_document md5_hexdigest d1 = chunk_document md5_hexdigest d2.
Proof.
  intros Hid Htitle Hs Hd.
  assert (Hcc : forall section anchor i t,
             clause_chunk d1 section anchor i t = clause_chunk d2 section anchor i t).
  { intros. unfold clause_chunk. rewrite Hid, Htitle. reflexivity. }
  assert (Hsec : forall section,
             _chunk_section d1 section = _chunk_section d2 section).
  { intros section. unfold _chunk_section.
    destruct (length (text section) <=? max_chunk_size); [rewrite Hcc; reflexivity|].
    destruct (_split_text_with_overlap (text section)); [|reflexivity].
    f_equal. apply map_ext. intros ic. apply Hcc. }
  assert (Hss : forall ss chunks,
             chunk_sections d1 ss chunks = chunk_sections d2 ss chunks).
  { induction ss as [|section rest IH]; intros chunks; cbn [chunk_sections];
      [reflexivity|].
    rewrite Hsec. destruct (_chunk_section d2 section); [apply IH|reflexivity]. }
  unfold chunk_document. rewrite Hss, Hs, Hd.
  destruct (chunk_sections d2 (sections d2) []); [|reflexivity].
  rewrite !fold_append_map. do 2 f_equal. apply map_ext. intros d.
  unfold _chunk_definition. rewrite Hid, Htitle. reflexivity.
Qed.

(** C6.  [chunk_document] returns for every document, and two runs on the
    same document give the same list: the same number of chunks, and at
    each position the same content and the same chunk identifier.  The
    same holds for a run on a document with the same identifier, title,
    sections and definitions, whatever else differs (the processing date of
    a later ingestion, say). *)
Theorem chunk_document_idempotent (document : LegalDocument) :
  exists chunks,
    chunk_document md5_hexdigest document = Some chunks /\
    forall (again : LegalDocument) (chunks' : list ProcessedChunk),
      document_id (metadata again) = document_id (metadata document) ->
      doc_title (metadata again) = doc_title (metadata document) ->
      sections again = sections document ->
      doc_definitions again = doc_definitions document ->
      chunk_document md5_hexdigest again = Some chunks' ->
      chunks' = chunks /\
      length chunks' = length chunks /\
      forall i c c',
        chunks !! i = Some c -> chunks' !! i = Some c' ->
        content c' = content c /\
        chunk_id (chunk_metadata c') = chunk_id (chunk_metadata c).
Proof.
  destruct (chunk_document_total document) as (cc & Hcd & _).
  eexists. split; [exact Hcd|].
  intros again chunks' Hid Htitle Hs Hd H.
  rewrite (chunk_document_reads again document Hid Htitle Hs Hd), Hcd in H.
  injection H as <-.
  split; [reflexivity|]. split; [reflexivity|].
  intros i c c' H1 H2. rewrite H1 in H2. injection H2 as <-. auto.
Qed.

End ChunkDocument.

Lemma chunk_definition_spec_witness :
  let c := _chunk_definition sample_digest sample_document_with_definition
             sample_definition in
  section_id (chunk_metadata c) = lit "1.1" /\
  chunk_id (chunk_metadata c) = lit "ppa_def_5f4dcc3b" /\
  chunk_type (chunk_metadata c) = lit "definition" /\
  cm_tags (chunk_metadata c)
  = [lit "definition"; lit "material_adverse_effect"] /\
  content c
  = [quote] ++ lit "Material Adverse Effect" ++ [quote]
    ++ lit " means any event that is materially adverse to the Business.".
Proof.
  pose proof (proj2 (chunk_definition_spec sample_digest
                       sample_document_with_definition) sample_definition)
    as (Htype & Hcontent & (tag & Htag & Htags & _) & Hid & _ & Hsid & _).
  cbv zeta. split; [|split; [exact Hid|split; [exact Htype|split]]].
  - apply Hsid; [reflexivity|discriminate].
  - rewrite Htags. apply term_tag_map in Htag. rewrite Htag. reflexivity.
  - exact Hcontent.
Defined.

(** A definition whose section identifier is the empty text: the chunk
    does not get the definition's section identifier but "definitions". *)
Lemma chunk_definition_empty_section_counterexample :
  let c := _chunk_definition sample_digest sample_document_with_definition
             sample_definition_empty_section in
  def_section_id sample_definition_empty_section = Some [] /\
  section_id (chunk_metadata c) = lit "definitions" /\
  Some (section_id (chunk_metadata c))
  <> def_section_id sample_definition_empty_section.
Proof. cbv zeta. split; [reflexivity|]. split; [reflexivity|discriminate]. Qed.

Lemma chunk_document_idempotent_witness :
  exists chunks,
    chunk_document sample_digest sample_document_with_definition = Some chunks /\
    chunk_document sample_digest sample_document_with_definition = Some chunks /\
    chunk_document sample_digest sample_document_processed_later = Some chunks /\
    length chunks = 2.
Proof.
  destruct (chunk_document_idempotent sample_digest sample_document_with_definition)
    as (chunks & Hcd & Hsame).
  assert (E : chunk_document sample_digest sample_document_with_definition
              = Some chunks) by exact Hcd.
  vm_compute in E. injection E as E.
  destruct (chunk_document sample_digest sample_document_processed_later)
    as [later|] eqn:Hlater; [|vm_compute in Hlater; discriminate].
  destruct (Hsame sample_document_with_definition chunks
              eq_refl eq_refl eq_refl eq_refl Hcd) as (_ & _ & _).
  destruct (Hsame sample_document_processed_later later
              eq_refl eq_refl eq_refl eq_refl Hlater) as (-> & _ & _).
  exists chunks. split; [exact Hcd|]. split; [exact Hcd|].
  split; [reflexivity|]. rewrite <- E. reflexivity.
Defined.

(** ** Substrings *)

Lemma startswith_spec (s p : str) :
  startswith s p = true <-> exists post, s = p ++ post.
Proof.
  revert s. induction p as [|x p IH]; intros s.
  - destruct s; simpl; split; eauto.
  - destruct s as [|y s]; cbn [startswith].
    + split; [discriminate|]. intros [post H]. discriminate.
    + rewrite andb_true_iff, Ascii.eqb_eq, IH. split.
      * intros [-> [post ->]]. exists post. reflexivity.
      * intros [post H]. injection H as -> ->. eauto.
Qed.

Lemma contains_spec (s sub : str) :
  contains s sub = true <-> exists pre post, s = pre ++ sub ++ post.
Proof.
  induction s as [|c s IH]; cbn [contains]; rewrite orb_true_iff, startswith_spec.
  - split.
    + intros [[post H]|H]; [|discriminate]. exists [], post. exact H.
    + intros (pre & post & H). left.
      destruct pre; [|discriminate]. exists post. exact H.
  - rewrite IH. split.
    + intros [[post H]|(pre & post & ->)].
      * exists [], post. exact H.
      * exists (c :: pre), post. reflexivity.
    + intros (pre & post & H). destruct pre as [|x pre].
      * left. exists post. exact H.
      * right. injection H as -> ->. eauto.
Qed.

(** The test of the code, [needle.lower() in content.lower()], is the
    occurrence of the needle when case is ignored. *)
Lemma contains_lower_spec (content needle : str) :
  contains (lower content) (lower needle) = true
  <-> occurs_ignoring_case needle content.
Proof.
  rewrite contains_spec. unfold occurs_ignoring_case, lower. split.
  - intros (pre & post & H).
    apply map_eq_app in H as (pre' & rest & -> & <- & H).
    apply map_eq_app in H as (mid & post' & -> & Hmid & <-).
    exists pre', mid, post'. split; [reflexivity|exact Hmid].
  - intros (pre & mid & post & -> & Hmid).
    exists (map lower_char pre), (map lower_char post).
    rewrite !map_app, Hmid. reflexivity.
Qed.

(** ** Tag normalization *)

Lemma any_synonym_spec (content_lower : str) (synonyms : list str) :
  any_synonym content_lower synonyms = true
  <-> exists synonym, In synonym synonyms
                      /\ contains content_lower (lower synonym) = true.
Proof.
  induction synonyms as [|x rest IH]; cbn [any_synonym].
  - split; [discriminate|]. intros (? & [] & _).
  - destruct (contains content_lower (lower x)) eqn:E.
    + split; [|reflexivity]. intros _. exists x. split; [left; reflexivity|exact E].
    + rewrite IH. split.
      * intros (y & Hin & Hy). exists y. split; [right; exact Hin|exact Hy].
      * intros (y & [<-|Hin] & Hy); [congruence|]. eauto.
Qed.

(** A loop that adds [key e] to a set for every entry [e] of a table that
    passes a test. *)
Lemma fold_add_spec {E} (test : E -> bool) (key : E -> str) (table : list E)
    (init : gset str) (t : str) :
  t ∈ fold_left (fun (tags : gset str) e =>
                   if test e then {[ key e ]} ∪ tags else tags) table init
  <-> t ∈ init \/ exists e, In e table /\ test e = true /\ t = key e.
Proof.
  revert init. induction table as [|e table IH]; intros init; cbn [fold_left].
  - split; [auto|]. intros [H|(? & [] & _)]. exact H.
  - rewrite IH. destruct (test e) eqn:He.
    + rewrite elem_of_union, elem_of_singleton. split.
      * intros [[->|H]|(e' & Hin & Ht & ->)].
        -- right. exists e. split; [left; reflexivity|auto].
        -- left. exact H.
        -- right. exists e'. split; [right; exact Hin|auto].
      * intros [H|(e' & [<-|Hin] & Ht & ->)]; [auto|auto|].
        right. exists e'. auto.
    + split.
      * intros [H|(e' & Hin & Ht & ->)]; [auto|].
        right. exists e'. split; [right; exact Hin|auto].
      * intros [H|(e' & [<-|Hin] & Ht & ->)]; [auto|congruence|].
        right. exists e'. auto.
Qed.

(** The members of the normalized tag list. *)
Lemma normalize_tags_members (existing_tags : list str) (content t : str) :
  In t (_normalize_tags existing_tags content) <->
  In t existing_tags
  \/ (exists synonyms synonym,
        In (t, synonyms) LEGAL_TERM_SYNONYMS /\ In synonym synonyms /\
        occurs_ignoring_case synonym content)
  \/ (exists term description,
        In (term, description) INFRA_FINANCE_TERMS /\
        (occurs_ignoring_case term content
         \/ occurs_ignoring_case description content) /\
        t = replace_char space underscore (lower term)).
Proof.
  unfold _normalize_tags.
  rewrite <- list_elem_of_In, elem_of_elements.
  rewrite (fold_add_spec
             (fun e : str * str =>
                contains (lower content) (lower (fst e))
                || contains (lower content) (lower (snd e)))
             (fun e => replace_char space underscore (lower (fst e)))).
  rewrite (fold_add_spec
             (fun e : str * list str => any_synonym (lower content) (snd e))
             (fun e => fst e)).
  rewrite elem_of_list_to_set, list_elem_of_In.
  split.
  - intros [[H|([c syns] & Hin & Hany & ->)]|([term desc] & Hin & Ht & ->)].
    + left. exact H.
    + right. left. cbn [fst snd] in *.
      apply any_synonym_spec in Hany as (syn & Hsyn & Hc).
      exists syns, syn. split; [exact Hin|]. split; [exact Hsyn|].
      apply contains_lower_spec. exact Hc.
    + right. right. cbn [fst snd] in *. exists term, desc.
      split; [exact Hin|]. split; [|reflexivity].
      apply orb_true_iff in Ht. rewrite !contains_lower_spec in Ht. exact Ht.
  - intros [H|[(syns & syn & Hin & Hsyn & Hocc)|(term & desc & Hin & Hocc & ->)]].
    + left. left. exact H.
    + left. right. exists (t, syns). split; [exact Hin|]. split; [|reflexivity].
      cbn [snd]. apply any_synonym_spec. exists syn. split; [exact Hsyn|].
      apply contains_lower_spec. exact Hocc.
    + right. exists (term, desc). split; [exact Hin|]. split; [|reflexivity].
      cbn [fst snd]. apply orb_true_iff. rewrite !contains_lower_spec. exact Hocc.
Qed.

(** C9.  A tag is in the normalized tag list exactly when it is an input
    tag, or a canonical term one of whose synonyms occurs in the content
    when case is ignored, or the tag derived from an abbreviation that
    occurs, or whose expansion occurs, in the content.  Normalizing the
    result again with the same content gives the same tag set. *)
Theorem normalize_tags_spec (existing_tags : list str) (content : str) :
  (forall t,
     In t (_normalize_tags existing_tags content) <->
     In t existing_tags
     \/ (exists synonyms synonym,
           In (t, synonyms) LEGAL_TERM_SYNONYMS /\ In synonym synonyms /\
           occurs_ignoring_case synonym content)
     \/ (exists term description,
           In (term, description) INFRA_FINANCE_TERMS /\
           (occurs_ignoring_case term content
            \/ occurs_ignoring_case description content) /\
           t = replace_char space underscore (lower term)))
  /\
  (list_to_set (_normalize_tags (_normalize_tags existing_tags content) content)
     : gset str)
  = list_to_set (_normalize_tags existing_tags content).
Proof.
  split; [intros t; apply normalize_tags_members|].
  apply set_eq. intros t.
  rewrite !elem_of_list_to_set, !list_elem_of_In.
  rewrite (normalize_tags_members (_normalize_tags existing_tags content)).
  rewrite !(normalize_tags_members existing_tags). tauto.
Qed.

Lemma normalize_tags_spec_witness :
  In (lit "dispute_resolution")
     (_normalize_tags [lit "pricing"] (lit "Any Arbitration is final."))
  /\ In (lit "pricing")
        (_normalize_tags [lit "pricing"] (lit "Any Arbitration is final.")).
Proof.
  pose proof (proj1 (normalize_tags_spec [lit "pricing"]
                       (lit "Any Arbitration is final."))) as Hspec.
  split.
  - destruct (Hspec (lit "dispute_resolution")) as [_ H]. apply H. clear H Hspec.
    right. left.
    exists [lit "arbitration"; lit "litigation"; lit "mediation"], (lit "arbitration").
    split; [do 7 right; left; reflexivity|].
    split; [left; reflexivity|].
    exists (lit "Any "), (lit "Arbitration"), (lit " is final.").
    split; reflexivity.
  - destruct (Hspec (lit "pricing")) as [_ H]. apply H. clear H Hspec.
    left. left. reflexivity.
Defined.

(** ** Document normalization *)

Lemma same_frame_refl s : same_frame s s.
Proof. unfold same_frame. tauto. Qed.

Lemma same_frame_trans s1 s2 s3 :
  same_frame s1 s2 -> same_frame s2 s3 -> same_frame s1 s3.
Proof. unfold same_frame. intuition congruence. Qed.

Lemma same_frame_set_tags value s : same_frame s (set_tags value s).
Proof. unfold same_frame. repeat split. Qed.

Lemma same_frame_set_text value s : same_frame s (set_text value s).
Proof. unfold same_frame. repeat split. Qed.

(** A pass that assigns to each referenced section an attribute outside the
    frame: every object of the store keeps its frame, and the objects the
    pass does not visit are untouched. *)
Lemma pass_frame (f : SectionT -> SectionT) (refs : list ref) (h : store) :
  (forall s, same_frame s (f s)) ->
  forall r,
    option_Forall2 same_frame
      (h !! r) (fold_left (fun (h : store) r => alter f r h) refs h !! r).
Proof.
  intros Hf. revert h. induction refs as [|r0 refs IH]; intros h r; cbn [fold_left].
  - destruct (h !! r); constructor. apply same_frame_refl.
  - specialize (IH (alter f r0 h) r). rewrite lookup_alter in IH.
    destruct (decide (r0 = r)) as [->|Hne].
    + destruct (h !! r) as [s|]; cbn in IH.
      * inversion IH as [x y Hxy E1 E2|]; subst. constructor.
        eapply same_frame_trans; [apply Hf|exact Hxy].
      * exact IH.
    + exact IH.
Qed.

Lemma pass_untouched (f : SectionT -> SectionT) (refs : list ref) (h : store) r :
  ~ In r refs ->
  fold_left (fun (h : store) r => alter f r h) refs h !! r = h !! r.
Proof.
  revert h. induction refs as [|r0 refs IH]; intros h Hr; cbn [fold_left];
    [reflexivity|].
  rewrite IH by (intros H; apply Hr; right; exact H).
  apply lookup_alter_ne. intros ->. apply Hr. left. reflexivity.
Qed.

Lemma option_frame_trans (a b c : option SectionT) :
  option_Forall2 same_frame a b -> option_Forall2 same_frame b c ->
  option_Forall2 same_frame a c.
Proof.
  intros H1 H2. destruct H1; inversion H2; subst; constructor.
  eapply same_frame_trans; eassumption.
Qed.

Lemma snapshot_sections_frame (h h' : store) (refs : list ref) :
  (forall r, option_Forall2 same_frame (h !! r) (h' !! r)) ->
  Forall2 same_frame (omap (fun r => h !! r) refs) (omap (fun r => h' !! r) refs).
Proof.
  intros H. induction refs as [|r refs IH]; cbn [omap list_omap].
  - constructor.
  - specialize (H r). destruct H; [constructor; assumption|exact IH].
Qed.

(** C10.  [_normalize_document] returns the document object it was given.
    Every section object of the store keeps its id, title, clause type,
    referenced definitions, parent section and page number; objects the
    document does not refer to are unchanged; the document's metadata and
    definitions are unchanged, and its sections are as many as before, in
    the same order, each the section it was up to [tags] and [text]. *)
Theorem normalize_document_frame (h : store) (document : LegalDocumentObj) :
  let h' := fst (_normalize_document h document) in
  let returned := snd (_normalize_document h document) in
  returned = document /\
  (forall r, option_Forall2 same_frame (h !! r) (h' !! r)) /\
  (forall r, ~ In r (obj_sections document) -> h' !! r = h !! r) /\
  metadata (snapshot h' returned) = metadata (snapshot h document) /\
  doc_definitions (snapshot h' returned) = doc_definitions (snapshot h document) /\
  Forall2 same_frame (sections (snapshot h document))
                     (sections (snapshot h' returned)).
Proof.
  cbn zeta. unfold _normalize_document. cbn [fst snd].
  assert (Hframe : forall r,
             option_Forall2 same_frame (h !! r)
               (fold_left
                  (fun (h : store) r =>
                     alter (fun section =>
                              set_text (_normalize_terminology (text section)) section)
                           r h)
                  (obj_sections document)
                  (fold_left
                     (fun (h : store) r =>
                        alter (fun section =>
                                 set_tags (_normalize_tags (tags section) (text section))
                                          section)
                              r h)
                     (obj_sections document) h) !! r)).
  { intros r. eapply option_frame_trans; apply pass_frame;
      intros s; [apply same_frame_set_tags|apply same_frame_set_text]. }
  split; [reflexivity|]. split; [exact Hframe|]. split.
  - intros r Hr. rewrite !pass_untouched by exact Hr. reflexivity.
  - split; [reflexivity|]. split; [reflexivity|].
    cbn [snapshot sections]. apply snapshot_sections_frame. exact Hframe.
Qed.

Lemma normalize_document_frame_witness :
  snd (_normalize_document sample_store sample_document_obj) = sample_document_obj
  /\ fst (_normalize_document sample_store sample_document_obj) !! 1
     = sample_store !! 1.
Proof.
  pose proof (normalize_document_frame sample_store sample_document_obj)
    as (Hret & _ & Hout & _).
  split; [exact Hret|]. apply Hout.
  intros [H|[]]. discriminate H.
Defined.

(** ** Clause classification *)

Lemma keyword_occurs (title keyword : str) :
  lower keyword = keyword ->
  occurs_ignoring_case keyword title ->
  contains (lower title) keyword = true.
Proof. intros E H. rewrite <- E. apply contains_lower_spec. exact H. Qed.

Ltac first_rule :=
  repeat match goal with
         | |- context [contains ?a ?b] =>
             destruct (contains a b); cbn [orb]; try reflexivity
         end.

Lemma keyword_free_check (rules : list (list str * ClauseType)) (content : str) :
  forallb (fun rule =>
             forallb (fun keyword =>
                        negb (contains (lower content) (lower keyword)))
                     (fst rule))
          rules = true ->
  keyword_free rules content.
Proof.
  intros H. rewrite forallb_forall in H.
  apply List.Forall_forall. intros rule Hrule.
  specialize (H rule Hrule). rewrite forallb_forall in H.
  apply List.Forall_forall. intros keyword Hk Hocc.
  specialize (H keyword Hk).
  apply contains_lower_spec in Hocc. rewrite Hocc in H. discriminate.
Qed.

(** C2 (amended).  Each parser's classifier answers as its ordered rule list
    evaluated on the lower-cased title: first match wins, [OTHER] when no
    rule matches; for the XML classifier, which is also given the content,
    this is stated for a content in which no keyword occurs.  In the PDF
    parser the purchase/sale rule comes first, so a title with "purchase"
    or "sale" in it is Purchase and Sale whatever else it contains; in the
    XML parser the rate/price rule comes first, so a title with "rate" or
    "price" in it is Price. *)
Theorem classify_clause_type_rules (title content : str) :
  PDFLegalParser._classify_clause_type title = classify_by_rules pdf_rules title
  /\
  (keyword_free xml_rules content ->
   XMLLegalParser._classify_clause_type title content
   = classify_by_rules xml_rules title)
  /\
  (occurs_ignoring_case (lit "purchase") title
   \/ occurs_ignoring_case (lit "sale") title ->
   PDFLegalParser._classify_clause_type title = PURCHASE_AND_SALE)
  /\
  (occurs_ignoring_case (lit "rate") title
   \/ occurs_ignoring_case (lit "price") title ->
   XMLLegalParser._classify_clause_type title content = PRICE).
Proof.
  split; [|split; [|split]].
  - unfold PDFLegalParser._classify_clause_type, classify_by_rules, pdf_rules.
    cbn [find existsb fst snd]. rewrite !orb_false_r.
    generalize (lower title). intros t. first_rule.
  - intros _.
    unfold XMLLegalParser._classify_clause_type, classify_by_rules, xml_rules.
    cbn [find existsb fst snd]. rewrite !orb_false_r.
    generalize (lower title). intros t. first_rule.
  - intros H. unfold PDFLegalParser._classify_clause_type.
    destruct H as [H|H]; apply keyword_occurs in H; try reflexivity;
      rewrite H, ?orb_true_r; reflexivity.
  - intros H. unfold XMLLegalParser._classify_clause_type.
    destruct H as [H|H]; apply keyword_occurs in H; try reflexivity;
      rewrite H, ?orb_true_r; reflexivity.
Qed.

Lemma classify_clause_type_rules_witness :
  PDFLegalParser._classify_clause_type (lit "Sale Price") = PURCHASE_AND_SALE
  /\ XMLLegalParser._classify_clause_type (lit "Sale Price")
       (lit "The parties agree.") = PRICE
  /\ XMLLegalParser._classify_clause_type (lit "Notices")
       (lit "The parties agree.") = NOTICES.
Proof.
  pose proof (classify_clause_type_rules (lit "Sale Price")
                (lit "The parties agree.")) as (_ & _ & Hpdf & Hxml).
  pose proof (classify_clause_type_rules (lit "Notices")
                (lit "The parties agree.")) as (_ & Hrules & _ & _).
  split; [|split].
  - apply Hpdf. right. exists [], (lit "Sale"), (lit " Price"). split; reflexivity.
  - apply Hxml. right. exists (lit "Sale "), (lit "Price"), []. split; reflexivity.
  - rewrite Hrules; [vm_compute; reflexivity|].
    apply keyword_free_check. vm_compute. reflexivity.
Defined.

(** The title "Sale Price" has a sale keyword and a price keyword; the XML
    classifier answers Price. *)
Lemma xml_sale_price_counterexample :
  occurs_ignoring_case (lit "sale") (lit "Sale Price") /\
  occurs_ignoring_case (lit "price") (lit "Sale Price") /\
  XMLLegalParser._classify_clause_type (lit "Sale Price")
    (lit "The parties agree.") <> PURCHASE_AND_SALE.
Proof.
  split; [exists [], (lit "Sale"), (lit " Price"); split; reflexivity|].
  split; [exists (lit "Sale "), (lit "Price"), []; split; reflexivity|].
  vm_compute. discriminate.
Qed.

(** ** Structural segmentation *)

Lemma loop_body_texts_empty page_texts st raw_line :
  texts_empty st -> texts_empty (PDFLegalParser.loop_body page_texts st raw_line).
Proof.
  intros [Hs Hc]. unfold PDFLegalParser.loop_body.
  destruct (negb (truthy (strip raw_line))); [split; assumption|].
  destruct (PDFLegalParser.first_match _ _) as [[section_id g2]|].
  - split; cbn.
    + destruct (PDFLegalParser.current_section st) as [cur|]; [|exact Hs].
      apply Forall_app. split; [exact Hs|]. constructor; [|constructor].
      apply Hc. reflexivity.
    + intros cur H. injection H as <-. reflexivity.
  - revert Hc.
    destruct (PDFLegalParser.current_section st) as [s|] eqn:E; intros Hc.
    + split; cbn; [exact Hs|exact Hc].
    + split; [exact Hs|]. intros cur H. congruence.
Qed.

Lemma loop_texts_empty page_texts lines st :
  texts_empty st ->
  texts_empty (fold_left (PDFLegalParser.loop_body page_texts) lines st).
Proof.
  revert st. induction lines as [|l lines IH]; intros st H; [exact H|].
  cbn [fold_left]. apply IH, loop_body_texts_empty, H.
Qed.

(** Whatever the input, every section the PDF segmenter emits before the
    last one has an empty text. *)
Lemma pdf_sections_before_last_empty (full_text : str) (page_texts : list str) :
  Forall (fun s => text s = [])
    (removelast
       (PDFLegalParser._extract_sections
          full_text page_texts)).
Proof.
  unfold PDFLegalParser._extract_sections.
  match goal with
  | |- context [fold_left ?f ?l ?i] =>
      pose proof (loop_texts_empty page_texts l i) as H;
      destruct (fold_left f l i) as [ss cur content n]
  end.
  destruct H as [Hs Hc]; [split; [constructor|discriminate]|].
  cbn in *. destruct cur as [cur|].
  - rewrite removelast_last. exact Hs.
  - clear Hc. induction Hs as [|s ss Hs Hss IH]; [constructor|].
    destruct ss; [constructor|]. cbn [removelast]. constructor; assumption.
Qed.

(** C1.  Whatever the input, every section the PDF segmenter emits before
    the last one has an empty text.  On a text of two headed sections, the
    section closed by the second heading is emitted with an empty text and
    only the last one carries the lines collected for it. *)
Theorem pdf_extract_sections_loses_text :
  (forall full_text page_texts,
     Forall (fun s => text s = [])
       (removelast
          (PDFLegalParser._extract_sections
             full_text page_texts)))
  /\
  map (fun s => (id s, text s))
    (PDFLegalParser._extract_sections
       sample_pdf_text [sample_pdf_text])
  = [ (lit "1.1", []);
      (lit "1.2",
       lit "1.2 Closing" ++ [PDFLegalParser.newline]
       ++ lit "Closing occurs in May") ].
Proof.
  split; [apply pdf_sections_before_last_empty|].
  vm_compute. reflexivity.
Qed.

(** The XML segmenter on the same two sections: each section carries its
    heading and the paragraphs up to the next heading. *)
Lemma xml_extract_sections_keeps_text :
  map (fun s => (id s, text s))
    (XMLLegalParser._extract_sections
       sample_paragraphs)
  = [ (lit "1.1", lit "1.1 Purchase Price The price is fixed");
      (lit "1.2", lit "1.2 Closing Closing occurs in May") ].
Proof. vm_compute. reflexivity. Qed.

(** ** Worked examples

    The embedding on small inputs, with the values Python gives for the
    same calls. *)

Example splitlines_example :
  splitlines (lit "a" ++ [ascii_of_nat 13; ascii_of_nat 10] ++ lit "b"
              ++ [ascii_of_nat 10; ascii_of_nat 10] ++ lit "c" ++ [ascii_of_nat 10])
  = [lit "a"; lit "b"; []; lit "c"].
Proof. vm_compute. reflexivity. Qed.

Example re_heading_number_examples :
  re_heading_number (lit "1.2.3a") = Some (lit "1.2") /\
  re_heading_number (lit "1.23a") = None /\
  re_heading_number (lit "12.5") = Some (lit "12.5") /\
  re_heading_number (lit "1.2.") = Some (lit "1.2") /\
  re_heading_number (lit "1.2_") = None /\
  re_heading_number (lit "1..2") = None /\
  re_heading_number (lit "1.2 Price") = Some (lit "1.2").
Proof. vm_compute. repeat split. Qed.

Example re_dotted_id_examples :
  re_dotted_id (lit "1.2") = true /\
  re_dotted_id (lit "1.2" ++ [ascii_of_nat 10]) = true /\
  re_dotted_id (lit "11.4.2") = true /\
  re_dotted_id (lit "5") = false /\
  re_dotted_id (lit "1.") = false /\
  re_dotted_id (lit ".5") = false /\
  re_dotted_id (lit "1.2 ") = false.
Proof. vm_compute. repeat split. Qed.

Example section_pattern_examples :
  PDFLegalParser.first_match PDFLegalParser.section_patterns (lit "1. DEFINITIONS.")
  = Some (lit "1", lit "DEFINITIONS") /\
  PDFLegalParser.first_match PDFLegalParser.section_patterns (lit "1.1 Purchase Price")
  = Some (lit "1.1", lit "Purchase Price") /\
  PDFLegalParser.first_match PDFLegalParser.section_patterns (lit "A. Title here")
  = Some (lit "A", lit "Title here") /\
  PDFLegalParser.first_match PDFLegalParser.section_patterns (lit "1. Definitions")
  = None /\
  PDFLegalParser.first_match PDFLegalParser.section_patterns (lit "IV.  Closing. more")
  = Some (lit "IV", lit "Closing") /\
  PDFLegalParser.first_match PDFLegalParser.section_patterns
    (lit "2.10   Sale of Assets; etc. x")
  = Some (lit "2.10", lit "Sale of Assets; etc") /\
  PDFLegalParser.first_match PDFLegalParser.section_patterns (lit "The price is fixed.")
  = None.
Proof. vm_compute. repeat split. Qed.

Example normalize_terminology_example :
  _normalize_terminology
    (lit "The True-Up and price adjustment END. Machine vendors transfer.")
  = lit "The Purchase Purchase Price Adjustment and Purchase Price Adjustment Termination. Material Adverse Effecthine vTerminationors Assignment.".
Proof. vm_compute. reflexivity. Qed.

(** 2300 characters with a period at the end of every run of 50, and 1850
    characters without any. *)
Example split_windows_examples :
  split_windows (concat (repeat (repeat letter_a 49 ++ [dot]) 46))
  = Some [(0, 1000); (900, 1900); (1800, 2800)] /\
  option_map (map (@length ascii))
    (_split_text_with_overlap (concat (repeat (repeat letter_a 49 ++ [dot]) 46)))
  = Some [1000; 1000; 500] /\
  split_windows (repeat letter_a 1850)
  = Some [(0, 1000); (900, 1900); (1800, 2800)] /\
  option_map (map (@length ascii)) (_split_text_with_overlap (repeat letter_a 1850))
  = Some [1000; 950; 50].
Proof. vm_compute. repeat split. Qed.

Example findall_examples :
  findall_quoted
    (lit "The " ++ [quote] ++ lit "Seller" ++ [quote] ++ lit " and " ++ [quote]
     ++ lit "Buyer Party" ++ [quote] ++ lit " sell to XYZ Corp, an LLC. "
     ++ [quote] ++ lit "lower" ++ [quote] ++ lit " " ++ [quote] ++ lit "Open")
  = [lit "Seller"; lit "Buyer Party"] /\
  findall_caps
    (lit "CROD means Contract Rate of Delivery; see PPA_X and A1B2 or USA.US")
  = [lit "CROD"; lit "USA"; lit "US"] /\
  findall_caps (lit "ABcd EF-GH I JK") = [lit "EF"; lit "GH"; lit "JK"] /\
  findall_two_words
    (lit "Contract Rate and New York City Power Company aB Cd Ef")
  = [lit "Contract Rate"; lit "New York"; lit "City Power"; lit "Cd Ef"].
Proof. vm_compute. repeat split. Qed.

(** * Further properties *)

(** ** More on strings *)

Lemma lstrip_suffix (s : str) : exists pre, s = pre ++ lstrip s.
Proof.
  induction s as [|c r [pre IH]]; [exists []; reflexivity|].
  cbn [lstrip]. destruct (isspace c).
  - exists (c :: pre). cbn [app]. rewrite <- IH. reflexivity.
  - exists []. reflexivity.
Qed.

(** Stripping takes characters away at both ends and nowhere else. *)
Lemma strip_substring (s : str) : exists pre post, s = pre ++ strip s ++ post.
Proof.
  unfold strip, rstrip.
  destruct (lstrip_suffix s) as [pre Hpre].
  destruct (lstrip_suffix (rev (lstrip s))) as [post Hpost].
  exists pre, (rev post).
  rewrite <- rev_app_distr, <- Hpost, rev_involutive. exact Hpre.
Qed.

Lemma strip_length (s : str) : length (strip s) <= length s.
Proof.
  destruct (strip_substring s) as (pre & post & H).
  rewrite H at 2. rewrite !length_app. lia.
Qed.

Lemma lstrip_idem (s : str) : lstrip (lstrip s) = lstrip s.
Proof.
  induction s as [|c r IH]; [reflexivity|]. cbn [lstrip].
  destruct (isspace c) eqn:E; [exact IH|]. cbn [lstrip]. rewrite E. reflexivity.
Qed.

(** [lstrip] leaves alone a text that ends with a character that is not
    white space, up to its leading white space: the end stays. *)
Lemma lstrip_snoc (l : str) u :
  isspace u = false -> exists l', lstrip (l ++ [u]) = l' ++ [u].
Proof.
  intros Hu. induction l as [|c l IH]; cbn [app lstrip].
  - rewrite Hu. exists []. reflexivity.
  - destruct (isspace c); [exact IH|]. exists (c :: l). reflexivity.
Qed.

(** A text that begins with a character that is not white space keeps it
    when stripped. *)
Lemma strip_head (u : ascii) (body : str) :
  isspace u = false -> exists rest, strip (u :: body) = u :: rest.
Proof.
  intros Hu. unfold strip, rstrip. cbn [lstrip]. rewrite Hu.
  cbn [rev]. destruct (lstrip_snoc (rev body) u Hu) as [l' ->].
  rewrite rev_app_distr. cbn. eexists. reflexivity.
Qed.

(** Stripping twice is stripping once. *)
Lemma strip_idem (s : str) : strip (strip s) = strip s.
Proof.
  unfold strip at 2 3. unfold rstrip.
  destruct (lstrip (rev (lstrip s))) as [|d u] eqn:Eu; [reflexivity|].
  pose proof (lstrip_head _ _ _ Eu) as Hd.
  (* the stripped text is [rev u ++ [d]]; its head is the head of [lstrip s] *)
  assert (Hh : rev (d :: u) = [] \/ exists c r, rev (d :: u) = c :: r /\ isspace c = false).
  { destruct (lstrip s) as [|c t] eqn:Et.
    - cbn in Eu. discriminate.
      - pose proof (lstrip_head _ _ _ Et) as Hc.
      cbn [rev] in Eu. destruct (lstrip_snoc (rev t) c Hc) as [l' Hl'].
      rewrite Hl' in Eu. right. rewrite <- Eu, rev_app_distr. cbn. eauto. }
  destruct Hh as [Hh|(c & r & Hh & Hc)].
  - cbn [rev] in Hh. destruct (rev u); discriminate.
  - unfold strip, rstrip. rewrite Hh. cbn [lstrip]. rewrite Hc.
    rewrite <- Hh, rev_involutive. cbn [lstrip]. rewrite Hd.
    reflexivity.
Qed.

(** ** Chunk identifiers *)

Lemma str_of_nat_inj n m : str_of_nat n = str_of_nat m -> n = m.
Proof.
  unfold str_of_nat. intros H.
  apply (f_equal string_of_list_ascii) in H.
  rewrite !string_of_list_ascii_of_string in H.
  apply (f_equal NilEmpty.uint_of_string) in H.
  rewrite !NilEmpty.usu in H. injection H as H.
  apply Unsigned.to_uint_inj. exact H.
Qed.

Lemma string_of_uint_digits (d : Decimal.uint) :
  Forall (fun c => isdigit c = true)
         (list_ascii_of_string (NilEmpty.string_of_uint d)).
Proof. induction d; cbn; constructor; auto. Qed.

Lemma str_of_nat_digits n : Forall (fun c => isdigit c = true) (str_of_nat n).
Proof. apply string_of_uint_digits. Qed.

Lemma isdigit_not_underscore c : isdigit c = true -> c <> underscore.
Proof. intros H ->. vm_compute in H. discriminate. Qed.

(** Two texts cut at a separator that their last parts do not contain are
    cut at the same place. *)
Lemma app_sep_inj_prefix (sep : ascii) (p q p' q' : str) :
  ~ In sep p -> ~ In sep p' ->
  p ++ sep :: q = p' ++ sep :: q' -> p = p' /\ q = q'.
Proof.
  revert p'. induction p as [|c p IH]; intros [|c' p'] Hp Hp' H; cbn in H.
  - injection H as ->. auto.
  - injection H as <- _. exfalso. apply Hp'. left. reflexivity.
  - injection H as -> _. exfalso. apply Hp. left. reflexivity.
  - injection H as -> H. destruct (IH p') as [-> ->]; auto.
    + intros Hin. apply Hp. right. exact Hin.
    + intros Hin. apply Hp'. right. exact Hin.
Qed.

Lemma app_sep_inj_suffix (sep : ascii) (a x b y : str) :
  ~ In sep x -> ~ In sep y ->
  a ++ sep :: x = b ++ sep :: y -> a = b /\ x = y.
Proof.
  intros Hx Hy H. apply (f_equal (@rev ascii)) in H.
  rewrite !rev_app_distr in H. cbn [rev] in H. rewrite <- !app_assoc in H.
  cbn [app] in H.
  apply app_sep_inj_prefix in H as [H1 H2].
  - split; [apply rev_inj, H2|apply rev_inj, H1].
  - rewrite <- in_rev. exact Hx.
  - rewrite <- in_rev. exact Hy.
Qed.

(** The identifier of a clause chunk, as [_chunk_section] writes it. *)
Lemma clause_chunk_id_inj (doc_id sid sid' : str) i j :
  doc_id ++ lit "_" ++ sid ++ lit "_" ++ str_of_nat i
  = doc_id ++ lit "_" ++ sid' ++ lit "_" ++ str_of_nat j ->
  sid = sid' /\ i = j.
Proof.
  intros H. apply app_inv_head in H. cbn [lit list_ascii_of_string app] in H.
  injection H as H.
  apply (app_sep_inj_suffix underscore) in H as [H1 H2].
  - split; [exact H1|apply str_of_nat_inj, H2].
  - intros Hin. pose proof (str_of_nat_digits i) as Hd.
    rewrite List.Forall_forall in Hd. apply (isdigit_not_underscore _ (Hd _ Hin)).
    reflexivity.
  - intros Hin. pose proof (str_of_nat_digits j) as Hd.
    rewrite List.Forall_forall in Hd. apply (isdigit_not_underscore _ (Hd _ Hin)).
    reflexivity.
Qed.

(** ** What the split gives *)

Lemma slice_substring (text : str) a b :
  exists pre post, text = pre ++ slice text a b ++ post.
Proof.
  exists (firstn a text), (skipn (b - a) (skipn a text)). unfold slice.
  rewrite (firstn_skipn (b - a)). symmetry. apply firstn_skipn.
Qed.

Lemma window_chain_ends (text : str) start ws :
  window_chain text start ws ->
  Forall (fun w => snd w = window_end text (fst w)) ws.
Proof.
  induction 1 as [start H1 H2|start ws H1 H2 Hch IH];
    constructor; first [reflexivity|constructor|exact IH].
Qed.

(** The windows of a text start at least 801 characters apart, so there are
    few of them. *)
Lemma window_chain_count (text : str) start ws :
  window_chain text start ws ->
  start + 801 * length ws <= length text + 800.
Proof.
  induction 1 as [start H1 H2|start ws H1 H2 Hch IH]; cbn [length].
  - lia.
  - pose proof (window_end_bounds text start) as Hb.
    unfold chunk_overlap in *. lia.
Qed.

Lemma lookup_enumerate_from {A} (l : list A) k i :
  combine (seq k (length l)) l !! i = (fun x => (k + i, x)) <$> l !! i.
Proof.
  revert k i. induction l as [|x l IH]; intros k i; [destruct i; reflexivity|].
  cbn [length seq combine]. destruct i as [|i]; cbn.
  - rewrite Nat.add_0_r. reflexivity.
  - rewrite IH. replace (S k + i) with (k + S i) by lia. reflexivity.
Qed.

Lemma lookup_enumerate {A} (l : list A) i :
  enumerate l !! i = (fun x => (i, x)) <$> l !! i.
Proof. apply (lookup_enumerate_from l 0 i). Qed.

(** The chunks of the windows of a chain are short pieces of the text. *)
Lemma window_chunks_pieces (text : str) ws :
  Forall (fun w => snd w = window_end text (fst w)) ws ->
  Forall (fun c =>
            1 <= length c /\ length c <= max_chunk_size /\ strip c = c /\
            exists pre post, text = pre ++ c ++ post)
         (window_chunks text ws).
Proof.
  intros Hends. unfold window_chunks. apply List.Forall_forall. intros c Hc.
  apply filter_In in Hc as [Hin Htr].
  apply in_map_iff in Hin as ([a b] & <- & Hw). cbn [fst snd] in *.
  rewrite List.Forall_forall in Hends. specialize (Hends _ Hw). cbn [fst snd] in Hends.
  pose proof (window_end_bounds text a) as Hb.
  pose proof (strip_length (slice text a b)) as Hlen.
  assert (Hsl : length (slice text a b) <= max_chunk_size).
  { unfold slice. rewrite length_firstn. lia. }
  split; [destruct (strip (slice text a b)); [discriminate|cbn [length]; lia]|].
  split; [lia|]. split; [apply strip_idem|].
  destruct (slice_substring text a b) as (p1 & q1 & H1).
  destruct (strip_substring (slice text a b)) as (p2 & q2 & H2).
  exists (p1 ++ p2), (q2 ++ q1).
  rewrite H1 at 1. rewrite H2 at 1. rewrite <- !app_assoc. reflexivity.
Qed.

Lemma split_text_pieces (text : str) :
  exists chunks,
    _split_text_with_overlap text = Some chunks /\
    Forall (fun c =>
              1 <= length c /\ length c <= max_chunk_size /\ strip c = c /\
              exists pre post, text = pre ++ c ++ post) chunks.
Proof.
  destruct (split_text_total text) as (ws & _ & Hsplit & Hch & Hnil).
  exists (window_chunks text ws). split; [exact Hsplit|].
  apply window_chunks_pieces.
  destruct (Nat.eq_dec (length text) 0) as [E|E].
  - rewrite (Hnil E). constructor.
  - apply (window_chain_ends text 0), Hch. lia.
Qed.

(** X1.  Whatever the text, every chunk the split gives has between 1 and
    [max_chunk_size] characters, has no white space at either end, and is a
    piece of the text (some characters before it and some after it give the
    text back). *)
Theorem split_chunks_bounded (text : str) :
  exists chunks,
    _split_text_with_overlap text = Some chunks /\
    Forall (fun c =>
              1 <= length c /\ length c <= max_chunk_size /\
              strip c = c /\
              exists pre post, text = pre ++ c ++ post) chunks.
Proof.
  destruct (split_text_total text) as (ws & _ & Hsplit & Hch & Hnil).
  exists (window_chunks text ws). split; [exact Hsplit|].
  apply window_chunks_pieces.
  destruct (Nat.eq_dec (length text) 0) as [E|E].
  - rewrite (Hnil E). constructor.
  - apply (window_chain_ends text 0), Hch. lia.
Qed.

(** X2.  The split gives at most one chunk for every 801 characters of
    the text, rounded up. *)
Theorem split_chunks_count (text : str) :
  exists chunks,
    _split_text_with_overlap text = Some chunks /\
    801 * length chunks <= length text + 800.
Proof.
  destruct (split_text_total text) as (ws & _ & Hsplit & Hch & Hnil).
  exists (window_chunks text ws). split; [exact Hsplit|].
  pose proof (window_chunks_length text ws) as Hle.
  destruct (Nat.eq_dec (length text) 0) as [E|E].
  - rewrite (Hnil E) in *. cbn [length] in Hle. lia.
  - pose proof (window_chain_count text 0 ws (Hch ltac:(lia))). lia.
Qed.

(** What every chunk of a section looks like, by its position. *)
Lemma chunk_section_shape (document : LegalDocument) (section : SectionT) :
  exists chunks,
    _chunk_section document section = Some chunks /\
    forall i c, chunks !! i = Some c ->
      chunk_key c = (id section, i) /\
      chunk_id (chunk_metadata c)
      = clause_chunk_id (document_id (metadata document)) (id section, i) /\
      cm_document_id (chunk_metadata c) = document_id (metadata document) /\
      cm_tags (chunk_metadata c) = tags section /\
      length (content c) <= max_chunk_size /\
      exists pre post, text section = pre ++ content c ++ post.
Proof.
  unfold _chunk_section.
  destruct (Nat.leb_spec (length (text section)) max_chunk_size) as [Hle|Hgt].
  - eexists. split; [reflexivity|]. intros [|i] c H; [|discriminate].
    injection H as <-. cbn. repeat split; auto.
    exists [], []. rewrite app_nil_r. reflexivity.
  - destruct (split_text_pieces (text section)) as (cts & -> & Hp).
    eexists. split; [reflexivity|]. intros i c H.
    rewrite list_lookup_fmap, lookup_enumerate in H.
    destruct (cts !! i) as [t|] eqn:Et; [|discriminate]. cbn in H.
    injection H as <-. cbn.
    rewrite List.Forall_forall in Hp.
    destruct (Hp t) as (_ & Hlen & _ & Hsub).
    { apply list_elem_of_In. eapply list_elem_of_lookup_2. exact Et. }
    repeat split; auto.
Qed.

Lemma clause_chunk_id_inj_key (doc_id : str) (k k' : str * nat) :
  clause_chunk_id doc_id k = clause_chunk_id doc_id k' -> k = k'.
Proof.
  destruct k as [sid i], k' as [sid' j]. unfold clause_chunk_id. cbn [fst snd].
  intros H. apply clause_chunk_id_inj in H as [-> ->]. reflexivity.
Qed.

(** Chunks whose places differ and whose identifiers are written from
    their places have different identifiers. *)
Lemma chunk_ids_distinct (doc_id : str) (chunks : list ProcessedChunk) :
  Forall (fun c => chunk_id (chunk_metadata c)
                   = clause_chunk_id doc_id (chunk_key c)) chunks ->
  NoDup (map chunk_key chunks) ->
  NoDup (map (fun c => chunk_id (chunk_metadata c)) chunks).
Proof.
  intros Hid Hkeys.
  replace (map (fun c => chunk_id (chunk_metadata c)) chunks)
    with (map (clause_chunk_id doc_id) (map chunk_key chunks)).
  - apply (NoDup_fmap_2_strong (clause_chunk_id doc_id)); [|exact Hkeys].
    intros k k' _ _. apply clause_chunk_id_inj_key.
  - rewrite map_map. apply map_ext_Forall.
    eapply List.Forall_impl; [|exact Hid]. intros c Hc. symmetry. exact Hc.
Qed.

Lemma keys_of_shape (chunks : list ProcessedChunk) (sid : str) :
  (forall i c, chunks !! i = Some c -> chunk_key c = (sid, i)) ->
  map chunk_key chunks = map (fun i => (sid, i)) (seq 0 (length chunks)).
Proof.
  intros H. apply list_eq. intros i.
  rewrite !list_lookup_fmap.
  destruct (chunks !! i) as [c|] eqn:E; cbn.
  - rewrite (H i c E).
    rewrite lookup_seq_lt; [reflexivity|]. eapply lookup_lt_Some, E.
  - rewrite lookup_seq_ge; [reflexivity|]. apply lookup_ge_None, E.
Qed.

Lemma keys_NoDup (sid : str) n : NoDup (map (fun i => (sid, i)) (seq 0 n)).
Proof.
  apply (NoDup_fmap_2_strong (fun i => (sid, i))); [|apply NoDup_seq].
  intros i j _ _ H. injection H as ->. reflexivity.
Qed.

(** X3.  The chunks of a section, whatever its text: the chunk at
    position [i] has chunk index [i], the section's identifier, the
    document's identifier and the section's tags; its content has at most
    [max_chunk_size] characters and is a piece of the section's text; and no
    two chunks of the section have the same chunk identifier. *)
Theorem chunk_section_metadata (document : LegalDocument) (section : SectionT) :
  exists chunks,
    _chunk_section document section = Some chunks /\
    (forall i c, chunks !! i = Some c ->
       chunk_index (chunk_metadata c) = i /\
       section_id (chunk_metadata c) = id section /\
       cm_document_id (chunk_metadata c) = document_id (metadata document) /\
       cm_tags (chunk_metadata c) = tags section /\
       length (content c) <= max_chunk_size /\
       exists pre post, text section = pre ++ content c ++ post) /\
    NoDup (map (fun c => chunk_id (chunk_metadata c)) chunks).
Proof.
  destruct (chunk_section_shape document section) as (chunks & Hcs & Hshape).
  exists chunks. split; [exact Hcs|]. split.
  - intros i c Hc. destruct (Hshape i c Hc) as (Hk & _ & Hd & Ht & Hl & Hs).
    injection Hk as Hsid Hidx. repeat (split; [assumption|]). exact Hs.
  - apply (chunk_ids_distinct (document_id (metadata document))).
    + apply List.Forall_forall. intros c Hin.
      apply list_elem_of_In, list_elem_of_lookup_1 in Hin as [i Hi].
      destruct (Hshape i c Hi) as (-> & -> & _). reflexivity.
    + rewrite (keys_of_shape chunks (id section)).
      * apply keys_NoDup.
      * intros i c Hc. apply (Hshape i c Hc).
Qed.

Lemma chunk_section_metadata_witness :
  exists chunks c,
    _chunk_section sample_document (sample_section (lit "3.1") sample_long_text)
    = Some chunks /\
    chunks !! 1 = Some c /\
    chunk_index (chunk_metadata c) = 1 /\
    section_id (chunk_metadata c) = lit "3.1" /\
    length (content c) <= max_chunk_size.
Proof.
  destruct (chunk_section_metadata sample_document
              (sample_section (lit "3.1") sample_long_text))
    as (chunks & Hcs & Hpos & _).
  assert (E : _chunk_section sample_document
                (sample_section (lit "3.1") sample_long_text) = Some chunks)
    by exact Hcs.
  vm_compute in E. injection E as E.
  assert (Hl : exists c, chunks !! 1 = Some c)
    by (rewrite <- E; eexists; reflexivity).
  destruct Hl as [c Hl].
  destruct (Hpos 1 c Hl) as (H1 & H2 & _ & _ & H3 & _).
  exists chunks, c. repeat (split; [assumption|]). exact H3.
Defined.

Section ChunkIdentifiers.

Variable md5_hexdigest : str -> str.

(** The clause chunks of some sections with different identifiers have
    different places. *)
Lemma chunk_sections_keys (document : LegalDocument) ss chunks :
  NoDup (map id ss) ->
  exists more,
    chunk_sections document ss chunks = Some (chunks ++ more) /\
    Forall (fun c => chunk_id (chunk_metadata c)
                     = clause_chunk_id (document_id (metadata document))
                                       (chunk_key c)) more /\
    Forall (fun c => In (fst (chunk_key c)) (map id ss)) more /\
    NoDup (map chunk_key more).
Proof.
  revert chunks. induction ss as [|section rest IH]; intros chunks Hnd.
  - exists []. cbn. rewrite app_nil_r. repeat split; constructor.
  - cbn [map] in Hnd. apply NoDup_cons in Hnd as [Hnotin Hnd].
    destruct (chunk_section_shape document section) as (sc & Hsc & Hshape).
    destruct (IH (chunks ++ sc) Hnd) as (more & Hmore & Hid & Hin & Hkeys).
    assert (Hsck : map chunk_key sc
                   = map (fun i => (id section, i)) (seq 0 (length sc))).
    { apply keys_of_shape. intros i c Hc. apply (Hshape i c Hc). }
    exists (sc ++ more). cbn [chunk_sections]. rewrite Hsc, Hmore, app_assoc.
    split; [reflexivity|]. split; [|split].
    + apply Forall_app. split; [|exact Hid].
      apply List.Forall_forall. intros c Hc.
      apply list_elem_of_In, list_elem_of_lookup_1 in Hc as [i Hi].
      destruct (Hshape i c Hi) as (-> & -> & _). reflexivity.
    + apply Forall_app. split.
      * apply List.Forall_forall. intros c Hc.
        apply list_elem_of_In, list_elem_of_lookup_1 in Hc as [i Hi].
        destruct (Hshape i c Hi) as (-> & _). left. reflexivity.
      * eapply List.Forall_impl; [|exact Hin]. intros c Hc. right. exact Hc.
    + rewrite map_app. apply NoDup_app. split; [|split; [|exact Hkeys]].
      * rewrite Hsck. apply keys_NoDup.
      * intros k Hk1 Hk2. rewrite Hsck in Hk1.
        apply list_elem_of_In, in_map_iff in Hk1 as (i & <- & _).
        apply list_elem_of_In, in_map_iff in Hk2 as (c & Hc & Hcin).
        rewrite List.Forall_forall in Hin. specialize (Hin c Hcin).
        rewrite Hc in Hin. cbn [fst] in Hin.
        apply Hnotin, list_elem_of_In, Hin.
Qed.

(** X4.  In a document whose sections have different identifiers, no two
    clause chunks have the same chunk identifier. *)
Theorem chunk_document_ids_distinct (document : LegalDocument) :
  NoDup (map id (sections document)) ->
  exists clause_chunks,
    chunk_document md5_hexdigest document
    = Some (clause_chunks
            ++ map (_chunk_definition md5_hexdigest document)
                   (doc_definitions document)) /\
    NoDup (map (fun c => chunk_id (chunk_metadata c)) clause_chunks).
Proof.
  intros Hnd. unfold chunk_document.
  destruct (chunk_sections_keys document (sections document) [] Hnd)
    as (more & Hmore & Hid & _ & Hkeys).
  exists more. rewrite Hmore. cbn [app]. rewrite fold_append_map.
  split; [reflexivity|].
  apply (chunk_ids_distinct (document_id (metadata document))); assumption.
Qed.

End ChunkIdentifiers.

Lemma chunk_document_ids_distinct_witness :
  exists clause_chunks,
    chunk_document sample_digest sample_document_two_sections
    = Some (clause_chunks
            ++ map (_chunk_definition sample_digest sample_document_two_sections)
                   (doc_definitions sample_document_two_sections)) /\
    NoDup (map (fun c => chunk_id (chunk_metadata c)) clause_chunks).
Proof.
  apply (chunk_document_ids_distinct sample_digest sample_document_two_sections).
  cbn [sample_document_two_sections sections map sample_section id].
  apply NoDup_cons. split; [|apply NoDup_singleton].
  intros H. apply list_elem_of_In in H. destruct H as [H|[]]. discriminate H.
Defined.

(** ** Splitting and joining *)

(** Joining the parts of a split with the separator gives the text
    back. *)
Lemma join_split (sep : ascii) (s : str) : join [sep] (split sep s) = s.
Proof.
  induction s as [|c r IH]; [reflexivity|]. cbn [split].
  destruct (Ascii.eqb_spec c sep) as [->|Hne].
  - pose proof (split_length_pos sep r) as Hpos.
    destruct (split sep r) as [|h t] eqn:E; [cbn in Hpos; lia|].
    change (join [sep] ([] :: h :: t)) with (sep :: join [sep] (h :: t)).
    rewrite IH. reflexivity.
  - pose proof (split_length_pos sep r) as Hpos.
    destruct (split sep r) as [|h t] eqn:E; [cbn in Hpos; lia|].
    destruct t as [|h2 t]; cbn [join app] in *; rewrite IH; reflexivity.
Qed.

Lemma split_no_sep (sep : ascii) (s : str) :
  Forall (fun p => ~ In sep p) (split sep s).
Proof.
  induction s as [|c r IH]; cbn [split].
  - constructor; [tauto|constructor].
  - destruct (Ascii.eqb_spec c sep) as [->|Hne].
    + constructor; [tauto|exact IH].
    + destruct (split sep r) as [|h t]; [repeat constructor; intros [H|[]]; auto|].
      apply Forall_cons_1 in IH as [Hh Ht]. constructor; [|exact Ht].
      intros [H|H]; [auto|contradiction].
Qed.

Lemma split_length (sep : ascii) (s : str) :
  length (split sep s) = S (count_occ ascii_dec s sep).
Proof.
  induction s as [|c r IH]; [reflexivity|]. cbn [split count_occ].
  destruct (Ascii.eqb_spec c sep) as [->|Hne].
  - destruct (ascii_dec sep sep); [|congruence]. cbn [length]. rewrite IH. reflexivity.
  - destruct (ascii_dec c sep); [congruence|].
    destruct (split sep r); cbn [length] in *; [discriminate|exact IH].
Qed.

Lemma join_snoc (sep : str) (parts : list str) (l : str) :
  parts <> [] -> join sep (parts ++ [l]) = join sep parts ++ sep ++ l.
Proof.
  induction parts as [|p rest IH]; [congruence|]. intros _.
  destruct rest as [|p2 rest]; [reflexivity|].
  change (join sep ((p :: p2 :: rest) ++ [l]))
    with (p ++ sep ++ join sep ((p2 :: rest) ++ [l])).
  rewrite IH by discriminate.
  change (join sep (p :: p2 :: rest)) with (p ++ sep ++ join sep (p2 :: rest)).
  rewrite <- !app_assoc. reflexivity.
Qed.

(** A text with a dot in it is its split without the last part, a dot, and
    the last part. *)
Lemma split_last_component (num : str) :
  has_dot num = true ->
  exists last,
    num = join [dot] (removelast (split dot num)) ++ dot :: last /\
    ~ In dot last.
Proof.
  intros Hd. pose proof (has_dot_split num Hd) as Hlen.
  pose proof (split_no_sep dot num) as Hns.
  pose proof (join_split dot num) as Hj.
  destruct (split dot num) as [|p parts] eqn:E; [cbn in Hlen; lia|].
  assert (Hne : p :: parts <> []) by discriminate.
  destruct (exists_last Hne) as (front & l & Hfl).
  rewrite Hfl in *. rewrite removelast_last.
  exists l. split.
  - rewrite <- Hj at 1. apply (join_snoc [dot]).
    destruct front; [cbn in Hlen; lia|discriminate].
  - apply Forall_app in Hns as [_ Hl]. apply Forall_inv in Hl. exact Hl.
Qed.

Lemma re_number_tail_app (s m rest : str) :
  re_number_tail s = (m, rest) -> s = m ++ rest.
Proof.
  revert m rest. induction s as [|c r IH]; intros m rest; cbn [re_number_tail].
  - intros H. injection H as <- <-. reflexivity.
  - destruct (isdigit c).
    + destruct (re_number_tail r) as [m' rest'] eqn:E. intros H.
      injection H as <- <-. cbn [app]. f_equal. apply IH. reflexivity.
    + destruct (Ascii.eqb c dot).
      * destruct r as [|d r']; [intros H; injection H as <- <-; reflexivity|].
        destruct (isdigit d).
        -- destruct (re_number_tail (d :: r')) as [m' rest'] eqn:E. intros H.
           injection H as <- <-. cbn [app]. f_equal. apply IH. reflexivity.
        -- intros H. injection H as <- <-. reflexivity.
      * intros H. injection H as <- <-. reflexivity.
Qed.

Lemma has_dot_app (a b : str) : has_dot a = true -> has_dot (a ++ b) = true.
Proof. unfold has_dot. rewrite existsb_app. intros ->. reflexivity. Qed.

Lemma re_dotted_id_has_dot (s : str) : re_dotted_id s = true -> has_dot s = true.
Proof.
  unfold re_dotted_id. destruct (starts_with_digit s); [|discriminate].
  destruct (re_number_tail s) as [m rest] eqn:E. cbn [andb].
  intros H. apply andb_prop in H as [H _].
  rewrite (re_number_tail_app s m rest E). apply has_dot_app, H.
Qed.

(** The anchor of a section: nothing, or a heading number with a dot in
    it, its level and its parent. *)
Lemma heading_anchor_cases (section : SectionT) :
  heading_anchor section = (None, None, None) \/
  exists num,
    has_dot num = true /\
    heading_anchor section
    = (Some num, Some (length (split dot num)),
       Some (join [dot] (removelast (split dot num)))).
Proof.
  unfold heading_anchor.
  destruct (re_dotted_id (strip (id section))) eqn:Em.
  - right. exists (strip (id section)).
    pose proof (re_dotted_id_has_dot _ Em) as Hd. split; [exact Hd|].
    pose proof (has_dot_split _ Hd) as Hl.
    destruct (Nat.ltb_spec 1 (length (split dot (strip (id section)))));
      [reflexivity|lia].
  - unfold _extract_heading_meta.
    destruct (map strip _) as [|l0 more]; [left; reflexivity|].
    match goal with
    | |- context [match ?m with Some num => _ | None => None end] =>
        assert (Hm : forall g, m = Some g -> has_dot g = true);
        [|destruct m as [num|]; [|left; reflexivity]]
    end.
    + intros g. destruct (re_heading_number l0) eqn:E0.
      * intros H. injection H as <-. eapply re_heading_number_has_dot, E0.
      * destruct more as [|l1 more']; [discriminate|].
        apply re_heading_number_has_dot.
    + right. exists num. pose proof (Hm num eq_refl) as Hd.
      split; [exact Hd|]. pose proof (has_dot_split _ Hd) as Hl.
      destruct (Nat.ltb_spec 1 (length (split dot num))); [reflexivity|lia].
Qed.

(** X5.  The heading anchor of the chunks of a section is all or nothing:
    either heading number, level and parent are all absent, or all three
    are there, the level is one more than the number of dots in the heading
    number (so at least 2), and the heading number is the parent, a dot,
    and a last component without dots. *)
Theorem chunk_heading_all_or_nothing (document : LegalDocument) (section : SectionT) :
  exists chunks,
    _chunk_section document section = Some chunks /\
    Forall (fun c =>
              (heading_number (chunk_metadata c) = None /\
               heading_level (chunk_metadata c) = None /\
               parent_heading_number (chunk_metadata c) = None)
              \/
              exists num parent last,
                heading_number (chunk_metadata c) = Some num /\
                parent_heading_number (chunk_metadata c) = Some parent /\
                heading_level (chunk_metadata c)
                = Some (S (count_occ ascii_dec num dot)) /\
                2 <= S (count_occ ascii_dec num dot) /\
                num = parent ++ dot :: last /\
                ~ In dot last) chunks.
Proof.
  destruct (chunk_section_total document section) as (chunks & Hcs & _).
  exists chunks. split; [exact Hcs|].
  apply chunk_section_anchor in Hcs.
  eapply List.Forall_impl; [|exact Hcs]. intros c Hc.
  destruct (heading_anchor_cases section) as [Ha|(num & Hd & Ha)];
    rewrite Ha in Hc; injection Hc as H1 H2 H3.
  - left. auto.
  - right. destruct (split_last_component num Hd) as (l & Hnum & Hl).
    exists num, (join [dot] (removelast (split dot num))), l.
    rewrite H1, H2, H3, split_length.
    pose proof (has_dot_split num Hd) as Hlen. rewrite split_length in Hlen.
    repeat (split; [first [reflexivity|assumption]|]). exact Hl.
Qed.

(** ** Rewriting the terminology *)

(** A substitution whose pattern does not occur changes nothing. *)
Lemma sub_ignorecase_absent (pat repl s : str) :
  contains (lower s) (lower pat) = false -> sub_ignorecase pat repl s 0 = s.
Proof.
  induction s as [|c r IH]; [reflexivity|].
  change (lower (c :: r)) with (lower_char c :: lower r).
  cbn [contains sub_ignorecase]. intros H.
  apply orb_false_elim in H as [H1 H2].
  change (lower (c :: r)) with (lower_char c :: lower r).
  rewrite H1, (IH H2). reflexivity.
Qed.

Lemma synonyms_absent (repl text : str) (synonyms : list str) :
  Forall (fun synonym => ~ occurs_ignoring_case synonym text) synonyms ->
  fold_left (fun normalized_text synonym =>
               sub_ignorecase synonym repl normalized_text 0)
            synonyms text = text.
Proof.
  induction 1 as [|synonym rest Hs Hrest IH]; cbn [fold_left]; [reflexivity|].
  rewrite sub_ignorecase_absent; [exact IH|].
  destruct (contains (lower text) (lower synonym)) eqn:E; [|reflexivity].
  exfalso. apply Hs, contains_lower_spec, E.
Qed.

(** X6.  A text of characters below U+0100 (every [str] here is one) in
    which no synonym of the terminology table occurs, case ignored, is left
    as it is by the rewriting.  For such text the case-insensitive patterns
    of the rewriting match where the lower-cased synonym occurs in the
    lower-cased text, and nowhere else. *)
Theorem normalize_terminology_unchanged (text : str) :
  (forall canonical synonyms synonym,
     In (canonical, synonyms) LEGAL_TERM_SYNONYMS -> In synonym synonyms ->
     ~ occurs_ignoring_case synonym text) ->
  _normalize_terminology text = text.
Proof.
  unfold _normalize_terminology. generalize LEGAL_TERM_SYNONYMS.
  intros table H. induction table as [|[canonical synonyms] table IH];
    cbn [fold_left fst snd]; [reflexivity|].
  rewrite synonyms_absent.
  - apply IH. intros c ss s Hin. apply (H c ss s). right. exact Hin.
  - apply List.Forall_forall. intros s Hs.
    apply (H canonical synonyms s); [left; reflexivity|exact Hs].
Qed.

Lemma forallb_synonyms_absent (text : str) :
  forallb (fun entry =>
             forallb (fun synonym => negb (contains (lower text) (lower synonym)))
                     (snd entry))
          LEGAL_TERM_SYNONYMS = true ->
  forall canonical synonyms synonym,
    In (canonical, synonyms) LEGAL_TERM_SYNONYMS -> In synonym synonyms ->
    ~ occurs_ignoring_case synonym text.
Proof.
  intros H canonical synonyms synonym Hin Hs Hocc.
  rewrite forallb_forall in H. specialize (H _ Hin). cbn [snd] in H.
  rewrite forallb_forall in H. specialize (H _ Hs).
  apply contains_lower_spec in Hocc. rewrite Hocc in H. discriminate.
Qed.

Lemma normalize_terminology_unchanged_witness :
  _normalize_terminology (lit "The Buyer shall pay the Price.")
  = lit "The Buyer shall pay the Price.".
Proof.
  apply normalize_terminology_unchanged.
  apply forallb_synonyms_absent. vm_compute. reflexivity.
Defined.

(** ** Normalizing a document whose sections are all different objects *)

Lemma pass_visits (f : SectionT -> SectionT) (refs : list ref) (h : store) r :
  NoDup refs -> In r refs ->
  fold_left (fun (h : store) r => alter f r h) refs h !! r = f <$> h !! r.
Proof.
  revert h. induction refs as [|r0 refs IH]; intros h Hnd Hin; [destruct Hin|].
  apply NoDup_cons in Hnd as [Hnotin Hnd]. cbn [fold_left].
  destruct Hin as [->|Hin].
  - rewrite pass_untouched.
    + apply lookup_alter_eq.
    + intros H. apply Hnotin, list_elem_of_In, H.
  - rewrite (IH _ Hnd Hin). rewrite lookup_alter_ne; [reflexivity|].
    intros ->. apply Hnotin, list_elem_of_In, Hin.
Qed.

(** X7.  When the section references of a document are all different,
    normalization makes of every section of the document its
    [normalized_section]: the tags come from the text as it was before the
    rewriting, and the text is rewritten once. *)
Theorem normalize_document_sections (h : store) (document : LegalDocumentObj) :
  NoDup (obj_sections document) ->
  (forall r, In r (obj_sections document) ->
     fst (_normalize_document h document) !! r
     = normalized_section <$> h !! r)
  /\
  sections (snapshot (fst (_normalize_document h document)) document)
  = map normalized_section (sections (snapshot h document)).
Proof.
  intros Hnd.
  assert (Hl : forall r, In r (obj_sections document) ->
                 fst (_normalize_document h document) !! r
                 = normalized_section <$> h !! r).
  { intros r Hin. unfold _normalize_document. cbn [fst].
    rewrite !pass_visits by assumption.
    destruct (h !! r) as [s|]; reflexivity. }
  split; [exact Hl|].
  cbn [snapshot sections]. revert Hl. clear Hnd.
  generalize (fst (_normalize_document h document)). intros h'.
  induction (obj_sections document) as [|r refs IH]; intros Hl; [reflexivity|].
  cbn [omap list_omap]. rewrite (Hl r) by (left; reflexivity).
  destruct (h !! r) as [s|]; cbn.
  - f_equal. apply IH. intros r' Hr'. apply Hl. right. exact Hr'.
  - apply IH. intros r' Hr'. apply Hl. right. exact Hr'.
Qed.

Lemma normalize_document_sections_witness :
  fst (_normalize_document sample_store sample_document_obj) !! 0
  = Some (normalized_section
            (sample_section (lit "3.1") (lit "The true-up is paid at Closing.")))
  /\
  text (normalized_section
          (sample_section (lit "3.1") (lit "The true-up is paid at Closing.")))
  = lit "The Purchase Purchase Price Adjustment is paid at Closing.".
Proof.
  destruct (normalize_document_sections sample_store sample_document_obj)
    as [Hl _].
  - apply NoDup_singleton.
  - split; [|vm_compute; reflexivity].
    rewrite (Hl 0) by (left; reflexivity). reflexivity.
Defined.

(** ** The PDF segmenter *)

Lemma span_spec (p : ascii -> bool) (s a b : str) :
  span p s = (a, b) -> s = a ++ b /\ Forall (fun c => p c = true) a.
Proof.
  revert a b. induction s as [|c r IH]; intros a b; cbn [span].
  - intros H. injection H as <- <-. split; [reflexivity|constructor].
  - destruct (p c) eqn:Hc.
    + destruct (span p r) as [a' b'] eqn:E. intros H. injection H as <- <-.
      destruct (IH a' b' eq_refl) as [-> Hf]. split; [reflexivity|].
      constructor; assumption.
    + intros H. injection H as <- <-. split; [reflexivity|constructor].
Qed.

Lemma many1_spec (p : ascii -> bool) (s m rest : str) :
  many1 p s = Some (m, rest) ->
  s = m ++ rest /\ m <> [] /\ Forall (fun c => p c = true) m.
Proof.
  unfold many1. destruct (span p s) as [a b] eqn:E.
  destruct a as [|c a]; [discriminate|]. cbn [truthy].
  intros H. injection H as <- <-.
  destruct (span_spec p s _ _ E) as [Hs Hf]. repeat split; [exact Hs|discriminate|exact Hf].
Qed.

Lemma one_spec (p : ascii -> bool) (s : str) c rest :
  one p s = Some (c, rest) -> s = c :: rest /\ p c = true.
Proof.
  unfold one. destruct s as [|x s]; [discriminate|].
  destruct (p x) eqn:E; [|discriminate]. intros H. injection H as <- <-. auto.
Qed.

(** No pattern matches the empty line. *)
Lemma first_match_empty :
  PDFLegalParser.first_match PDFLegalParser.section_patterns [] = None.
Proof. reflexivity. Qed.

(** The sections a state of the loop stands for: those emitted and the
    open one. *)
Lemma extract_sections_headings_from page_texts lines st :
  let st' := fold_left (PDFLegalParser.loop_body page_texts) lines st in
  map (fun s => (id s, title s))
      (PDFLegalParser.st_sections st'
       ++ match PDFLegalParser.current_section st' with
          | Some cur => [cur] | None => [] end)
  = map (fun s => (id s, title s))
        (PDFLegalParser.st_sections st
         ++ match PDFLegalParser.current_section st with
            | Some cur => [cur] | None => [] end)
    ++ map (fun m => (fst m, strip (snd m)))
           (omap (fun raw_line =>
                    PDFLegalParser.first_match PDFLegalParser.section_patterns
                      (strip raw_line)) lines).
Proof.
  cbn zeta. revert st. induction lines as [|raw lines IH]; intros st.
  - cbn. rewrite app_nil_r. reflexivity.
  - cbn [fold_left omap list_omap]. rewrite IH. clear IH.
    unfold PDFLegalParser.loop_body.
    destruct (strip raw) as [|c line] eqn:El.
    + cbn [truthy negb]. rewrite first_match_empty. reflexivity.
    + cbn [truthy negb].
      destruct (PDFLegalParser.first_match _ _) as [[sid g2]|].
      * cbn [PDFLegalParser.st_sections PDFLegalParser.current_section].
        rewrite !map_app. cbn [map fst snd id title app].
        rewrite <- app_assoc.
        destruct (PDFLegalParser.current_section st); rewrite ?map_app;
          cbn [map app]; rewrite <- ?app_assoc; reflexivity.
      * destruct (PDFLegalParser.current_section st) eqn:Ec; cbn; rewrite ?Ec;
          reflexivity.
Qed.

Lemma pdf_sections_headings (full_text : str) (page_texts : list str) :
  map (fun s => (id s, title s))
      (PDFLegalParser._extract_sections full_text page_texts)
  = map (fun m => (fst m, strip (snd m))) (heading_lines full_text).
Proof.
  unfold PDFLegalParser._extract_sections, heading_lines.
  match goal with
  | |- context [fold_left ?f ?l ?i] =>
      pose proof (extract_sections_headings_from page_texts l i) as Hh;
      cbn zeta in Hh; cbn [PDFLegalParser.st_sections
        PDFLegalParser.current_section app map] in Hh;
      rewrite <- Hh; clear Hh;
      destruct (fold_left f l i) as [ss cur content n]
  end.
  cbn [PDFLegalParser.st_sections PDFLegalParser.current_section
       PDFLegalParser.current_content].
  destruct cur as [cur|]; [|rewrite app_nil_r; reflexivity].
  rewrite !map_app. reflexivity.
Qed.

(** X8.  The PDF segmenter gives one section for every heading line, in
    the order of the lines, with the first group of the match as identifier
    and the stripped second group as title; a text without heading lines
    gives no section. *)
Theorem pdf_sections_are_headings (full_text : str) (page_texts : list str) :
  map (fun s => (id s, title s))
      (PDFLegalParser._extract_sections full_text page_texts)
  = map (fun m => (fst m, strip (snd m))) (heading_lines full_text)
  /\
  (heading_lines full_text = [] ->
   PDFLegalParser._extract_sections full_text page_texts = []).
Proof.
  pose proof (pdf_sections_headings full_text page_texts) as H.
  split; [exact H|]. intros Hnil. rewrite Hnil in H. cbn [map] in H.
  destruct (PDFLegalParser._extract_sections full_text page_texts);
    [reflexivity|discriminate].
Qed.

Lemma pdf_sections_are_headings_witness :
  PDFLegalParser._extract_sections (lit "This text has no heading.") [] = [].
Proof.
  apply (proj2 (pdf_sections_are_headings (lit "This text has no heading.") [])).
  vm_compute. reflexivity.
Defined.

(** Lines without a heading, read while a section is open, go to the
    content of that section when they are not blank. *)
Lemma loop_body_content page_texts lines st cur :
  PDFLegalParser.current_section st = Some cur ->
  Forall (fun raw =>
            PDFLegalParser.first_match PDFLegalParser.section_patterns
              (strip raw) = None) lines ->
  let st' := fold_left (PDFLegalParser.loop_body page_texts) lines st in
  PDFLegalParser.st_sections st' = PDFLegalParser.st_sections st /\
  PDFLegalParser.current_section st' = Some cur /\
  PDFLegalParser.current_content st'
  = PDFLegalParser.current_content st
    ++ List.filter (fun l => truthy l) (map strip lines).
Proof.
  cbn zeta. intros Hcur Hno. revert st Hcur.
  induction Hno as [|raw lines Hraw Hno IH]; intros st Hcur.
  - cbn. rewrite app_nil_r. auto.
  - cbn [fold_left map List.filter].
    assert (Hstep :
      let st1 := PDFLegalParser.loop_body page_texts st raw in
      PDFLegalParser.st_sections st1 = PDFLegalParser.st_sections st /\
      PDFLegalParser.current_section st1 = Some cur /\
      PDFLegalParser.current_content st1
      = PDFLegalParser.current_content st
        ++ (if truthy (strip raw) then [strip raw] else [])).
    { cbn zeta. unfold PDFLegalParser.loop_body. rewrite Hraw.
      destruct (truthy (strip raw)); cbn [negb].
      - rewrite Hcur. cbn. rewrite ?Hcur. auto.
      - rewrite app_nil_r. auto. }
    cbn zeta in Hstep. destruct Hstep as (H1 & H2 & H3).
    destruct (IH _ H2) as (H4 & H5 & H6).
    rewrite H4, H5, H6, H1, H3. repeat split.
    destruct (truthy (strip raw)); rewrite <- app_assoc; reflexivity.
Qed.

(** X9.  The last section of the PDF segmenter: when the lines of the text
    are some lines, a heading line, and lines of which none is a heading,
    the last section has the identifier and the title of that heading, and
    its text is the heading line and the lines after it, stripped, the blank
    ones left out, joined by newlines. *)
Theorem pdf_last_section_text (full_text : str) (page_texts : list str)
    (before : list str) (heading_raw : str) (after : list str) (m : str * str) :
  split PDFLegalParser.newline full_text = before ++ heading_raw :: after ->
  PDFLegalParser.first_match PDFLegalParser.section_patterns (strip heading_raw)
  = Some m ->
  Forall (fun raw =>
            PDFLegalParser.first_match PDFLegalParser.section_patterns
              (strip raw) = None) after ->
  exists s,
    last (PDFLegalParser._extract_sections full_text page_texts) = Some s /\
    id s = fst m /\
    title s = strip (snd m) /\
    text s = join [PDFLegalParser.newline]
               (strip heading_raw
                :: List.filter (fun l => truthy l) (map strip after)).
Proof.
  intros Hsplit Hm Hafter. unfold PDFLegalParser._extract_sections.
  rewrite Hsplit, fold_left_app. cbn [fold_left].
  set (st1 := fold_left (PDFLegalParser.loop_body page_texts) before _).
  assert (Hne : truthy (strip heading_raw) = true).
  { destruct (strip heading_raw); [rewrite first_match_empty in Hm; discriminate|].
    reflexivity. }
  destruct m as [sid g2].
  assert (Hstep : exists sec,
            PDFLegalParser.current_section
              (PDFLegalParser.loop_body page_texts st1 heading_raw) = Some sec /\
            PDFLegalParser.current_content
              (PDFLegalParser.loop_body page_texts st1 heading_raw)
            = [strip heading_raw] /\
            id sec = sid /\ title sec = strip g2).
  { unfold PDFLegalParser.loop_body. rewrite Hne, Hm. cbn.
    eexists. repeat split. }
  destruct Hstep as (sec & Hcur & Hcontent & Hid & Htitle).
  destruct (loop_body_content page_texts after _ sec Hcur Hafter)
    as (_ & Hcur' & Hcontent').
  rewrite Hcur', Hcontent', Hcontent.
  eexists. split; [apply last_snoc|].
  cbn. auto.
Qed.

Lemma pdf_last_section_text_witness :
  exists s,
    last (PDFLegalParser._extract_sections sample_pdf_text []) = Some s /\
    id s = lit "1.2" /\
    title s = lit "Closing" /\
    text s = lit "1.2 Closing" ++ [PDFLegalParser.newline]
             ++ lit "Closing occurs in May".
Proof.
  apply (pdf_last_section_text sample_pdf_text []
           [lit "1.1 Purchase Price"; lit "The price is fixed"]
           (lit "1.2 Closing") [lit "Closing occurs in May"]
           (lit "1.2", lit "Closing")).
  - vm_compute. reflexivity.
  - vm_compute. reflexivity.
  - repeat constructor.
Defined.

(** The first page that contains a line, counted from 1. *)
Lemma find_page_from_spec (line : str) (page_texts : list str) (k : nat) :
  match PDFLegalParser.find_page_from line page_texts k with
  | Some n =>
      k < n /\ n <= k + length page_texts /\
      (exists page, page_texts !! (n - 1 - k) = Some page
                    /\ contains page line = true) /\
      forall j page, j < n - 1 - k -> page_texts !! j = Some page ->
                     contains page line = false
  | None => Forall (fun page => contains page line = false) page_texts
  end.
Proof.
  revert k. induction page_texts as [|p rest IH]; intros k;
    cbn [PDFLegalParser.find_page_from]; [constructor|].
  destruct (contains p line) eqn:E.
  - cbn [length]. split; [lia|]. split; [lia|]. split.
    + exists p. replace (k + 1 - 1 - k) with 0 by lia. auto.
    + intros j page Hj. lia.
  - specialize (IH (S k)).
    destruct (PDFLegalParser.find_page_from line rest (S k)) as [n|].
    + destruct IH as (H1 & H2 & (page & Hp & Hc) & Hbefore). cbn [length].
      split; [lia|]. split; [lia|]. split.
      * exists page. replace (n - 1 - k) with (S (n - 1 - S k)) by lia.
        auto.
      * intros [|j] page' Hj Hl.
        -- injection Hl as <-. exact E.
        -- apply (Hbefore j page'); [lia|exact Hl].
    + constructor; assumption.
Qed.

Lemma split_app_sep (sep : ascii) (a b : str) :
  split sep (a ++ sep :: b) = split sep a ++ split sep b.
Proof.
  induction a as [|c a IH]; cbn [app split].
  - rewrite Ascii.eqb_refl. reflexivity.
  - destruct (Ascii.eqb c sep); [rewrite IH; reflexivity|].
    rewrite IH. pose proof (split_length_pos sep a) as Hpos.
    destruct (split sep a); [cbn in Hpos; lia|reflexivity].
Qed.

Lemma split_line_substring (sep : ascii) (s l : str) :
  In l (split sep s) -> exists pre post, s = pre ++ l ++ post.
Proof.
  revert l. induction s as [|c r IH]; intros l; cbn [split].
  - intros [<-|[]]. exists [], []. reflexivity.
  - destruct (Ascii.eqb c sep).
    + intros [<-|Hin].
      * exists [], (c :: r). reflexivity.
      * destruct (IH l Hin) as (pre & post & ->).
        exists (c :: pre), post. reflexivity.
    + pose proof (split_length_pos sep r) as Hpos.
      destruct (split sep r) as [|h t] eqn:E; [cbn in Hpos; lia|].
      intros [<-|Hin].
      * destruct (IH h (or_introl eq_refl)) as (pre & post & Hr).
        (* [h] is the first line of [r], so nothing comes before it *)
        assert (Hh : exists post', r = h ++ post').
        { clear -E. revert h t E. induction r as [|x r IHr]; intros h t E;
            cbn [split] in E.
          - injection E as <- <-. exists []. reflexivity.
          - destruct (Ascii.eqb x sep).
            + injection E as <- <-. exists (x :: r). reflexivity.
            + pose proof (split_length_pos sep r) as Hpos.
              destruct (split sep r) as [|h' t'] eqn:E'; [cbn in Hpos; lia|].
              injection E as <- <-. destruct (IHr h' t' eq_refl) as [post' ->].
              exists post'. reflexivity. }
        destruct Hh as [post' ->]. exists [], post'. reflexivity.
      * destruct (IH l (or_intror Hin)) as (pre & post & ->).
        exists (c :: pre), post. reflexivity.
Qed.

Lemma pdf_full_text_from (page_texts : list str) (acc : str) :
  fold_left (fun full_text page_text =>
               full_text ++ (page_text ++ [PDFLegalParser.newline]))
            page_texts acc
  = acc ++ pdf_full_text page_texts.
Proof.
  unfold pdf_full_text. revert acc.
  induction page_texts as [|p rest IH]; intros acc; cbn [fold_left].
  - rewrite app_nil_r. reflexivity.
  - rewrite IH. rewrite (IH ([] ++ _)). cbn [app].
    rewrite <- app_assoc. reflexivity.
Qed.

(** Every line of the text built from the pages is a piece of a page, or
    the empty line at the end. *)
Lemma pdf_full_text_lines (page_texts : list str) (l : str) :
  In l (split PDFLegalParser.newline (pdf_full_text page_texts)) ->
  l = [] \/ exists page pre post, In page page_texts /\ page = pre ++ l ++ post.
Proof.
  induction page_texts as [|p rest IH].
  - cbn. intros [<-|[]]. left. reflexivity.
  - unfold pdf_full_text. cbn [fold_left]. rewrite pdf_full_text_from.
    cbn [app]. rewrite <- app_assoc. cbn [app]. rewrite split_app_sep.
    intros Hin. apply in_app_or in Hin as [Hin|Hin].
    + right. destruct (split_line_substring _ _ _ Hin) as (pre & post & Hp).
      exists p, pre, post. split; [left; reflexivity|exact Hp].
    + destruct (IH Hin) as [->|(page & pre & post & Hpage & Hp)];
        [left; reflexivity|].
      right. exists page, pre, post. split; [right; exact Hpage|exact Hp].
Qed.

Lemma find_page_number_found (line : str) (page_texts : list str) :
  (exists page, In page page_texts /\ contains page line = true) ->
  exists n, PDFLegalParser._find_page_number line page_texts = Some n
            /\ 1 <= n <= length page_texts.
Proof.
  intros (page & Hin & Hc). unfold PDFLegalParser._find_page_number.
  pose proof (find_page_from_spec line page_texts 0) as H.
  destruct (PDFLegalParser.find_page_from line page_texts 0) as [n|].
  - exists n. split; [reflexivity|]. lia.
  - rewrite List.Forall_forall in H. rewrite (H page Hin) in Hc. discriminate.
Qed.

Lemma loop_body_has_page page_texts st raw :
  (strip raw = [] \/
   exists page, In page page_texts /\ contains page (strip raw) = true) ->
  Forall (has_page (length page_texts)) (PDFLegalParser.st_sections st) ->
  (forall cur, PDFLegalParser.current_section st = Some cur ->
               has_page (length page_texts) cur) ->
  let st' := PDFLegalParser.loop_body page_texts st raw in
  Forall (has_page (length page_texts)) (PDFLegalParser.st_sections st') /\
  (forall cur, PDFLegalParser.current_section st' = Some cur ->
               has_page (length page_texts) cur).
Proof.
  cbn zeta. intros Hraw Hs Hc. unfold PDFLegalParser.loop_body.
  destruct (strip raw) as [|c line] eqn:El; [split; assumption|].
  cbn [truthy negb].
  destruct Hraw as [Hraw|Hraw]; [discriminate|].
  destruct (PDFLegalParser.first_match _ _) as [[sid g2]|].
  - cbn [PDFLegalParser.st_sections PDFLegalParser.current_section]. split.
    + destruct (PDFLegalParser.current_section st) as [cur|]; [|exact Hs].
      apply Forall_app. split; [exact Hs|]. constructor; [|constructor].
      apply Hc. reflexivity.
    + intros cur H. injection H as <-.
      destruct (find_page_number_found _ _ Hraw) as (n & Hn & Hrange).
      exists n. split; [exact Hn|exact Hrange].
  - revert Hc. destruct (PDFLegalParser.current_section st) as [s|] eqn:E;
      intros Hc.
    + split; cbn; [exact Hs|exact Hc].
    + split; [exact Hs|]. intros cur H. congruence.
Qed.

(** X10.  Every section the PDF segmenter makes of the text built from the
    pages of a document has a page number, and that number is between 1
    and the number of pages. *)
Theorem pdf_sections_have_pages (page_texts : list str) :
  Forall (has_page (length page_texts))
    (PDFLegalParser._extract_sections (pdf_full_text page_texts) page_texts).
Proof.
  unfold PDFLegalParser._extract_sections.
  pose proof (pdf_full_text_lines page_texts) as Hlines.
  revert Hlines.
  generalize (split PDFLegalParser.newline (pdf_full_text page_texts)).
  intros lines Hlines.
  assert (Hinv : forall st,
            Forall (has_page (length page_texts)) (PDFLegalParser.st_sections st) ->
            (forall cur, PDFLegalParser.current_section st = Some cur ->
                         has_page (length page_texts) cur) ->
            let st' := fold_left (PDFLegalParser.loop_body page_texts) lines st in
            Forall (has_page (length page_texts)) (PDFLegalParser.st_sections st') /\
            (forall cur, PDFLegalParser.current_section st' = Some cur ->
                         has_page (length page_texts) cur)).
  { cbn zeta. induction lines as [|raw lines IH]; intros st Hs Hc;
      [split; assumption|].
    cbn [fold_left].
    destruct (loop_body_has_page page_texts st raw) as [Hs' Hc']; try assumption.
    - destruct (Hlines raw (or_introl eq_refl))
        as [->|(page & pre & post & Hpage & Hp)]; [left; reflexivity|].
      right. exists page. split; [exact Hpage|].
      apply contains_spec.
      destruct (strip_substring raw) as (p2 & q2 & Hraw).
      exists (pre ++ p2), (q2 ++ post). rewrite Hp. rewrite Hraw at 1.
      rewrite <- !app_assoc. reflexivity.
    - apply IH; [|assumption|assumption].
      intros l Hl. apply Hlines. right. exact Hl. }
  match goal with
  | |- context [fold_left ?f ?l ?i] =>
      destruct (Hinv i) as [Hs Hc]; [constructor|discriminate|];
      cbn zeta in Hs, Hc;
      destruct (fold_left f l i) as [ss cur content n]
  end.
  cbn in *. destruct cur as [cur|]; [|exact Hs].
  apply Forall_app. split; [exact Hs|]. constructor; [|constructor].
  destruct (Hc cur eq_refl) as (k & Hk & Hrange). exists k. auto.
Qed.

Lemma isupper_not_space c : isupper c = true -> isspace c = false.
Proof. destruct c as [[] [] [] [] [] [] [] []]; vm_compute; auto. Qed.

Lemma bind_some {A B} (m : option A) (f : A -> option B) (b : B) :
  m ≫= f = Some b -> exists a, m = Some a /\ f a = Some b.
Proof. destruct m as [a|]; [eauto|discriminate]. Qed.

(** What a match of a section pattern looks like: an identifier of digits,
    capitals and dots that is not empty, and a second group that begins
    with a capital. *)
Lemma first_match_shape (line sid g2 : str) :
  PDFLegalParser.first_match PDFLegalParser.section_patterns line
  = Some (sid, g2) ->
  sid <> [] /\ forallb is_id_char sid = true /\
  exists u body, g2 = u :: body /\ isupper u = true.
Proof.
  assert (Hdig : forall l : str, Forall (fun c => isdigit c = true) l ->
                   forallb is_id_char l = true).
  { intros l Hl. apply forallb_forall. rewrite List.Forall_forall in Hl.
    intros c Hc. unfold is_id_char. rewrite (Hl c Hc). reflexivity. }
  assert (Hup : forall l : str, Forall (fun c => isupper c = true) l ->
                  forallb is_id_char l = true).
  { intros l Hl. apply forallb_forall. rewrite List.Forall_forall in Hl.
    intros c Hc. unfold is_id_char. rewrite (Hl c Hc), orb_true_r. reflexivity. }
  unfold PDFLegalParser.section_patterns.
  cbn [PDFLegalParser.first_match].
  destruct (PDFLegalParser.pattern_numbered line) as [m1|] eqn:E1.
  { intros H. injection H as ->. unfold PDFLegalParser.pattern_numbered in E1.
    apply bind_some in E1 as ([num r1] & Hn & E1).
    apply bind_some in E1 as ([? r2] & _ & E1).
    apply bind_some in E1 as ([? r3] & _ & E1).
    apply bind_some in E1 as ([u r4] & Hu & E1).
    apply bind_some in E1 as ([body r5] & _ & E1).
    apply bind_some in E1 as ([? r6] & _ & E1).
    injection E1 as <- <-.
    apply many1_spec in Hn as (_ & Hne & Hd). apply one_spec in Hu as [_ Hu].
    split; [exact Hne|]. split; [apply Hdig, Hd|eauto]. }
  destruct (PDFLegalParser.pattern_dotted line) as [m2|] eqn:E2.
  { intros H. injection H as ->. unfold PDFLegalParser.pattern_dotted in E2.
    apply bind_some in E2 as ([n1 r1] & Hn1 & E2).
    apply bind_some in E2 as ([? r2] & _ & E2).
    apply bind_some in E2 as ([n2 r3] & Hn2 & E2).
    apply bind_some in E2 as ([? r4] & _ & E2).
    apply bind_some in E2 as ([u r5] & Hu & E2).
    apply bind_some in E2 as ([body r6] & _ & E2).
    injection E2 as <- <-.
    apply many1_spec in Hn1 as (_ & Hne & Hd1).
    apply many1_spec in Hn2 as (_ & _ & Hd2). apply one_spec in Hu as [_ Hu].
    split; [destruct n1; [congruence|discriminate]|].
    split; [|eauto].
    rewrite forallb_app. cbn [app forallb].
    rewrite (Hdig _ Hd1), (Hdig _ Hd2). reflexivity. }
  destruct (PDFLegalParser.pattern_lettered line) as [m3|] eqn:E3; [|discriminate].
  intros H. injection H as ->. unfold PDFLegalParser.pattern_lettered in E3.
  apply bind_some in E3 as ([letters r1] & Hl & E3).
  apply bind_some in E3 as ([? r2] & _ & E3).
  apply bind_some in E3 as ([? r3] & _ & E3).
  apply bind_some in E3 as ([u r4] & Hu & E3).
  apply bind_some in E3 as ([body r5] & _ & E3).
  injection E3 as <- <-.
  apply many1_spec in Hl as (_ & Hne & Hd). apply one_spec in Hu as [_ Hu].
  split; [exact Hne|]. split; [apply Hup, Hd|eauto].
Qed.

(** X11.  Every section of the PDF segmenter has an identifier that is not
    empty and is made of digits, capital letters and dots, and a title that
    begins with a capital letter. *)
Theorem pdf_sections_well_formed (full_text : str) (page_texts : list str) :
  Forall (fun s =>
            id s <> [] /\ forallb is_id_char (id s) = true /\
            exists u rest, title s = u :: rest /\ isupper u = true)
    (PDFLegalParser._extract_sections full_text page_texts).
Proof.
  pose proof (pdf_sections_headings full_text page_texts) as H.
  assert (Hh : Forall (fun it : str * str =>
                         fst it <> [] /\ forallb is_id_char (fst it) = true /\
                         exists u rest, snd it = u :: rest /\ isupper u = true)
                 (map (fun m => (fst m, strip (snd m))) (heading_lines full_text))).
  { apply Forall_map. apply List.Forall_forall. intros [sid g2] Hin.
    unfold heading_lines in Hin. apply list_elem_of_In in Hin.
    apply list_elem_of_omap in Hin as (raw & _ & Hm).
    apply first_match_shape in Hm as (Hne & Hid & u & body & -> & Hu).
    cbn [fst snd]. split; [exact Hne|]. split; [exact Hid|].
    destruct (strip_head u body (isupper_not_space u Hu)) as [rest ->].
    eauto. }
  rewrite <- H in Hh. apply Forall_map in Hh. exact Hh.
Qed.

(** ** The XML segmenter *)

Lemma following_parts_stop (paras : list XMLLegalParser.Element) h more :
  XMLLegalParser.is_header h = true ->
  XMLLegalParser.following_parts (paras ++ h :: more)
  = XMLLegalParser.following_parts paras.
Proof.
  intros Hh. induction paras as [|p paras IH]; cbn [app XMLLegalParser.following_parts].
  - rewrite Hh. reflexivity.
  - destruct (XMLLegalParser.is_header p); [reflexivity|].
    rewrite IH. reflexivity.
Qed.

(** A section depends on the paragraphs of the document only through what
    follows its header. *)
Lemma section_of_following (all all' : list XMLLegalParser.Element) i i' elem :
  XMLLegalParser.following_parts (skipn (i + 1) all)
  = XMLLegalParser.following_parts (skipn (i' + 1) all') ->
  XMLLegalParser.section_of all i elem = XMLLegalParser.section_of all' i' elem.
Proof.
  intros H. unfold XMLLegalParser.section_of, XMLLegalParser._get_section_content.
  rewrite H. reflexivity.
Qed.

Lemma enumerate_from_app {A} (l1 l2 : list A) k :
  combine (seq k (length (l1 ++ l2))) (l1 ++ l2)
  = combine (seq k (length l1)) l1
    ++ combine (seq (k + length l1) (length l2)) l2.
Proof.
  revert k. induction l1 as [|x l1 IH]; intros k; cbn [app length seq combine].
  - rewrite Nat.add_0_r. reflexivity.
  - rewrite IH. replace (S k + length l1) with (k + S (length l1)) by lia.
    reflexivity.
Qed.

Lemma omap_ext_in {A B} (f g : A -> option B) (l : list A) :
  (forall x, In x l -> f x = g x) -> omap f l = omap g l.
Proof.
  induction l as [|x l IH]; intros H; [reflexivity|]. cbn [omap list_omap].
  rewrite (H x (or_introl eq_refl)), IH; [reflexivity|].
  intros y Hy. apply H. right. exact Hy.
Qed.

Lemma omap_of_map {A B C} (f : B -> option C) (g : A -> B) (l : list A) :
  omap f (map g l) = omap (fun x => f (g x)) l.
Proof.
  induction l as [|x l IH]; [reflexivity|]. cbn [map omap list_omap].
  rewrite IH. reflexivity.
Qed.

Lemma in_enumerate_from {A} (l : list A) k i x :
  In (i, x) (combine (seq k (length l)) l) ->
  k <= i /\ l !! (i - k) = Some x.
Proof.
  intros H. apply list_elem_of_In, list_elem_of_lookup_1 in H as [j Hj].
  rewrite lookup_enumerate_from in Hj.
  destruct (l !! j) as [y|] eqn:E; [|discriminate]. cbn in Hj.
  injection Hj as <- <-. split; [lia|]. replace (k + j - k) with j by lia. exact E.
Qed.

(** X12.  Segmenting composes at a header: the sections of some
    paragraphs followed by a header paragraph and more are the sections of
    the paragraphs before the header, then the sections of the rest. *)
Theorem xml_sections_compose (paras : list XMLLegalParser.Element)
    (h : XMLLegalParser.Element) (more : list XMLLegalParser.Element) :
  XMLLegalParser.is_header h = true ->
  XMLLegalParser._extract_sections (paras ++ h :: more)
  = XMLLegalParser._extract_sections paras
    ++ XMLLegalParser._extract_sections (h :: more).
Proof.
  intros Hh. unfold XMLLegalParser._extract_sections, enumerate.
  rewrite enumerate_from_app, omap_app. f_equal.
  - apply omap_ext_in. intros [i e] Hin. cbn [fst snd].
    apply in_enumerate_from in Hin as [_ Hi]. rewrite Nat.sub_0_r in Hi.
    apply lookup_lt_Some in Hi.
    apply section_of_following.
    rewrite skipn_app.
    replace (i + 1 - length paras) with 0 by lia. cbn [skipn].
    apply following_parts_stop, Hh.
  - cbn [Nat.add].
    assert (Hshift : forall (l : list XMLLegalParser.Element) k,
              combine (seq k (length l)) l
              = map (fun ie => (k + fst ie, snd ie)) (combine (seq 0 (length l)) l)).
    { intros l k. apply list_eq. intros j.
      rewrite list_lookup_fmap, !lookup_enumerate_from.
      destruct (l !! j); reflexivity. }
    rewrite (Hshift (h :: more) (length paras)).
    rewrite omap_of_map. apply omap_ext_in. intros [j e] Hin. cbn [fst snd].
    apply section_of_following.
    rewrite skipn_app, skipn_all2 by lia. cbn [app]. f_equal. f_equal. lia.
Qed.

Lemma xml_sections_compose_witness :
  XMLLegalParser._extract_sections sample_paragraphs
  = XMLLegalParser._extract_sections (firstn 2 sample_paragraphs)
    ++ XMLLegalParser._extract_sections (skipn 2 sample_paragraphs).
Proof.
  apply (xml_sections_compose (firstn 2 sample_paragraphs)
           {| XMLLegalParser.xml_id := Some (lit "H_2");
              XMLLegalParser.base := None;
              XMLLegalParser.toc_number := Some (lit "1.2");
              XMLLegalParser.text_content := lit "Closing" |}
           (skipn 3 sample_paragraphs)).
  reflexivity.
Defined.

Lemma xml_extract_sections_cons (elem : XMLLegalParser.Element)
    (rest : list XMLLegalParser.Element) :
  XMLLegalParser._extract_sections (elem :: rest)
  = match XMLLegalParser.section_of (elem :: rest) 0 elem with
    | Some s => [s] | None => []
    end ++ XMLLegalParser._extract_sections rest.
Proof.
  unfold XMLLegalParser._extract_sections, enumerate.
  cbn [length seq combine omap list_omap fst snd].
  assert (Hrest : omap (fun ie => XMLLegalParser.section_of (elem :: rest)
                                    (fst ie) (snd ie))
                       (combine (seq 1 (length rest)) rest)
                  = omap (fun ie => XMLLegalParser.section_of rest (fst ie) (snd ie))
                         (combine (seq 0 (length rest)) rest)).
  { assert (Hshift : combine (seq 1 (length rest)) rest
                     = map (fun ie => (1 + fst ie, snd ie))
                           (combine (seq 0 (length rest)) rest)).
    { apply list_eq. intros j.
      rewrite list_lookup_fmap, !lookup_enumerate_from.
      destruct (rest !! j); reflexivity. }
    rewrite Hshift, omap_of_map. apply omap_ext_in. intros [j e] _.
    cbn [fst snd]. apply section_of_following. reflexivity. }
  rewrite Hrest.
  destruct (XMLLegalParser.section_of (elem :: rest) 0 elem); reflexivity.
Qed.

(** With an [xml:id] that is not empty when it is there, the paragraphs
    that start a section are the headers. *)
Lemma section_of_header (all : list XMLLegalParser.Element) i elem :
  XMLLegalParser.xml_id elem <> Some [] ->
  match XMLLegalParser.section_of all i elem with
  | Some s =>
      XMLLegalParser.is_header elem = true /\
      text s = join [space]
                 (xml_header_text elem
                  :: XMLLegalParser.following_parts (skipn (i + 1) all))
  | None => XMLLegalParser.is_header elem = false
  end.
Proof.
  intros Hid. unfold XMLLegalParser.section_of, XMLLegalParser.is_header.
  destruct (XMLLegalParser.xml_id elem) as [[|c xid]|]; [congruence| |reflexivity].
  cbn [XMLLegalParser.get_or_empty truthy andb].
  rewrite (orb_comm (truthy (XMLLegalParser.get_or_empty (XMLLegalParser.toc_number elem)))).
  destruct (truthy (XMLLegalParser.get_or_empty (XMLLegalParser.base elem))
            || truthy (XMLLegalParser.get_or_empty (XMLLegalParser.toc_number elem)));
    [|reflexivity].
  split; reflexivity.
Qed.

Lemma xml_parts_following (paras : list XMLLegalParser.Element) :
  xml_parts paras
  = XMLLegalParser.following_parts paras ++ xml_parts (from_first_header paras).
Proof.
  induction paras as [|elem rest IH]; [reflexivity|].
  cbn [xml_parts XMLLegalParser.following_parts from_first_header].
  destruct (XMLLegalParser.is_header elem) eqn:Eh.
  - cbn [app xml_parts]. rewrite Eh. reflexivity.
  - rewrite IH. destruct (truthy (strip (XMLLegalParser.text_content elem)));
      reflexivity.
Qed.

Lemma join_cons_join (sep : str) (parts rest : list str) (texts : list str) :
  parts <> [] ->
  (texts = [] <-> rest = []) ->
  join sep texts = join sep rest ->
  join sep (join sep parts :: texts) = join sep (parts ++ rest).
Proof.
  intros Hne Hiff Hj. destruct texts as [|t texts].
  - rewrite (proj1 Hiff eq_refl), app_nil_r. reflexivity.
  - destruct rest as [|r rest]; [pose proof (proj2 Hiff eq_refl); discriminate|].
    change (join sep (join sep parts :: t :: texts))
      with (join sep parts ++ sep ++ join sep (t :: texts)).
    rewrite Hj. clear -Hne.
    induction parts as [|p parts IH]; [congruence|].
    destruct parts as [|p2 parts]; [reflexivity|].
    change (join sep ((p :: p2 :: parts) ++ r :: rest))
      with (p ++ sep ++ join sep ((p2 :: parts) ++ r :: rest)).
    rewrite <- IH by discriminate.
    change (join sep (p :: p2 :: parts)) with (p ++ sep ++ join sep (p2 :: parts)).
    rewrite <- !app_assoc. reflexivity.
Qed.

(** X13.  When no paragraph has an empty [xml:id], the texts of the
    sections of the XML segmenter, joined by spaces, are what the
    paragraphs from the first header on bring, in document order, joined by
    spaces: nothing after the first header is left out and nothing is
    taken twice. *)
Theorem xml_sections_cover (paras : list XMLLegalParser.Element) :
  Forall (fun elem => XMLLegalParser.xml_id elem <> Some []) paras ->
  join [space] (map text (XMLLegalParser._extract_sections paras))
  = join [space] (xml_parts (from_first_header paras)).
Proof.
  intros Hids.
  assert (H : (map text (XMLLegalParser._extract_sections paras) = []
               <-> xml_parts (from_first_header paras) = []) /\
              join [space] (map text (XMLLegalParser._extract_sections paras))
              = join [space] (xml_parts (from_first_header paras))).
  { induction Hids as [|elem rest Hid Hrest [IHe IHj]];
      [split; [tauto|reflexivity]|].
    rewrite xml_extract_sections_cons. cbn [from_first_header].
    pose proof (section_of_header (elem :: rest) 0 elem Hid) as Hs.
    destruct (XMLLegalParser.section_of (elem :: rest) 0 elem) as [s|].
    - destruct Hs as [Hh Ht]. rewrite Hh. cbn [app map xml_parts]. rewrite Hh.
      cbn [skipn Nat.add] in Ht. rewrite Ht. cbn [app].
      rewrite (xml_parts_following rest).
      split; [split; discriminate|].
      change (xml_header_text elem
              :: XMLLegalParser.following_parts rest
                 ++ xml_parts (from_first_header rest))
        with ((xml_header_text elem :: XMLLegalParser.following_parts rest)
              ++ xml_parts (from_first_header rest)).
      apply join_cons_join; [discriminate|exact IHe|exact IHj].
    - rewrite Hs. cbn [app]. split; assumption. }
  apply H.
Qed.

Lemma xml_sections_cover_witness :
  join [space] (map text (XMLLegalParser._extract_sections sample_paragraphs))
  = lit "1.1 Purchase Price The price is fixed 1.2 Closing Closing occurs in May".
Proof.
  apply (xml_sections_cover sample_paragraphs).
  repeat constructor; discriminate.
Defined.

(** ** Corpus statistics *)

Lemma occurrences_snoc key keys k :
  occurrences key (keys ++ [k])
  = occurrences key keys + (if bool_decide (k = key) then 1 else 0).
Proof.
  unfold occurrences. rewrite List.filter_app, length_app. cbn [List.filter].
  destruct (bool_decide (k = key)); reflexivity.
Qed.

Lemma count_one_counts keys counts k :
  counts_of keys counts -> counts_of (keys ++ [k]) (count_one counts k).
Proof.
  intros H key. unfold count_one. rewrite occurrences_snoc.
  destruct (decide (k = key)) as [->|Hne].
  - rewrite lookup_insert_eq, H, bool_decide_eq_true_2 by reflexivity.
    destruct (occurrences key keys) as [|n]; reflexivity.
  - rewrite lookup_insert_ne by exact Hne.
    rewrite bool_decide_eq_false_2 by exact Hne.
    rewrite Nat.add_0_r. apply H.
Qed.

Lemma fold_count_one_counts {A} (key_of : A -> str) (items : list A) :
  forall keys counts,
    counts_of keys counts ->
    counts_of (keys ++ map key_of items)
              (fold_left (fun counts item => count_one counts (key_of item))
                         items counts).
Proof.
  induction items as [|item items IH]; intros keys counts H.
  - cbn [map fold_left]. rewrite app_nil_r. exact H.
  - cbn [map fold_left].
    change (key_of item :: map key_of items)
      with ([key_of item] ++ map key_of items).
    rewrite app_assoc. apply IH, count_one_counts, H.
Qed.

Lemma total_count_one counts k :
  total_count (count_one counts k) = S (total_count counts).
Proof.
  unfold total_count, count_one.
  destruct (counts !! k) as [n|] eqn:E.
  - rewrite <- (insert_delete_eq counts k (default 0 (Some n) + 1)).
    rewrite <- (insert_delete_id counts k n E) at 2.
    rewrite !map_fold_insert_L by
      (try (intros; lia); apply lookup_delete_eq).
    unfold default, from_option, Datatypes.id. lia.
  - rewrite map_fold_insert_L; [reflexivity|intros; lia|exact E].
Qed.

Lemma total_fold_count_one {A} (key_of : A -> str) (items : list A) :
  forall counts,
    total_count (fold_left (fun counts item => count_one counts (key_of item))
                           items counts)
    = total_count counts + length items.
Proof.
  induction items as [|item items IH]; intros counts; cbn [fold_left length].
  - lia.
  - rewrite IH, total_count_one. lia.
Qed.

Lemma corpus_clause_types_snoc done doc :
  corpus_clause_types (done ++ [doc])
  = corpus_clause_types done
    ++ map (fun section => ClauseType_value (clause_type section)) (sections doc).
Proof.
  unfold corpus_clause_types. rewrite map_app, concat_app. cbn [map concat].
  rewrite app_nil_r. reflexivity.
Qed.

Lemma list_sum_snoc (l : list nat) (n : nat) :
  list_sum (l ++ [n]) = list_sum l + n.
Proof. rewrite list_sum_app. simpl. lia. Qed.

Lemma count_document_counted done stats doc :
  counted done stats -> counted (done ++ [doc]) (count_document stats doc).
Proof.
  intros (Hi & Hj & Hd & Hc & Ti & Tj & Td & Tc).
  unfold counted, count_document.
  cbn [industries jurisdictions document_types clause_types].
  rewrite !map_app, corpus_clause_types_snoc, length_app.
  cbn [map length]. rewrite list_sum_snoc.
  rewrite !total_count_one, total_fold_count_one, Ti, Tj, Td, Tc.
  repeat split; try lia.
  - apply count_one_counts, Hi.
  - apply count_one_counts, Hj.
  - apply count_one_counts, Hd.
  - apply (fold_count_one_counts
             (fun section => ClauseType_value (clause_type section))), Hc.
Qed.

Lemma count_document_totals stats doc :
  total_documents (count_document stats doc) = total_documents stats
  /\ total_sections (count_document stats doc) = total_sections stats
  /\ total_definitions (count_document stats doc) = total_definitions stats.
Proof. repeat split. Qed.

Lemma fold_count_document documents :
  forall done stats,
    counted done stats ->
    counted (done ++ documents) (fold_left count_document documents stats)
    /\ total_documents (fold_left count_document documents stats)
       = total_documents stats
    /\ total_sections (fold_left count_document documents stats)
       = total_sections stats
    /\ total_definitions (fold_left count_document documents stats)
       = total_definitions stats.
Proof.
  induction documents as [|doc documents IH]; intros done stats H.
  - cbn [fold_left]. rewrite app_nil_r. split; [exact H|repeat split].
  - cbn [fold_left].
    change (doc :: documents) with ([doc] ++ documents). rewrite app_assoc.
    destruct (IH _ _ (count_document_counted done stats doc H))
      as (Hc & H1 & H2 & H3).
    split; [exact Hc|].
    destruct (count_document_totals stats doc) as (E1 & E2 & E3).
    rewrite H1, H2, H3, E1, E2, E3. repeat split.
Qed.

Lemma counted_nil stats :
  industries stats = ∅ -> jurisdictions stats = ∅ ->
  document_types stats = ∅ -> clause_types stats = ∅ ->
  counted [] stats.
Proof.
  intros Hi Hj Hd Hc. unfold counted, counts_of, total_count.
  rewrite Hi, Hj, Hd, Hc, !map_fold_empty.
  repeat split; intros; apply lookup_empty.
Qed.

Lemma get_corpus_stats_counted documents :
  counted documents (get_corpus_stats documents)
  /\ total_documents (get_corpus_stats documents) = length documents
  /\ total_sections (get_corpus_stats documents)
     = list_sum (map (fun doc => length (sections doc)) documents)
  /\ total_definitions (get_corpus_stats documents)
     = list_sum (map (fun doc => length (doc_definitions doc)) documents).
Proof.
  unfold get_corpus_stats.
  apply (fold_count_document documents []).
  apply counted_nil; reflexivity.
Qed.

(** X14.  Each histogram of [get_corpus_stats] holds, for each key, the
    number of documents (for clause types: of sections of the documents)
    that have it, and has no entry for a key that none has. *)
Theorem corpus_stats_histograms (documents : list LegalDocument) :
  let stats := get_corpus_stats documents in
  counts_of (map (fun doc => industry (metadata doc)) documents)
            (industries stats)
  /\ counts_of (map (fun doc => jurisdiction (metadata doc)) documents)
               (jurisdictions stats)
  /\ counts_of (map (fun doc => document_type (metadata doc)) documents)
               (document_types stats)
  /\ counts_of (corpus_clause_types documents) (clause_types stats).
Proof.
  destruct (get_corpus_stats_counted documents)
    as ((Hi & Hj & Hd & Hc & _) & _).
  cbv zeta. repeat split; assumption.
Qed.

(** X15.  The counts of the statistics agree with each other: those of
    the industries, of the jurisdictions and of the document types each sum
    to the number of documents, and those of the clause types to the number
    of sections. *)
Theorem corpus_stats_totals (documents : list LegalDocument) :
  let stats := get_corpus_stats documents in
  total_documents stats = length documents
  /\ total_count (industries stats) = total_documents stats
  /\ total_count (jurisdictions stats) = total_documents stats
  /\ total_count (document_types stats) = total_documents stats
  /\ total_count (clause_types stats) = total_sections stats.
Proof.
  destruct (get_corpus_stats_counted documents)
    as ((_ & _ & _ & _ & Ti & Tj & Td & Tc) & Hn & Hs & _).
  cbv zeta. rewrite Hn, Hs. repeat split; assumption.
Qed.

(** ** Document identifiers *)

Lemma replace_from_chars (old s : str) (c : ascii) :
  forall skip, In c (replace_from old [] s skip) -> In c s.
Proof.
  induction s as [|x r IH]; intros skip; cbn [replace_from]; [tauto|].
  destruct skip as [|k].
  - destruct (startswith (x :: r) old).
    + cbn [app]. intros H. right. exact (IH _ H).
    + intros [H|H]; [left; exact H|right; exact (IH _ H)].
  - intros H. right. exact (IH _ H).
Qed.

Lemma last_app_cons {A} (l1 : list A) (h : A) (t : list A) (d : A) :
  List.last (l1 ++ h :: t) d = List.last (h :: t) d.
Proof.
  induction l1 as [|x l1 IH]; [reflexivity|].
  change ((x :: l1) ++ h :: t) with (x :: (l1 ++ h :: t)).
  destruct (l1 ++ h :: t) eqn:E; [destruct l1; discriminate|].
  rewrite <- IH. reflexivity.
Qed.

Lemma last_split_app (sep : ascii) (a b : str) :
  List.last (split sep (a ++ sep :: b)) [] = List.last (split sep b) [].
Proof.
  rewrite split_app_sep.
  pose proof (split_length_pos sep b) as Hpos.
  destruct (split sep b) as [|h t] eqn:E; [cbn in Hpos; lia|].
  apply last_app_cons.
Qed.

Lemma last_split_no_sep (sep : ascii) (s : str) :
  ~ In sep (List.last (split sep s) []).
Proof.
  pose proof (split_no_sep sep s) as Hall.
  pose proof (split_length_pos sep s) as Hpos.
  destruct (split sep s) as [|h t] eqn:E; [cbn in Hpos; lia|].
  rewrite List.Forall_forall in Hall. apply Hall.
  destruct (@exists_last _ (h :: t)) as (l' & a & El); [discriminate|].
  rewrite El, List.last_last. apply in_or_app. right. left. reflexivity.
Qed.

Lemma split_none (sep : ascii) (s : str) : ~ In sep s -> split sep s = [s].
Proof.
  induction s as [|c r IH]; intros Hn; [reflexivity|]. cbn [split].
  destruct (Ascii.eqb_spec c sep) as [->|Hne]; [destruct Hn; left; reflexivity|].
  rewrite IH; [reflexivity|]. intros H. apply Hn. right. exact H.
Qed.

Lemma replace_from_skip (old new s : str) (skip : nat) :
  length s <= skip -> replace_from old new s skip = [].
Proof.
  revert skip. induction s as [|c r IH]; intros skip Hlen; [reflexivity|].
  cbn [length] in Hlen. destruct skip as [|k]; [lia|].
  cbn [replace_from]. apply IH. lia.
Qed.

Lemma replace_suffix (ext name : str) :
  ~ In dot name ->
  str_replace (dot :: ext) [] (name ++ dot :: ext) = name.
Proof.
  unfold str_replace. induction name as [|c r IH]; intros Hn.
  - cbn [app replace_from].
    assert (Hs : startswith (dot :: ext) (dot :: ext) = true).
    { apply startswith_spec. exists []. rewrite app_nil_r. reflexivity. }
    rewrite Hs. cbn [app length Nat.sub]. rewrite Nat.sub_0_r.
    apply replace_from_skip. lia.
  - cbn [app replace_from startswith].
    destruct (Ascii.eqb_spec dot c) as [<-|Hne]; [destruct Hn; left; reflexivity|].
    cbn [andb]. rewrite IH; [reflexivity|]. intros H. apply Hn. right. exact H.
Qed.

(** X16.  The document identifier that the parsers derive from the path
    of the source file never contains a slash, and only depends on what
    follows the last slash of the path. *)
Theorem document_id_base_name (source_file dir rest : str) :
  ~ In slash (pdf_document_id source_file)
  /\ ~ In slash (xml_document_id source_file)
  /\ pdf_document_id (dir ++ slash :: rest) = pdf_document_id rest
  /\ xml_document_id (dir ++ slash :: rest) = xml_document_id rest.
Proof.
  unfold pdf_document_id, xml_document_id, document_id_of, str_replace.
  rewrite !last_split_app. repeat split.
  - intros H. apply replace_from_chars in H.
    exact (last_split_no_sep slash source_file H).
  - intros H. apply replace_from_chars in H.
    exact (last_split_no_sep slash source_file H).
Qed.

(** X17.  For a source file [dir/name.pdf] (or [dir/name.xml]) whose
    [name] has no slash and no dot, the document identifier is [name]. *)
Theorem document_id_of_file (dir name : str) :
  ~ In slash name -> ~ In dot name ->
  pdf_document_id (dir ++ slash :: name ++ lit ".pdf") = name
  /\ xml_document_id (dir ++ slash :: name ++ lit ".xml") = name.
Proof.
  intros Hslash Hdot.
  unfold pdf_document_id, xml_document_id, document_id_of.
  rewrite !last_split_app.
  assert (Hs : forall ext, ~ In slash ext ->
                 split slash (name ++ dot :: ext) = [name ++ dot :: ext]).
  { intros ext Hext. apply split_none. intros H.
    apply in_app_or in H as [H|[H|H]]; [auto|discriminate|auto]. }
  split.
  - change (lit ".pdf") with (dot :: lit "pdf").
    rewrite Hs; [apply replace_suffix, Hdot|].
    cbn. intros [H|[H|[H|[]]]]; discriminate.
  - change (lit ".xml") with (dot :: lit "xml").
    rewrite Hs; [apply replace_suffix, Hdot|].
    cbn. intros [H|[H|[H|[]]]]; discriminate.
Qed.

Lemma document_id_of_file_witness :
  pdf_document_id (lit "contracts/ppa.pdf") = lit "ppa"
  /\ xml_document_id (lit "contracts/ppa.xml") = lit "ppa".
Proof.
  apply (document_id_of_file (lit "contracts") (lit "ppa")).
  - cbn. intros [H|[H|[H|[]]]]; discriminate.
  - cbn. intros [H|[H|[H|[]]]]; discriminate.
Defined.

(** ** Dates *)

Lemma int_of_uint (d : Decimal.uint) (acc : nat) :
  fold_left (fun n c => 10 * n + (code c - 48))
            (list_ascii_of_string (NilEmpty.string_of_uint d)) acc
  = Nat.of_uint_acc d acc.
Proof.
  revert acc.
  induction d as [|d IH|d IH|d IH|d IH|d IH|d IH|d IH|d IH|d IH|d IH];
    intros acc; [reflexivity|..];
    cbn [NilEmpty.string_of_uint list_ascii_of_string fold_left Nat.of_uint_acc];
    rewrite IH, Nat.tail_mul_spec; f_equal; vm_compute code; lia.
Qed.

(** Reading the decimal numeral of a number gives the number back. *)
Lemma int_str_of_nat (n : nat) : int (str_of_nat n) = n.
Proof.
  unfold int, str_of_nat. rewrite int_of_uint.
  exact (Unsigned.of_to n).
Qed.

Lemma span_app_stop (p : ascii -> bool) (a b : str) :
  Forall (fun c => p c = true) a ->
  match b with [] => True | c :: _ => p c = false end ->
  span p (a ++ b) = (a, b).
Proof.
  intros Ha Hb. induction Ha as [|c a Hc Ha IH]; cbn [app].
  - destruct b as [|c b]; [reflexivity|]. cbn [span]. rewrite Hb. reflexivity.
  - cbn [span]. rewrite Hc, IH. reflexivity.
Qed.

Lemma many1_app_stop (p : ascii -> bool) (c : ascii) (a b : str) :
  Forall (fun c => p c = true) (c :: a) ->
  match b with [] => True | c :: _ => p c = false end ->
  many1 p ((c :: a) ++ b) = Some (c :: a, b).
Proof.
  intros Ha Hb. unfold many1. rewrite (span_app_stop p (c :: a) b Ha Hb).
  reflexivity.
Qed.

Lemma one_head (p : ascii -> bool) (c : ascii) (r : str) :
  p c = true -> one p (c :: r) = Some (c, r).
Proof. intros H. cbn [one]. rewrite H. reflexivity. Qed.

Lemma strip_trimmed (c e : ascii) (mid : str) :
  isspace c = false -> isspace e = false ->
  strip (c :: mid ++ [e]) = c :: mid ++ [e].
Proof.
  intros Hc He. unfold strip, rstrip. cbn [lstrip]. rewrite Hc.
  rewrite app_comm_cons, rev_app_distr. cbn [rev app lstrip]. rewrite He.
  cbn [rev]. rewrite rev_app_distr, rev_involutive. reflexivity.
Qed.

Lemma is_letter_not_space c : is_letter c = true -> isspace c = false.
Proof. destruct c as [[] [] [] [] [] [] [] []]; vm_compute; auto. Qed.

Lemma lower_letter c : islower (lower_char c) = true -> is_letter c = true.
Proof. destruct c as [[] [] [] [] [] [] [] []]; vm_compute; auto. Qed.

Lemma dict_get_In {V} (d : list (str * V)) (key : str) (v : V) :
  dict_get d key = Some v -> In (key, v) d.
Proof.
  induction d as [|[k w] d IH]; cbn [dict_get]; [discriminate|].
  destruct (bool_decide (k = key)) eqn:E.
  - apply bool_decide_eq_true_1 in E as ->. intros H. injection H as ->.
    left. reflexivity.
  - intros H. right. exact (IH H).
Qed.

(** The names of the months are made of small letters and are not empty,
    and their numbers go from 1 to 12. *)
Lemma months_shape (key : str) (m : nat) :
  In (key, m) months ->
  forallb islower key = true /\ key <> [] /\ 1 <= m <= 12.
Proof.
  unfold months. cbn [In]. intros H.
  repeat (destruct H as [H|H];
          [injection H as <- <-;
           split; [vm_compute; reflexivity|split; [discriminate|lia]]|]).
  destruct H.
Qed.

Lemma lower_letters (name : str) :
  forallb islower (lower name) = true ->
  Forall (fun c => is_letter c = true) name.
Proof.
  induction name as [|c name IH]; cbn [lower map forallb]; [constructor|].
  intros H. apply andb_prop in H as [Hc Hr].
  constructor; [apply lower_letter, Hc|apply IH, Hr].
Qed.

(** The numeral of a number below 100 has one or two digits, that of a
    number from 1000 to 9999 has four. *)
Lemma str_of_nat_day (d : nat) :
  d < 100 ->
  exists d1 ds, str_of_nat d = d1 :: ds /\ isdigit d1 = true /\
    (ds = [] \/ exists d2, ds = [d2] /\ isdigit d2 = true).
Proof.
  intros Hd.
  assert (Hall : forallb (fun d => (1 <=? length (str_of_nat d))
                                   && (length (str_of_nat d) <=? 2))
                         (seq 0 100) = true) by (vm_compute; reflexivity).
  rewrite forallb_forall in Hall.
  specialize (Hall d (proj2 (in_seq _ _ _) (conj (Nat.le_0_l d) Hd))).
  apply andb_prop in Hall as [H1 H2].
  apply Nat.leb_le in H1, H2.
  pose proof (str_of_nat_digits d) as Hdig.
  destruct (str_of_nat d) as [|d1 [|d2 [|d3 ds]]]; cbn [length] in *; try lia.
  - exists d1, []. inversion Hdig; subst. auto.
  - exists d1, [d2]. inversion Hdig as [|? ? Hd1 Hr]; subst.
    inversion Hr; subst. eauto 6.
Qed.

Lemma str_of_nat_year (y : nat) :
  1000 <= y <= MAXYEAR ->
  exists y1 y2 y3 y4,
    str_of_nat y = [y1; y2; y3; y4] /\
    isdigit y1 = true /\ isdigit y2 = true /\ isdigit y3 = true /\
    isdigit y4 = true.
Proof.
  intros Hy.
  assert (Hall : forallb (fun y => length (str_of_nat y) =? 4)
                         (seq 1000 (90 * 100)) = true)
    by (vm_compute; reflexivity).
  rewrite forallb_forall in Hall.
  assert (Hin : In y (seq 1000 (90 * 100))).
  { apply in_seq. unfold MAXYEAR in Hy. lia. }
  specialize (Hall y Hin). apply Nat.eqb_eq in Hall.
  pose proof (str_of_nat_digits y) as Hdig.
  destruct (str_of_nat y) as [|y1 [|y2 [|y3 [|y4 [|y5 ys]]]]];
    cbn [length] in Hall; try discriminate.
  exists y1, y2, y3, y4.
  inversion Hdig as [|? ? H1 Hr1]; subst. inversion Hr1 as [|? ? H2 Hr2]; subst.
  inversion Hr2 as [|? ? H3 Hr3]; subst. inversion Hr3 as [|? ? H4 Hr4]; subst.
  auto 6.
Qed.

Lemma mk_datetime_valid (y m d : nat) :
  MINYEAR <= y <= MAXYEAR -> 1 <= m <= 12 -> 1 <= d <= days_in_month y m ->
  mk_datetime y m d = Some {| year := y; month := m; day := d |}.
Proof.
  intros [Hy1 Hy2] [Hm1 Hm2] [Hd1 Hd2]. unfold mk_datetime.
  apply Nat.leb_le in Hy1, Hy2, Hm1, Hm2, Hd1, Hd2.
  rewrite Hy1, Hy2, Hm1, Hm2, Hd1, Hd2. reflexivity.
Qed.

(** X18.  [_parse_date_string] reads a date written as the name of the
    month (in any case), the day of the month and a year of four digits,
    [September 27, 2017], back as that date. *)
Theorem parse_date_string_round_trip (name : str) (y m d : nat) :
  dict_get months (lower name) = Some m ->
  1000 <= y <= MAXYEAR ->
  1 <= d <= days_in_month y m ->
  PDFDates._parse_date_string
    (name ++ space :: str_of_nat d ++ comma :: space :: str_of_nat y)
  = Some {| year := y; month := m; day := d |}.
Proof.
  intros Hm Hy Hd.
  pose proof (months_shape _ _ (dict_get_In _ _ _ Hm)) as (Hlow & Hne & Hm12).
  pose proof (lower_letters name Hlow) as Hletters.
  destruct name as [|n1 name]; [destruct Hne; reflexivity|].
  assert (Hd100 : d < 100).
  { assert (days_in_month y m <= 31); [|lia].
    unfold days_in_month.
    do 12 (try destruct m as [|m]); try destruct (is_leap y); lia. }
  pose proof (int_str_of_nat d) as Hintd. pose proof (int_str_of_nat y) as Hinty.
  destruct (str_of_nat_day d Hd100) as (d1 & ds & Eday & Hd1 & Hds).
  destruct (str_of_nat_year y Hy) as (y1 & y2 & y3 & y4 & Eyear & H1 & H2 & H3 & H4).
  rewrite Eday, Eyear in *.
  assert (Hn1 : isspace n1 = false).
  { apply is_letter_not_space. inversion Hletters; assumption. }
  unfold PDFDates._parse_date_string.
  assert (Hstrip : strip ((n1 :: name) ++ space :: (d1 :: ds)
                          ++ comma :: space :: [y1; y2; y3; y4])
                   = (n1 :: name) ++ space :: (d1 :: ds)
                     ++ comma :: space :: [y1; y2; y3; y4]).
  { assert (Hshape : (n1 :: name) ++ space :: (d1 :: ds)
                     ++ comma :: space :: [y1; y2; y3; y4]
                     = n1 :: (name ++ space :: (d1 :: ds)
                              ++ comma :: space :: [y1; y2; y3]) ++ [y4]).
    { cbn [app]. rewrite <- ?app_assoc. cbn [app]. rewrite <- ?app_assoc.
      reflexivity. }
    rewrite Hshape.
    apply strip_trimmed; [exact Hn1|apply isdigit_not_space, H4]. }
  rewrite Hstrip.
  assert (Hmatch : PDFDates.match_date
                     ((n1 :: name) ++ space :: (d1 :: ds)
                      ++ comma :: space :: [y1; y2; y3; y4])
                   = Some (n1 :: name, d1 :: ds, [y1; y2; y3; y4])).
  { unfold PDFDates.match_date.
    rewrite (many1_app_stop is_letter n1 name _ Hletters) by reflexivity.
    cbn [mbind option_bind].
    change (space :: (d1 :: ds) ++ comma :: space :: [y1; y2; y3; y4])
      with ([space] ++ d1 :: ds ++ comma :: space :: [y1; y2; y3; y4]).
    rewrite (many1_app_stop isspace space [] _)
      by (try (repeat constructor); apply isdigit_not_space, Hd1).
    cbn [mbind option_bind].
    rewrite (one_head isdigit d1 _ Hd1). cbn [mbind option_bind].
    assert (Hyear : many1 isspace (space :: [y1; y2; y3; y4])
                    = Some ([space], [y1; y2; y3; y4])).
    { change (space :: [y1; y2; y3; y4]) with ([space] ++ [y1; y2; y3; y4]).
      apply many1_app_stop; [repeat constructor|apply isdigit_not_space, H1]. }
    destruct Hds as [->|(d2 & -> & Hd2)]; cbn [app].
    - change (one isdigit (comma :: space :: [y1; y2; y3; y4])) with (@None (ascii * str)).
      cbv beta iota zeta.
      rewrite (one_head is_comma comma _ eq_refl). cbn [mbind option_bind].
      rewrite Hyear. cbn [mbind option_bind].
      rewrite (one_head isdigit y1 _ H1). cbn [mbind option_bind].
      rewrite (one_head isdigit y2 _ H2). cbn [mbind option_bind].
      rewrite (one_head isdigit y3 _ H3). cbn [mbind option_bind].
      rewrite (one_head isdigit y4 _ H4). reflexivity.
    - rewrite (one_head isdigit d2 _ Hd2). cbv beta iota zeta.
      rewrite (one_head is_comma comma _ eq_refl). cbn [mbind option_bind].
      rewrite Hyear. cbn [mbind option_bind].
      rewrite (one_head isdigit y1 _ H1). cbn [mbind option_bind].
      rewrite (one_head isdigit y2 _ H2). cbn [mbind option_bind].
      rewrite (one_head isdigit y3 _ H3). cbn [mbind option_bind].
      rewrite (one_head isdigit y4 _ H4). reflexivity. }
  rewrite Hmatch, Hm, Hintd, Hinty.
  destruct m as [|m]; [lia|].
  apply mk_datetime_valid; [unfold MINYEAR; lia|lia|exact Hd].
Qed.

Lemma parse_date_string_round_trip_witness :
  PDFDates._parse_date_string (lit "September 27, 2017")
  = Some {| year := 2017; month := 9; day := 27 |}.
Proof.
  apply (parse_date_string_round_trip (lit "September") 2017 9 27).
  - vm_compute. reflexivity.
  - unfold MAXYEAR. lia.
  - vm_compute. lia.
Defined.

(** ** Defined terms of a chunk *)

Lemma fromkeys_from_spec (items : list str) :
  forall seen,
    NoDup (fromkeys_from seen items)
    /\ forall x, In x (fromkeys_from seen items) -> In x items /\ x ∉ seen.
Proof.
  induction items as [|item rest IH]; intros seen; cbn [fromkeys_from].
  - split; [constructor|intros x []].
  - destruct (bool_decide (item ∈ seen)) eqn:E.
    + destruct (IH seen) as [Hnd Hin]. split; [exact Hnd|].
      intros x Hx. destruct (Hin x Hx). split; [right|]; assumption.
    + apply bool_decide_eq_false_1 in E.
      destruct (IH (item :: seen)) as [Hnd Hin]. split.
      * constructor; [|exact Hnd]. intros Hi.
        apply list_elem_of_In in Hi. destruct (Hin _ Hi) as [_ Hn].
        apply Hn. left.
      * intros x [<-|Hx]; [split; [left; reflexivity|exact E]|].
        destruct (Hin x Hx) as [Hr Hn]. split; [right; exact Hr|].
        intros Hs. apply Hn. right. exact Hs.
Qed.

(** What [findall_from] returns are groups of matches of the pattern at
    places of the text. *)
Lemma findall_from_matches (pattern : option ascii -> str -> option str)
    (width : str -> nat) (P : str -> Prop) :
  (forall prev s g, pattern prev s = Some g ->
     P g /\ exists pre post, s = pre ++ g ++ post) ->
  forall s prev skip,
    Forall (fun g => P g /\ exists pre post, s = pre ++ g ++ post)
           (findall_from pattern width prev s skip).
Proof.
  intros Hpat. induction s as [|c r IH]; intros prev skip;
    cbn [findall_from]; [constructor|].
  assert (Hr : forall prev' skip',
             Forall (fun g => P g /\ exists pre post, c :: r = pre ++ g ++ post)
                    (findall_from pattern width prev' r skip')).
  { intros prev' skip'. eapply List.Forall_impl; [|apply IH].
    intros g [Hg (pre & post & E)]. split; [exact Hg|].
    exists (c :: pre), post. rewrite E. reflexivity. }
  destruct skip as [|k]; [|apply Hr].
  destruct (pattern prev (c :: r)) as [g|] eqn:E; [|apply Hr].
  constructor; [exact (Hpat _ _ _ E)|apply Hr].
Qed.

Lemma match_quoted_term_shape (s g : str) :
  PgIndexer.match_quoted_term s = Some g ->
  (exists u body, g = u :: body /\ isupper u = true)
  /\ exists pre post, s = pre ++ g ++ post.
Proof.
  unfold PgIndexer.match_quoted_term. intros H.
  apply bind_some in H as ([q r1] & Hq & H).
  apply bind_some in H as ([u r2] & Hu & H).
  destruct (span not_quote r2) as [body r3] eqn:Es.
  destruct ((1 <=? length body) && (length body <=? 60)); [|discriminate].
  apply bind_some in H as ([q2 r4] & Hq2 & H). injection H as <-.
  apply one_spec in Hq as [-> _]. apply one_spec in Hu as [-> Hu].
  apply one_spec in Hq2 as [-> _]. apply span_spec in Es as [-> _].
  split; [eauto|]. exists [q], (q2 :: r4).
  reflexivity.
Qed.

Lemma match_caps_shape (prev : option ascii) (s g : str) :
  match_caps prev s = Some g ->
  (exists u body, g = u :: body /\ isupper u = true)
  /\ exists pre post, s = pre ++ g ++ post.
Proof.
  unfold match_caps. destruct (at_word_start prev); [|discriminate].
  destruct (span isupper s) as [run rest] eqn:Es.
  destruct ((2 <=? length run) && at_boundary rest) eqn:E; [|discriminate].
  intros H. injection H as <-.
  apply andb_prop in E as [Hlen _]. apply Nat.leb_le in Hlen.
  apply span_spec in Es as [-> Hup].
  split; [|exists [], rest; reflexivity].
  destruct run as [|u body]; [cbn in Hlen; lia|].
  inversion Hup; subst. eauto.
Qed.

(** X19.  The defined terms that the indexer extracts from the content
    of a chunk are at most 50, all different, and each begins with a capital
    letter, has no white space at its ends and occurs in the content. *)
Theorem extract_defined_terms_shape (content : str) :
  let terms := PgIndexer._extract_defined_terms content in
  NoDup terms
  /\ length terms <= 50
  /\ Forall (fun t =>
               (exists u rest, t = u :: rest /\ isupper u = true)
               /\ strip t = t
               /\ exists pre post, content = pre ++ t ++ post) terms.
Proof.
  cbv zeta. unfold PgIndexer._extract_defined_terms, fromkeys.
  set (terms := PgIndexer.findall_quoted_terms content ++ findall_caps content).
  set (kept := map strip (List.filter (fun t => truthy (strip t)) terms)).
  destruct (fromkeys_from_spec kept []) as [Hnd Hin].
  split; [exact (sublist_NoDup _ _ Hnd (sublist_take _ _))|].
  split; [apply firstn_le_length|].
  apply Forall_take. apply List.Forall_forall. intros t Ht.
  destruct (Hin t Ht) as [Hk _]. unfold kept in Hk.
  apply in_map_iff in Hk as (g & <- & Hg).
  apply filter_In in Hg as [Hg _].
  assert (Hshape : (exists u body, g = u :: body /\ isupper u = true)
                   /\ exists pre post, content = pre ++ g ++ post).
  { unfold terms in Hg. apply in_app_or in Hg as [Hg|Hg].
    - pose proof (findall_from_matches (fun _ => PgIndexer.match_quoted_term)
                    (fun g => length g + 2) _
                    (fun _ s g => match_quoted_term_shape s g)
                    content None 0) as Hall.
      rewrite List.Forall_forall in Hall. exact (Hall g Hg).
    - pose proof (findall_from_matches match_caps (@length ascii) _
                    match_caps_shape content None 0) as Hall.
      rewrite List.Forall_forall in Hall. exact (Hall g Hg). }
  destruct Hshape as [(u & body & -> & Hu) (pre & post & Hc)].
  split; [|split].
  - destruct (strip_head u body (isupper_not_space u Hu)) as [rest ->]. eauto.
  - apply strip_idem.
  - destruct (strip_substring (u :: body)) as (p1 & p2 & Hs).
    exists (pre ++ p1), (p2 ++ post). rewrite Hc. rewrite Hs at 1.
    rewrite <- !app_assoc. reflexivity.
Qed.

(** ** Reassembling the text from its chunks *)

Lemma lstrip_app_keep (u : str) (x : ascii) (v : str) :
  isspace x = false -> lstrip (u ++ x :: v) = lstrip u ++ x :: v.
Proof.
  intros Hx. induction u as [|c u IH]; cbn [app lstrip].
  - rewrite Hx. reflexivity.
  - destruct (isspace c); [exact IH|reflexivity].
Qed.

Lemma rstrip_app_keep (u : str) (x : ascii) (v : str) :
  isspace x = false -> rstrip (u ++ x :: v) = u ++ x :: rstrip v.
Proof.
  intros Hx. unfold rstrip. rewrite rev_app_distr. cbn [rev].
  rewrite <- app_assoc. cbn [app].
  rewrite (lstrip_app_keep (rev v) x (rev u) Hx), rev_app_distr.
  cbn [rev]. rewrite rev_involutive, <- app_assoc. reflexivity.
Qed.

(** Stripping keeps a character that is not white space, with what is
    between it and the ends once those are stripped. *)
Lemma strip_app_keep (u : str) (x : ascii) (v : str) :
  isspace x = false -> strip (u ++ x :: v) = lstrip u ++ x :: rstrip v.
Proof.
  intros Hx. unfold strip.
  rewrite (lstrip_app_keep u x v Hx). apply rstrip_app_keep, Hx.
Qed.

Lemma rstrip_blank (v : str) : blank v = true -> rstrip v = [].
Proof.
  unfold blank, rstrip. intros H. rewrite lstrip_blank; [reflexivity|].
  rewrite forallb_forall in *. intros c Hc. apply H, in_rev, Hc.
Qed.

(** A text that stripping leaves as it is has no white space at its
    ends. *)
Lemma strip_fixed_ends (s : str) :
  strip s = s ->
  (forall x r, s = x :: r -> isspace x = false) /\
  (forall b z, s = b ++ [z] -> isspace z = false).
Proof.
  intros Hs. split.
  - intros x r E. destruct (isspace x) eqn:Hx; [|reflexivity].
    assert (Hlen : length (strip s) < length s).
    { unfold strip. rewrite E. cbn [lstrip]. rewrite Hx.
      pose proof (strip_length r) as Hl. unfold strip in Hl. cbn [length]. lia. }
    rewrite Hs in Hlen. lia.
  - intros b z E. destruct (isspace z) eqn:Hz; [|reflexivity].
    assert (Hlen : length (strip s) < length s).
    { unfold strip, rstrip.
      destruct (lstrip_suffix s) as [pre Hpre].
      assert (Hl : exists b', lstrip s = b' ++ [z] \/ lstrip s = []).
      { rewrite E in Hpre. rewrite E.
        destruct (lstrip (b ++ [z])) as [|c l] eqn:El; [exists []; right; reflexivity|].
        destruct (@exists_last _ (c :: l)) as (b' & z' & Hb'); [discriminate|].
        exists b'. left. rewrite Hb' in Hpre |- *.
        rewrite app_assoc in Hpre. apply app_inj_tail in Hpre as [_ ->].
        reflexivity. }
      destruct Hl as (b' & [Hl|Hl]); rewrite Hl.
      - rewrite rev_app_distr. cbn [rev app lstrip]. rewrite Hz.
        rewrite length_rev.
        pose proof (lstrip_suffix (rev b')) as [pre' Hpre'].
        apply (f_equal (@length ascii)) in Hpre'.
        rewrite length_app, length_rev in Hpre'.
        apply (f_equal (@length ascii)) in Hpre.
        rewrite Hl, !length_app in Hpre. cbn [length] in Hpre. lia.
      - cbn. rewrite E, length_app. cbn [length]. lia. }
    rewrite Hs in Hlen. lia.
Qed.

Lemma slice_at (text : str) (s q e : nat) (x : ascii) :
  text !! q = Some x -> s <= q -> q < e ->
  slice text s e = slice text s q ++ x :: slice text (S q) e.
Proof.
  intros Hq Hs He.
  rewrite (slice_split text s q e) by lia. f_equal.
  rewrite (slice_split text q (S q) e) by lia.
  replace (slice text q (S q)) with [x]; [reflexivity|].
  unfold slice. rewrite (drop_S text x q Hq).
  replace (S q - q) with 1 by lia. reflexivity.
Qed.

Lemma slice_empty (text : str) (a : nat) : slice text a a = [].
Proof. unfold slice. rewrite Nat.sub_diag. reflexivity. Qed.

Lemma slice_to_end (text : str) (a e : nat) :
  length text <= e -> slice text a e = skipn a text.
Proof.
  intros He. unfold slice. apply take_ge. rewrite length_skipn. lia.
Qed.

(** A slice that is not blank has a character that is not white space. *)
Lemma slice_not_blank (text : str) (a b : nat) :
  blank (slice text a b) = false ->
  exists p y, a <= p /\ p < b /\ text !! p = Some y /\ isspace y = false.
Proof.
  unfold blank, slice. intros H.
  assert (Hex : exists j y, firstn (b - a) (skipn a text) !! j = Some y
                            /\ isspace y = false).
  { revert H. generalize (firstn (b - a) (skipn a text)). intros l.
    induction l as [|c l IH]; [discriminate|]. cbn [forallb].
    destruct (isspace c) eqn:Hc; cbn [andb].
    - intros H. destruct (IH H) as (j & y & Hj & Hy). exists (S j), y. auto.
    - intros _. exists 0, c. auto. }
  destruct Hex as (j & y & Hj & Hy).
  apply lookup_take_Some in Hj as [Hj Hlt]. rewrite lookup_drop in Hj.
  exists (a + j), y. repeat split; [lia|lia|exact Hj|exact Hy].
Qed.

(** Below [hi], after a character that is not white space, there is a last
    one. *)
Lemma last_nonspace (text : str) (p : nat) (x : ascii) :
  text !! p = Some x -> isspace x = false ->
  forall hi, p < hi ->
    exists q y,
      p <= q /\ q < hi /\ text !! q = Some y /\ isspace y = false /\
      blank (slice text (S q) hi) = true.
Proof.
  intros Hp Hx hi Hhi.
  induction hi as [|hi IH]; [lia|].
  destruct (Nat.eq_dec p hi) as [<-|Hne].
  - exists p, x. repeat split; try assumption; try lia.
    rewrite slice_empty. reflexivity.
  - destruct (IH ltac:(lia)) as (q & y & Hpq & Hq & Hy & Hys & Hb).
    destruct (text !! hi) as [z|] eqn:Hz.
    + destruct (isspace z) eqn:Hzs.
      * exists q, y. repeat split; try assumption; try lia.
        rewrite (slice_at text (S q) hi (S hi) z Hz) by lia.
        rewrite slice_empty. unfold blank in *. rewrite forallb_app, Hb.
        cbn [forallb]. rewrite Hzs. reflexivity.
      * exists hi, z. repeat split; try assumption; try lia.
        rewrite slice_empty. reflexivity.
    + exists q, y. repeat split; try assumption; try lia.
      apply lookup_ge_None in Hz.
      rewrite (slice_to_end text (S q) (S hi)) by lia.
      rewrite <- (slice_to_end text (S q) hi) by lia. exact Hb.
Qed.

(** The chunk of a window, seen from a character [x] of the window that
    is not white space, the last such character of the window being at
    [q']: it ends with that last character. *)
Lemma strip_window (text : str) (s e q q' : nat) (x y : ascii) :
  text !! q = Some x -> isspace x = false -> s <= q ->
  text !! q' = Some y -> isspace y = false -> q <= q' -> q' < e ->
  blank (slice text (S q') e) = true ->
  strip (slice text s e)
  = lstrip (slice text s q) ++ x :: slice text (S q) (S q').
Proof.
  intros Hq Hx Hs Hq' Hy Hqq He Hb.
  rewrite (slice_at text s q e x Hq) by lia.
  rewrite (strip_app_keep _ x _ Hx). do 2 f_equal.
  destruct (Nat.eq_dec q q') as [<-|Hne].
  - rewrite slice_empty. apply rstrip_blank, Hb.
  - rewrite (slice_at text (S q) q' e y Hq') by lia.
    rewrite (rstrip_app_keep _ y _ Hy), (rstrip_blank _ Hb).
    rewrite (slice_split text (S q) q' (S q')) by lia.
    rewrite (slice_at text q' q' (S q') y Hq') by lia.
    rewrite !slice_empty. reflexivity.
Qed.

(** The chunks of a chain of windows, each without what the chunks before
    it already gave, make up the text from a character of the first window
    that is not white space, or from just after it. *)
Lemma window_chain_reassembles_stripped (text : str) start ws :
  window_chain text start ws ->
  (forall b z, text = b ++ [z] -> isspace z = false) ->
  (forall i w1 w2, ws !! i = Some w1 -> ws !! S i = Some w2 ->
     blank (slice text (fst w2) (snd w1)) = false) ->
  forall q x c,
    text !! q = Some x -> isspace x = false ->
    start <= q -> q < window_end text start -> c = q \/ c = S q ->
    exists pieces : list str,
      Forall2 (fun chunk piece => exists overlap, chunk = overlap ++ piece)
              (window_chunks text ws) pieces
      /\ concat pieces = skipn c text.
Proof.
  intros Hch Hlast.
  induction Hch as [start H1 H2|start ws H1 H2 Hch IH];
    intros Hover q x c Hq Hx Hsq Hqe Hc.
  - (* the last window *)
    pose proof (window_end_bounds text start) as Hbd.
    assert (He : length text <= window_end text start)
      by (unfold chunk_overlap in H2; lia).
    assert (Hr : rstrip (skipn (S q) text) = skipn (S q) text).
    { destruct (skipn (S q) text) as [|v0 v] eqn:Ev; [reflexivity|].
      destruct (@exists_last _ (v0 :: v)) as (v' & z & Hv); [discriminate|].
      rewrite Hv. rewrite (rstrip_app_keep v' z []); [reflexivity|].
      apply (Hlast (firstn (S q) text ++ v')).
      rewrite <- app_assoc, <- Hv, <- Ev. symmetry. apply firstn_skipn. }
    assert (Hchunk : strip (slice text start (window_end text start))
                     = lstrip (slice text start q) ++ x :: skipn (S q) text).
    { rewrite (slice_at text start q _ x Hq) by lia.
      rewrite (strip_app_keep _ x _ Hx).
      rewrite (slice_to_end text (S q)) by exact He. rewrite Hr. reflexivity. }
    rewrite window_chunks_cons. cbn [fst snd]. rewrite Hchunk.
    assert (Htr : truthy (lstrip (slice text start q) ++ x :: skipn (S q) text)
                  = true)
      by (destruct (lstrip (slice text start q)); reflexivity).
    rewrite Htr. cbn [app]. change (window_chunks text []) with (@nil str).
    exists [skipn c text]. split; [|cbn [concat]; apply app_nil_r].
    constructor; [|constructor].
    destruct Hc as [->| ->].
    + exists (lstrip (slice text start q)). rewrite (drop_S text x q Hq).
      reflexivity.
    + exists (lstrip (slice text start q) ++ [x]). rewrite <- app_assoc.
      reflexivity.
  - (* a window with a successor *)
    pose proof (window_end_bounds text start) as Hbd.
    set (e := window_end text start) in *.
    pose proof (window_end_bounds text (e - chunk_overlap)) as Hbd'.
    destruct (window_chain_head text _ ws Hch) as [ws' Hws]. 
    assert (Ho : blank (slice text (e - chunk_overlap) e) = false).
    { apply (Hover 0 (start, e) (e - chunk_overlap,
                                 window_end text (e - chunk_overlap)));
        [reflexivity|rewrite Hws; reflexivity]. }
    destruct (slice_not_blank _ _ _ Ho) as (p & y & Hp1 & Hp2 & Hp & Hy).
    (* the last character of the window that is not white space *)
    assert (Hlastq : exists q' y',
               q <= q' /\ e - chunk_overlap <= q' /\ q' < e /\
               text !! q' = Some y' /\ isspace y' = false /\
               blank (slice text (S q') e) = true).
    { destruct (Nat.le_gt_cases p q) as [Hpq|Hpq].
      - destruct (last_nonspace text q x Hq Hx e Hqe)
          as (q' & y' & ? & ? & ? & ? & ?).
        exists q', y'. repeat split; try assumption; lia.
      - destruct (last_nonspace text p y Hp Hy e Hp2)
          as (q' & y' & ? & ? & ? & ? & ?).
        exists q', y'. repeat split; try assumption; lia. }
    destruct Hlastq as (q' & y' & Hqq & Hsq' & Hq'e & Hq' & Hy' & Hb).
    rewrite window_chunks_cons. cbn [fst snd].
    rewrite (strip_window text start e q q' x y' Hq Hx Hsq Hq' Hy' Hqq Hq'e Hb).
    assert (Htr : truthy (lstrip (slice text start q)
                          ++ x :: slice text (S q) (S q')) = true)
      by (destruct (lstrip (slice text start q)); reflexivity).
    rewrite Htr. cbn [app].
    assert (Hq'w : q' < window_end text (e - chunk_overlap))
      by (unfold chunk_overlap, max_chunk_size in *; lia).
    assert (Hover' : forall i w1 w2,
               ws !! i = Some w1 -> ws !! S i = Some w2 ->
               blank (slice text (fst w2) (snd w1)) = false).
    { intros i w1 w2 Hw1 Hw2. apply (Hover (S i) w1 w2); assumption. }
    destruct (IH Hover' q' y' (S q') Hq' Hy' Hsq' Hq'w (or_intror eq_refl))
      as (pieces & HF & Hcat).
    exists (slice text c (S q') :: pieces). split.
    + constructor; [|exact HF].
      destruct Hc as [->| ->].
      * exists (lstrip (slice text start q)).
        rewrite (slice_at text q q (S q') x Hq) by lia.
        rewrite slice_empty. reflexivity.
      * exists (lstrip (slice text start q) ++ [x]). rewrite <- app_assoc.
        reflexivity.
    + cbn [concat]. rewrite Hcat. apply slice_rest.
      destruct Hc as [->| ->]; lia.
Qed.

(** C4 (amended).  For a text longer than the threshold the split always
    returns; its window start offsets strictly increase, each window starts
    [chunk_overlap] characters before the end of the one before, the final
    window reaches the end of the text, and every offset of the text lies
    in some window.  The chunks are the windows' texts with the white space
    around them stripped, blank ones left out, so none of them is blank; when
    the text has no white space at its ends and no overlap of two windows is
    all white space, the chunks with their overlaps removed give the text
    back. *)
Theorem split_windows_cover (text : str) :
  max_chunk_size < length text ->
  exists ws,
    split_windows text = Some ws /\
    _split_text_with_overlap text = Some (window_chunks text ws) /\
    (forall i w1 w2, ws !! i = Some w1 -> ws !! S i = Some w2 ->
       fst w1 < fst w2 /\ fst w2 = snd w1 - chunk_overlap /\ fst w2 < snd w1) /\
    (exists w, last ws = Some w /\ length text <= snd w) /\
    (forall p, p < length text -> exists w, In w ws /\ fst w <= p /\ p < snd w) /\
    Forall (fun c => blank c = false) (window_chunks text ws) /\
    (strip text = text ->
     (forall i w1 w2, ws !! i = Some w1 -> ws !! S i = Some w2 ->
        blank (slice text (fst w2) (snd w1)) = false) ->
     reassembles (window_chunks text ws) text).
Proof.
  intros Hlen.
  destruct (split_text_total text) as (ws & Hws & Hsplit & Hch & _).
  assert (Hchain : window_chain text 0 ws)
    by (apply Hch; unfold max_chunk_size in Hlen; lia).
  exists ws. split; [exact Hws|]. split; [exact Hsplit|].
  split; [exact (window_chain_consecutive text 0 ws Hchain)|].
  split; [exact (window_chain_last text 0 ws Hchain)|].
  split; [|split; [apply window_chunks_not_blank|]].
  - intros p Hp.
    apply (window_chain_covers text 0 ws Hchain p); [lia|exact Hp].
  - intros Hstrip Hover.
    destruct (strip_fixed_ends text Hstrip) as [Hfirst Hlast].
    destruct text as [|x r] eqn:Et; [cbn in Hlen; lia|]. rewrite <- Et in *.
    assert (Hx : text !! 0 = Some x) by (rewrite Et; reflexivity).
    pose proof (window_end_bounds text 0) as Hbd.
    apply (window_chain_reassembles_stripped text 0 ws Hchain Hlast Hover 0 x 0);
      [exact Hx|exact (Hfirst x r Et)|lia|lia|left; reflexivity].
Qed.

Lemma split_windows_cover_witness :
  exists chunks,
    _split_text_with_overlap sample_spaced_text = Some chunks /\
    map (@length ascii) chunks = [1000; 400] /\
    reassembles chunks sample_spaced_text.
Proof.
  destruct (split_windows_cover sample_spaced_text) as (ws & Hws & Hsplit & _ & _
    & _ & _ & Hre).
  - apply Nat.ltb_lt. vm_compute. reflexivity.
  - assert (E : ws = [(0, 1000); (900, 1900)]).
    { vm_compute in Hws. injection Hws as <-. reflexivity. }
    exists (window_chunks sample_spaced_text ws).
    split; [exact Hsplit|]. split; [rewrite E; vm_compute; reflexivity|].
    apply Hre; [vm_compute; reflexivity|].
    rewrite E. intros i w1 w2 H1 H2.
    destruct i as [|[|i]]; cbn [lookup list_lookup] in H1, H2;
      [|discriminate|discriminate].
    injection H1 as <-. injection H2 as <-. vm_compute. reflexivity.
Defined.

(** A text that begins with a space: the space is in no chunk, so no
    removal of overlaps gives the text back. *)
Lemma split_loses_whitespace_counterexample :
  max_chunk_size < length sample_padded_text /\
  exists chunks,
    _split_text_with_overlap sample_padded_text = Some chunks /\
    ~ reassembles chunks sample_padded_text.
Proof.
  split; [apply Nat.ltb_lt; vm_compute; reflexivity|].
  exists [repeat letter_a 999; repeat letter_a 101].
  split; [vm_compute; reflexivity|].
  intros Hre.
  destruct (reassembles_chars _ _ space Hre) as (chunk & Hin & Hsp).
  - left. reflexivity.
  - destruct Hin as [<-|[<-|[]]]; apply repeat_spec in Hsp; discriminate.
Qed.

(** ** Heading numbers found in the text *)

Lemma join_concat (c : str) (cs : list str) :
  join [dot] (c :: cs) = c ++ concat (map (cons dot) cs).
Proof.
  revert c. induction cs as [|c2 cs IH]; intros c.
  - cbn [join map concat]. rewrite app_nil_r. reflexivity.
  - change (join [dot] (c :: c2 :: cs)) with (c ++ dot :: join [dot] (c2 :: cs)).
    rewrite IH. reflexivity.
Qed.

Lemma join_app_concat (comps cs : list str) :
  comps <> [] ->
  join [dot] (comps ++ cs) = join [dot] comps ++ concat (map (cons dot) cs).
Proof.
  induction comps as [|c rest IH]; [congruence|]. intros _.
  destruct rest as [|c2 rest].
  - cbn [app join]. apply join_concat.
  - change (join [dot] ((c :: c2 :: rest) ++ cs))
      with (c ++ dot :: join [dot] ((c2 :: rest) ++ cs)).
    rewrite IH by discriminate.
    change (join [dot] (c :: c2 :: rest)) with (c ++ dot :: join [dot] (c2 :: rest)).
    rewrite <- app_assoc. reflexivity.
Qed.

(** What the greedy match takes: digits, then groups of a dot and a
    numeral. *)
Lemma re_number_tail_shape (s m rest : str) :
  re_number_tail s = (m, rest) ->
  exists d0 cs,
    m = d0 ++ concat (map (cons dot) cs) /\
    Forall (fun ch => isdigit ch = true) d0 /\
    Forall numeral cs /\
    (starts_with_digit s = true -> d0 <> []) /\
    (starts_with_digit s = false -> d0 = []).
Proof.
  revert m rest. induction s as [|c r IH]; intros m rest; cbn [re_number_tail].
  - intros H. injection H as <- <-. exists [], [].
    repeat split; try constructor; try discriminate.
  - cbn [starts_with_digit]. destruct (isdigit c) eqn:Hc.
    + destruct (re_number_tail r) as [m' rest'] eqn:E. intros H.
      injection H as <- <-.
      destruct (IH m' rest' eq_refl) as (d0 & cs & -> & Hd0 & Hcs & _ & _).
      exists (c :: d0), cs.
      repeat split; try (constructor; assumption); try assumption;
        discriminate.
    + destruct (Ascii.eqb_spec c dot) as [->|Hne].
      * destruct r as [|d r'].
        { intros H. injection H as <- <-. exists [], [].
          repeat split; try constructor; discriminate. }
        destruct (isdigit d) eqn:Hd.
        -- destruct (re_number_tail (d :: r')) as [m' rest'] eqn:E. intros H.
           injection H as <- <-.
           destruct (IH m' rest' eq_refl) as (d0 & cs & -> & Hd0 & Hcs & Hne & _).
           exists [], (d0 :: cs). cbn [map concat app].
           repeat split; try constructor; try assumption; try discriminate.
           split; [apply Hne; cbn [starts_with_digit]; exact Hd|exact Hd0].
        -- intros H. injection H as <- <-. exists [], [].
           repeat split; try constructor; discriminate.
      * intros H. injection H as <- <-. exists [], [].
        repeat split; try constructor; discriminate.
Qed.

(** The greedy match on a text that begins with numerals joined by dots
    takes them all, and goes on with what follows. *)
Lemma re_number_tail_join_app (comps : list str) (rest : str) :
  Forall numeral comps -> comps <> [] ->
  re_number_tail (join [dot] comps ++ rest)
  = (join [dot] comps ++ fst (re_number_tail rest), snd (re_number_tail rest)).
Proof.
  induction comps as [|c more IH]; [congruence|]. intros H _.
  apply Forall_cons_1 in H as [[Hne Hc] Hmore].
  destruct more as [|c2 more].
  - cbn [join]. apply re_number_tail_digits, Hc.
  - change (join [dot] (c :: c2 :: more)) with (c ++ dot :: join [dot] (c2 :: more)).
    rewrite <- app_assoc. rewrite re_number_tail_digits by exact Hc.
    specialize (IH Hmore ltac:(discriminate)).
    apply Forall_cons_1 in Hmore as [[Hne2 Hc2] _].
    destruct (join_head c2 more) as [tail Htail].
    destruct c2 as [|d c2]; [congruence|]. apply Forall_inv in Hc2.
    assert (E : re_number_tail
                  ((dot :: join [dot] ((d :: c2) :: more)) ++ rest)
                = (dot :: join [dot] ((d :: c2) :: more)
                   ++ fst (re_number_tail rest),
                   snd (re_number_tail rest))).
    { cbn [app re_number_tail]. change (isdigit dot) with false. cbv iota.
      rewrite Ascii.eqb_refl.
      revert IH. rewrite Htail. cbn [app]. intros IH. rewrite Hc2, IH.
      reflexivity. }
    rewrite E. cbn [fst snd]. rewrite <- app_assoc. reflexivity.
Qed.

Lemma has_dot_join (comps : list str) :
  2 <= length comps -> has_dot (join [dot] comps) = true.
Proof.
  destruct comps as [|c [|c2 more]]; cbn [length]; try lia. intros _.
  change (join [dot] (c :: c2 :: more)) with (c ++ dot :: join [dot] (c2 :: more)).
  unfold has_dot. rewrite existsb_app. cbn [existsb]. rewrite Ascii.eqb_refl.
  rewrite orb_true_r. reflexivity.
Qed.

Lemma has_dot_digits (d : str) :
  Forall (fun ch => isdigit ch = true) d -> has_dot d = false.
Proof.
  unfold has_dot. induction 1 as [|x d Hx Hd IH]; [reflexivity|].
  cbn [existsb]. rewrite IH, Ascii.eqb_sym, (isdigit_not_dot x Hx). reflexivity.
Qed.

Lemma dotted_starts_with_digit (num rest : str) (comps : list str) :
  dotted_numeric num comps -> starts_with_digit (num ++ rest) = true.
Proof.
  intros (-> & Hlen & Hnum).
  destruct comps as [|c more]; [cbn in Hlen; lia|].
  apply Forall_cons_1 in Hnum as [[Hne Hc] _].
  destruct (join_head c more) as [tail ->].
  destruct c as [|d c]; [congruence|]. apply Forall_inv in Hc. exact Hc.
Qed.

Lemma isdigit_isword c : isdigit c = true -> isword c = true.
Proof. unfold isword. intros ->. reflexivity. Qed.

Lemma word_boundary_at (rest : str) :
  at_boundary rest = true <-> word_boundary rest.
Proof.
  destruct rest as [|c r]; cbn [at_boundary word_boundary]; [tauto|].
  destruct (isword c); cbn [negb]; split; congruence.
Qed.

Lemma word_boundary_no_digit (rest : str) :
  word_boundary rest -> starts_with_digit rest = false.
Proof.
  destruct rest as [|c r]; [reflexivity|]. cbn [word_boundary starts_with_digit].
  intros H. destruct (isdigit c) eqn:E; [|reflexivity].
  rewrite (isdigit_isword c E) in H. discriminate.
Qed.

Lemma removelast_app_ne {A} (l k : list A) :
  k <> [] -> removelast (l ++ k) = l ++ removelast k.
Proof. intros H. apply removelast_app. exact H. Qed.

Lemma Forall_removelast {A} (P : A -> Prop) (l : list A) :
  Forall P l -> Forall P (removelast l).
Proof.
  induction 1 as [|x l Hx Hl IH]; [constructor|].
  destruct l as [|y l]; [constructor|].
  change (removelast (x :: y :: l)) with (x :: removelast (y :: l)).
  constructor; assumption.
Qed.

Lemma length_removelast {A} (l : list A) :
  length (removelast l) = length l - 1.
Proof.
  induction l as [|x l IH]; [reflexivity|].
  destruct l as [|y l]; [reflexivity|].
  change (removelast (x :: y :: l)) with (x :: removelast (y :: l)).
  cbn [length] in *. lia.
Qed.

(** A heading prefix of a line is a part of what the greedy match takes:
    it is the whole of it, or groups of a dot and a numeral follow. *)
Lemma heading_prefix_greedy (line num m rest : str) :
  heading_prefix line num ->
  re_number_tail line = (m, rest) ->
  exists comps cs,
    dotted_numeric num comps /\ Forall numeral cs /\
    m = join [dot] (comps ++ cs) /\
    (cs = [] -> word_boundary rest).
Proof.
  intros (comps & rest' & Hd & -> & Hb) E.
  pose proof Hd as (Hnum & Hlen & Hall).
  assert (Hne : comps <> []) by (destruct comps; [cbn in Hlen; lia|discriminate]).
  rewrite Hnum in E. rewrite (re_number_tail_join_app comps rest' Hall Hne) in E.
  destruct (re_number_tail rest') as [t rest''] eqn:Et. cbn [fst snd] in E.
  injection E as <- <-.
  destruct (re_number_tail_shape rest' t rest'' Et)
    as (d0 & cs & -> & _ & Hcs & _ & Hd0).
  pose proof (Hd0 (word_boundary_no_digit rest' Hb)) as ->. cbn [app] in *.
  exists comps, cs. split; [exact Hd|]. split; [exact Hcs|].
  split; [symmetry; apply join_app_concat, Hne|].
  intros ->. cbn [map concat] in Et.
  apply re_number_tail_app in Et. cbn [app] in Et. rewrite <- Et. exact Hb.
Qed.

(** [re_heading_number] finds the heading number of a line. *)
Lemma re_heading_number_spec (line : str) :
  line_heading line (re_heading_number line).
Proof.
  unfold re_heading_number.
  destruct (starts_with_digit line) eqn:Hs.
  2:{ intros num (comps & rest & Hd & -> & _).
      rewrite (dotted_starts_with_digit num rest comps Hd) in Hs. discriminate. }
  destruct (re_number_tail line) as [m rest] eqn:E.
  pose proof (re_number_tail_app line m rest E) as Hline.
  destruct (re_number_tail_shape line m rest E)
    as (d0 & cs & Hm & Hd0 & Hcs & Hne & _).
  specialize (Hne Hs).
  assert (Hall : Forall numeral (d0 :: cs))
    by (constructor; [split; assumption|exact Hcs]).
  assert (Hj : m = join [dot] (d0 :: cs)) by (rewrite join_concat; exact Hm).
  assert (Hsplit : split dot m = d0 :: cs)
    by (rewrite Hj; apply split_join; [discriminate|exact Hall]).
  assert (Hgreedy : forall num',
             heading_prefix line num' ->
             exists comps cs',
               dotted_numeric num' comps /\ Forall numeral cs' /\
               d0 :: cs = comps ++ cs' /\ (cs' = [] -> word_boundary rest)).
  { intros num' Hp.
    destruct (heading_prefix_greedy line num' m rest Hp E)
      as (comps & cs' & Hdn & Hcs' & Hm' & Hb).
    exists comps, cs'. split; [exact Hdn|]. split; [exact Hcs'|].
    split; [|exact Hb]. rewrite <- Hsplit, Hm'.
    apply split_join.
    - destruct Hdn as (_ & Hl & _). destruct comps; [cbn in Hl; lia|discriminate].
    - apply Forall_app. split; [apply Hdn|exact Hcs']. }
  destruct (has_dot m) eqn:Hdot.
  2:{ intros num' Hp.
      destruct (Hgreedy num' Hp) as (comps & cs' & (_ & Hl & _) & _ & Hc & _).
      rewrite Hj, has_dot_join in Hdot; [discriminate|].
      rewrite Hc, length_app. lia. }
  assert (Hlen : 2 <= length (d0 :: cs))
    by (rewrite <- Hsplit; apply has_dot_split, Hdot).
  destruct (at_boundary rest) eqn:Hb.
  - split.
    + exists (d0 :: cs), rest. split; [repeat split; assumption|].
      split; [exact Hline|apply word_boundary_at, Hb].
    + intros num' Hp.
      destruct (Hgreedy num' Hp) as (comps & cs' & (-> & Hl & _) & _ & Hc & _).
      rewrite Hj, Hc, join_app_concat, length_app by
        (destruct comps; [cbn in Hl; lia|discriminate]).
      lia.
  - assert (Hdrop : drop_last_component m = join [dot] (removelast (d0 :: cs)))
      by (unfold drop_last_component; rewrite Hsplit; reflexivity).
    assert (Hno : forall num',
               heading_prefix line num' ->
               exists comps cs',
                 dotted_numeric num' comps /\ cs' <> [] /\
                 d0 :: cs = comps ++ cs').
    { intros num' Hp.
      destruct (Hgreedy num' Hp) as (comps & cs' & Hdn & _ & Hc & Hbd).
      exists comps, cs'. split; [exact Hdn|]. split; [|exact Hc].
      intros ->. apply word_boundary_at in Hbd; [|reflexivity]. congruence. }
    rewrite Hdrop.
    destruct (has_dot (join [dot] (removelast (d0 :: cs)))) eqn:Hdot'.
    + split.
      * destruct (@exists_last _ (d0 :: cs)) as (front & l & Hfl); [discriminate|].
        exists (removelast (d0 :: cs)), (dot :: l ++ rest).
        split; [|split; [|reflexivity]].
        -- split; [reflexivity|]. split.
           ++ rewrite <- (split_join (removelast (d0 :: cs))).
              ** apply has_dot_split, Hdot'.
              ** intros Hnil. rewrite Hnil in Hdot'. discriminate.
              ** apply Forall_removelast, Hall.
           ++ apply Forall_removelast, Hall.
        -- rewrite Hline, Hj, Hfl, removelast_last.
           rewrite join_snoc.
           ++ rewrite <- app_assoc. reflexivity.
           ++ intros ->. rewrite Hfl, removelast_last in Hdot'. discriminate.
      * intros num' Hp.
        destruct (Hno num' Hp) as (comps & cs' & (-> & Hl & _) & Hne' & Hc).
        rewrite Hc, removelast_app_ne, join_app_concat, length_app by
          (first [exact Hne'|destruct comps; [cbn in Hl; lia|discriminate]]).
        lia.
    + intros num' Hp.
      destruct (Hno num' Hp) as (comps & cs' & (_ & Hl & _) & Hne' & Hc).
      rewrite has_dot_join in Hdot'; [discriminate|].
      rewrite length_removelast, Hc, length_app.
      destruct cs'; [congruence|]. cbn [length]. lia.
Qed.

(** A line has one heading number, or none. *)
Lemma line_heading_unique (line : str) (f1 f2 : option str) :
  line_heading line f1 -> line_heading line f2 -> f1 = f2.
Proof.
  destruct f1 as [n1|], f2 as [n2|]; cbn [line_heading].
  - intros [Hp1 Hmax1] [Hp2 Hmax2].
    pose proof (Hmax1 n2 Hp2). pose proof (Hmax2 n1 Hp1).
    destruct Hp1 as (? & r1 & _ & Hl1 & _). destruct Hp2 as (? & r2 & _ & Hl2 & _).
    rewrite Hl1 in Hl2. apply app_inj_1 in Hl2 as [-> _]; [reflexivity|lia].
  - intros [Hp _] Hnone. destruct (Hnone n1 Hp).
  - intros Hnone [Hp _]. destruct (Hnone n2 Hp).
  - reflexivity.
Qed.

Lemma blank_strip (l : str) : truthy (strip l) = negb (blank l).
Proof.
  unfold blank. destruct (forallb isspace l) eqn:E.
  - rewrite (strip_blank l E). reflexivity.
  - assert (Hex : exists c, In c l /\ isspace c = false).
    { clear -E. induction l as [|c r IH]; [discriminate|]. cbn [forallb] in E.
      destruct (isspace c) eqn:Hc.
      - destruct (IH E) as (x & Hin & Hx). exists x. split; [right|]; assumption.
      - exists c. split; [left; reflexivity|exact Hc]. }
    destruct Hex as (c & Hin & Hc). pose proof (strip_keeps l c Hin Hc) as Hk.
    destruct (strip l); [destruct Hk|reflexivity].
Qed.

Lemma stripped_lines_spec (section_text : str) :
  map strip (List.filter (fun l => truthy (strip l)) (splitlines section_text))
  = stripped_lines section_text.
Proof.
  unfold stripped_lines. induction (splitlines section_text) as [|l ls IH];
    [reflexivity|].
  cbn [List.filter omap list_omap]. rewrite blank_strip.
  destruct (blank l); cbn [negb map]; rewrite IH; reflexivity.
Qed.

(** [_extract_heading_meta] gives the heading number of the text, with its
    number of components as level and its components but the last as
    parent. *)
Lemma extract_heading_meta_spec (section_text : str) :
  exists found,
    text_heading section_text found /\
    match found with
    | Some num =>
        exists comps,
          dotted_numeric num comps /\
          _extract_heading_meta section_text
          = Some (num, length comps, Some (join [dot] (removelast comps)))
    | None => _extract_heading_meta section_text = None
    end.
Proof.
  unfold _extract_heading_meta, text_heading. rewrite stripped_lines_spec.
  destruct (stripped_lines section_text) as [|l0 more]; [exists None; auto|].
  assert (Hmeta : forall l num,
             line_heading l (Some num) ->
             exists comps,
               dotted_numeric num comps /\
               (let parts := split dot num in
                let level := length parts in
                let parent :=
                  if 1 <? level then Some (join [dot] (removelast parts))
                  else None in
                Some (num, level, parent))
               = Some (num, length comps, Some (join [dot] (removelast comps)))).
  { intros l num [(comps & rest & Hd & _) _]. exists comps. split; [exact Hd|].
    destruct Hd as (-> & Hlen & Hall). cbv zeta.
    rewrite split_join; [|destruct comps; [cbn in Hlen; lia|discriminate]|exact Hall].
    destruct (Nat.ltb_spec 1 (length comps)); [reflexivity|lia]. }
  pose proof (re_heading_number_spec l0) as H0.
  destruct (re_heading_number l0) as [g|].
  - exists (Some g). split; [left; exists g; auto|]. apply (Hmeta l0 g H0).
  - destruct more as [|l1 more']; [exists None; auto|].
    pose proof (re_heading_number_spec l1) as H1.
    destruct (re_heading_number l1) as [g|].
    + exists (Some g). split; [right; auto|]. apply (Hmeta l1 g H1).
    + exists None. split; [right; auto|reflexivity].
Qed.

(** C7 (amended).  For a section whose identifier has the shape
    [\d+(\.\d+)+], every chunk carries the identifier as heading number, the
    number of its dot-separated components as heading level, and the
    identifier without its last component as parent heading number.  A
    section with identifier "5" does not have that shape: its anchor is the
    heading number of its text, the longest dotted number at the head of its
    first non-blank line, or of the second when the first has none, with
    the number of components as level and the number without its last
    component as parent; heading number, level and parent are all absent
    when neither line has one, and a heading level of 1 never comes out. *)
Theorem chunk_section_heading (document : LegalDocument) (section : SectionT) :
  (forall comps chunks,
     dotted_numeric (id section) comps ->
     _chunk_section document section = Some chunks ->
     Forall (fun c =>
               heading_number (chunk_metadata c) = Some (id section) /\
               heading_level (chunk_metadata c) = Some (length comps) /\
               parent_heading_number (chunk_metadata c)
               = Some (join [dot] (removelast comps))) chunks)
  /\
  (id section = lit "5" ->
   forall chunks,
     _chunk_section document section = Some chunks ->
     exists found,
       text_heading (text section) found /\
       Forall (fun c =>
                 heading_level (chunk_metadata c) <> Some 1 /\
                 anchor_of found c) chunks).
Proof.
  split.
  - intros comps chunks Hd Hcs.
    apply chunk_section_anchor in Hcs.
    rewrite (heading_anchor_dotted section comps Hd) in Hcs.
    eapply List.Forall_impl; [|exact Hcs].
    intros c Hc. injection Hc as -> -> ->. auto.
  - intros Hid chunks Hcs.
    apply chunk_section_anchor in Hcs.
    assert (Ha : heading_anchor section =
                 match _extract_heading_meta (text section) with
                 | Some (num, level, parent) => (Some num, Some level, parent)
                 | None => (None, None, None)
                 end).
    { unfold heading_anchor. rewrite Hid. reflexivity. }
    rewrite Ha in Hcs. clear Ha.
    destruct (extract_heading_meta_spec (text section)) as (found & Hfound & Hmeta).
    exists found. split; [exact Hfound|].
    eapply List.Forall_impl; [|exact Hcs].
    intros c Hc. destruct found as [num|].
    + destruct Hmeta as (comps & Hd & Hmeta). rewrite Hmeta in Hc.
      injection Hc as H1 H2 H3. split.
      * rewrite H2. destruct Hd as (_ & Hlen & _). intros H. injection H as H. lia.
      * exists comps. auto.
    + rewrite Hmeta in Hc. injection Hc as H1 H2 H3.
      split; [rewrite H2; discriminate|]. cbn [anchor_of]. auto.
Qed.

Lemma chunk_section_heading_witness :
  (exists c,
     _chunk_section sample_document
       (sample_section (lit "11.4.2") (lit "Payment terms.")) = Some [c] /\
     heading_number (chunk_metadata c) = Some (lit "11.4.2") /\
     heading_level (chunk_metadata c) = Some 3 /\
     parent_heading_number (chunk_metadata c) = Some (lit "11.4"))
  /\
  (exists c,
     _chunk_section sample_document
       (sample_section (lit "5") sample_headed_text) = Some [c] /\
     heading_number (chunk_metadata c) = Some (lit "11.4") /\
     heading_level (chunk_metadata c) = Some 2 /\
     parent_heading_number (chunk_metadata c) = Some (lit "11")).
Proof.
  split.
  - assert (Hle : length (text (sample_section (lit "11.4.2") (lit "Payment terms.")))
                  <= max_chunk_size)
      by (apply Nat.leb_le; vm_compute; reflexivity).
    assert (Hd : dotted_numeric
                   (id (sample_section (lit "11.4.2") (lit "Payment terms.")))
                   [lit "11"; lit "4"; lit "2"]).
    { split; [vm_compute; reflexivity|]. split; [simpl; lia|].
      repeat constructor; discriminate. }
    pose proof (proj1 (chunk_section_heading sample_document
                         (sample_section (lit "11.4.2") (lit "Payment terms.")))
                  _ _ Hd (chunk_section_short _ _ Hle)) as HF.
    apply Forall_inv in HF. destruct HF as (H1 & H2 & H3).
    eexists. split; [apply chunk_section_short; exact Hle|].
    split; [exact H1|]. split; [exact H2|exact H3].
  - assert (Hle : length (text (sample_section (lit "5") sample_headed_text))
                  <= max_chunk_size)
      by (apply Nat.leb_le; vm_compute; reflexivity).
    destruct (proj2 (chunk_section_heading sample_document
                       (sample_section (lit "5") sample_headed_text))
                eq_refl _ (chunk_section_short _ _ Hle)) as (found & Hfound & HF).
    apply Forall_inv in HF. destruct HF as (_ & Hanchor).
    assert (Hline : line_heading (lit "11.4 Payment") (Some (lit "11.4")))
      by exact (re_heading_number_spec (lit "11.4 Payment")).
    assert (E : found = Some (lit "11.4")).
    { unfold text_heading in Hfound.
      change (stripped_lines (text (sample_section (lit "5") sample_headed_text)))
        with [lit "11.4 Payment"; lit "The Buyer pays in May."] in Hfound.
      destruct Hfound as [(num & -> & Hnum)|[Hnone _]].
      - exact (line_heading_unique _ _ _ Hnum Hline).
      - discriminate (line_heading_unique _ _ _ Hnone Hline). }
    rewrite E in Hanchor. destruct Hanchor as (comps & Hd & H1 & H2 & H3).
    assert (Ec : comps = [lit "11"; lit "4"]).
    { destruct Hd as (Hj & Hlen & Hall).
      rewrite <- (split_join comps);
        [|destruct comps; [cbn in Hlen; lia|discriminate]|exact Hall].
      rewrite <- Hj. reflexivity. }
    rewrite Ec in H2, H3.
    eexists. split; [apply chunk_section_short; exact Hle|].
    split; [exact H1|]. split; [exact H2|exact H3].
Defined.

(** A section with identifier "5" and no dotted number in its text: the
    heading level is absent, not 1. *)
Lemma heading_level_single_number_counterexample :
  exists c,
    _chunk_section sample_document
      (sample_section (lit "5") (lit "General provisions.")) = Some [c] /\
    heading_level (chunk_metadata c) = None /\
    heading_level (chunk_metadata c) <> Some 1.
Proof.
  eexists. split; [vm_compute; reflexivity|]. split; [reflexivity|discriminate].
Qed.
